(** * JSON prompt builder: template inference, field merge, validation report

    A shallow embedding of the three functions of [app.py] that make up the
    prompt-building pipeline,

      - [natural_to_template]   (rule based inference of a prompt template),
      - [merge_manual_fields]   (layering of override fields),
      - [validate_schema]       (report of schema violations),

    together with the pieces of the Python runtime they call: the [str]
    methods [strip], [lower], [split], [join] and [in], the searches of
    module [re] for the two patterns of the source, and
    [textwrap.shorten].

    Around them, the code that calls them: [openai_enrich], the form of
    manual overrides and the handler of the button of [app.py]
    ([manual_overrides], [generate], [generate_json_prompt]); and of
    [ai_podcast_app.py] the local summary ([summarize_text_local],
    [generate_summary]) and the choice of the video id of a YouTube
    address ([video_id]).

    Conventions.
      - A Python [str] is a [list ascii]: a character is a Unicode code
        point and the model covers the code points below 256, so that
        [len] is [length] and the multiplication sign has code 215.
      - A Python [dict] with string keys is a [gmap string value]; Python
        integers are [Z].
      - [datetime.utcnow().isoformat()] is an input ([utcnow]) of the
        inference.
      - [int] raises on more than 4300 digits, the limit an interpreter
        has by default from Python 3.11 on.  [natural_to_template] is the
        template of a call that returns; [natural_to_template_call] and
        [generate] carry the exception.
      - The merge is modelled twice: as a function on values, and in
        [Store] on a store of dictionary objects, where copying, writing
        and sharing are explicit; [StoreRefinement.merge_on_store]
        relates the two.

    The definitions come first, then their properties, then the claims
    C1 to C10, each with its theorem, then further properties X1 to X27
    of the same code. *)

From Stdlib Require Import ZArith List Ascii String Lia Bool.
From Stdlib Require Import Sorted.
From stdpp Require Import gmap strings list fin_maps.

Local Open Scope Z_scope.
Local Open Scope nat_scope.
Local Open Scope list_scope.

(** ** Python strings *)

Abbreviation pystr := (list ascii).

(** A string literal of the source. *)
Definition lit (s : string) : pystr := list_ascii_of_string s.

Module Char.

Definition code (c : ascii) : N := N_of_ascii c.

Definition between (lo hi : N) (c : ascii) : bool :=
  ((lo <=? code c) && (code c <=? hi))%N.

(** [str.isdigit] restricted to decimal digits, which is what [\d] and
    [int] accept below code point 256. *)
Definition is_digit (c : ascii) : bool := between 48 57 c.

(** [str.isspace], also the class [\s] of [re]: TAB to CR, FS to US,
    space, NEL and the no-break space. *)
Definition is_space (c : ascii) : bool :=
  between 9 13 c || between 28 32 c
  || (code c =? 133)%N || (code c =? 160)%N.

(** [str.lower] on one character: the capital letters A-Z and the
    accented capitals 192-222 (215, the multiplication sign, is no
    letter) move up by 32. *)
Definition lower (c : ascii) : ascii :=
  if between 65 90 c || (between 192 222 c && negb (code c =? 215)%N)
  then ascii_of_N (code c + 32)
  else c.

End Char.

Module Str.

Definition lower (s : pystr) : pystr := map Char.lower s.

Fixpoint lstrip (s : pystr) : pystr :=
  match s with
  | c :: s' => if Char.is_space c then lstrip s' else s
  | [] => []
  end.

Definition rstrip (s : pystr) : pystr := rev (lstrip (rev s)).

Definition strip (s : pystr) : pystr := rstrip (lstrip s).

(** [s.startswith(p)] *)
Fixpoint startswith (p s : pystr) : bool :=
  match p, s with
  | [], _ => true
  | a :: p', b :: s' => if Ascii.eqb a b then startswith p' s' else false
  | _ :: _, [] => false
  end.

(** [needle in hay] *)
Fixpoint contains (needle hay : pystr) : bool :=
  startswith needle hay ||
  match hay with
  | [] => false
  | _ :: hay' => contains needle hay'
  end.

(** [s.split()]: the maximal runs of characters that are not white
    space. *)
Fixpoint split (s : pystr) : list pystr :=
  match s with
  | [] => []
  | c :: s' =>
      if Char.is_space c then split s'
      else match s' with
           | [] => [[c]]
           | c' :: _ =>
               if Char.is_space c' then [c] :: split s'
               else match split s' with
                    | w :: ws => (c :: w) :: ws
                    | [] => [[c]]
                    end
           end
  end.

(** [sep.join(parts)] *)
Fixpoint join (sep : pystr) (parts : list pystr) : pystr :=
  match parts with
  | [] => []
  | [p] => p
  | p :: ps => p ++ sep ++ join sep ps
  end.

(** [s.endswith(p)] *)
Definition endswith (p s : pystr) : bool := startswith (rev p) (rev s).

(** [int(s)] on a string of decimal digits: the value of the call where
    it returns.  The call raises on more digits than the interpreter
    allows; [int_raises] below says when. *)
Definition digit_val (c : ascii) : Z := Z.of_N (Char.code c) - 48.

Definition int (s : pystr) : Z :=
  fold_left (fun acc c => 10 * acc + digit_val c)%Z s 0%Z.

(** [s.strip() == ""] *)
Definition blank (s : pystr) : bool :=
  match strip s with [] => true | _ :: _ => false end.

End Str.

(** ** Regular expressions

    The fragment of [re] that the two patterns of the source use, with the
    semantics of a backtracking matcher: alternatives are tried in order,
    repetitions are greedy and give characters back one at a time, and
    [search] returns the match at the leftmost position that has one. *)

Module Re.

Inductive regex : Type :=
  | Chr (p : ascii -> bool)                        (* a character class *)
  | Lit (s : pystr)                                (* a literal string *)
  | Rep (p : ascii -> bool) (lo : nat) (hi : option nat)
                                                   (* class{lo,hi}, greedy *)
  | Seq (r1 r2 : regex)
  | Alt (r1 r2 : regex)
  | Group (i : nat) (r : regex).                   (* capturing group i *)

(** The groups of a match object. *)
Abbreviation groups := (gmap nat pystr).

(** [m.group(i)] *)
Definition group (m : groups) (i : nat) : pystr := default [] (m !! i).

Definition more (hi : option nat) : bool :=
  match hi with Some O => false | _ => true end.

Definition less (hi : option nat) : option nat := Nat.pred <$> hi.

(** Greedy repetition of a class: take a character if allowed and go on;
    when the rest then fails, stop here instead, provided [lo] characters
    have been taken. *)
Fixpoint rep {R} (p : ascii -> bool) (lo : nat) (hi : option nat)
    (s : pystr) (k : pystr -> option R) : option R :=
  let stop := match lo with O => k s | S _ => None end in
  match s with
  | c :: s' =>
      if p c && more hi then
        match rep p (Nat.pred lo) (less hi) s' k with
        | Some x => Some x
        | None => stop
        end
      else stop
  | [] => stop
  end.

(** Match [r] at the start of [s], then continue with [k] on the rest. *)
Fixpoint run {R} (r : regex) (s : pystr) (g : groups)
    (k : pystr -> groups -> option R) : option R :=
  match r with
  | Chr p =>
      match s with
      | c :: s' => if p c then k s' g else None
      | [] => None
      end
  | Lit l =>
      if Str.startswith l s then k (drop (length l) s) g else None
  | Rep p lo hi => rep p lo hi s (fun s' => k s' g)
  | Seq r1 r2 => run r1 s g (fun s1 g1 => run r2 s1 g1 k)
  | Alt r1 r2 =>
      match run r1 s g k with
      | Some x => Some x
      | None => run r2 s g k
      end
  | Group i r1 =>
      run r1 s g
        (fun s' g' => k s' (<[i := take (length s - length s') s]> g'))
  end.

(** [re.match(r, s)]: the groups of a match at the start of [s]. *)
Definition match_ (r : regex) (s : pystr) : option groups :=
  run r s ∅ (fun _ g => Some g).

(** [re.search(r, s)] *)
Fixpoint search (r : regex) (s : pystr) : option groups :=
  match match_ r s with
  | Some g => Some g
  | None =>
      match s with
      | [] => None
      | _ :: s' => search r s'
      end
  end.

(** [l1|l2|...] for literal alternatives. *)
Fixpoint alts (ls : list pystr) : regex :=
  match ls with
  | [] => Chr (fun _ => false)
  | [l] => Lit l
  | l :: ls' => Alt (Lit l) (alts ls')
  end.

End Re.

(** ** [textwrap.shorten]

    [shorten(text, width, placeholder=p)] builds
    [TextWrapper(width=width, max_lines=1, placeholder=p)] and fills the
    text after collapsing its white space.  [wrap_chunks] below is
    [TextWrapper._wrap_chunks] with the settings [shorten] leaves at their
    defaults substituted (no indents, [drop_whitespace],
    [break_long_words], [break_on_hyphens]) and [max_lines = 1].

    The splitting of the text into chunks is a regular expression of the
    library; it enters as an interface with the two facts about it that
    the wrapping relies on. *)

Class Chunker := {
  (** [TextWrapper._split_chunks]: words, runs of white space and
      hyphenated parts, none of them empty, that make up the text. *)
  split_chunks : pystr -> list pystr;
  split_chunks_concat : forall s, concat (split_chunks s) = s;
  split_chunks_nonempty : forall s, Forall (fun c => c <> []) (split_chunks s)
}.

(** The chunks when words are not split at hyphens
    ([wordsep_simple_re]): the maximal runs of white space and of other
    characters.  The white space of the library is TAB to CR and the
    space. *)
Definition is_wrap_space (c : ascii) : bool :=
  Char.between 9 13 c || (Char.code c =? 32)%N.

Fixpoint runs (s : pystr) : list pystr :=
  match s with
  | [] => []
  | c :: s' =>
      match runs s' with
      | (d :: w) :: ws =>
          if Bool.eqb (is_wrap_space c) (is_wrap_space d)
          then (c :: d :: w) :: ws
          else [c] :: (d :: w) :: ws
      | _ => [[c]]
      end
  end.

Module Textwrap.

Definition len_sum (cs : list pystr) : nat := list_sum (map (@length ascii) cs).

(** The inner [while chunks:] loop: move chunks to the current line while
    they fit.  The current line is kept last chunk first. *)
Fixpoint take_fitting (width : nat) (chunks cur_line : list pystr)
    (cur_len : nat) : list pystr * list pystr * nat :=
  match chunks with
  | c :: chunks' =>
      if cur_len + length c <=? width
      then take_fitting width chunks' (c :: cur_line) (cur_len + length c)
      else (chunks, cur_line, cur_len)
  | [] => (chunks, cur_line, cur_len)
  end.

(** [chunk.rfind('-', 0, stop)] *)
Fixpoint rfind_hyphen (chunk : pystr) (stop : nat) : option nat :=
  match stop, chunk with
  | S stop', c :: chunk' =>
      match rfind_hyphen chunk' stop' with
      | Some i => Some (S i)
      | None => if Ascii.eqb c "-" then Some 0 else None
      end
  | _, _ => None
  end.

(** [TextWrapper._handle_long_word] with [break_long_words] set: the next
    chunk is cut, after its last hyphen that fits if it has one, and the
    first part goes to the current line. *)
Definition handle_long_word (chunk : pystr) (cur_len width : nat)
  : pystr * pystr :=
  let space_left := if width <? 1 then 1 else width - cur_len in
  let end_ :=
    if space_left <? length chunk then
      match rfind_hyphen chunk space_left with
      | Some hyphen =>
          if (0 <? hyphen)
             && existsb (fun c => negb (Ascii.eqb c "-")) (take hyphen chunk)
          then hyphen + 1
          else space_left
      | None => space_left
      end
    else space_left in
  (take end_ chunk, drop end_ chunk).

(** The loop that ends a truncated last line: drop chunks from the end
    of the line until the placeholder fits after a chunk that is not white
    space; with no line before it, an empty line becomes the placeholder
    without its leading white space. *)
Fixpoint truncate_line (width : nat) (placeholder : pystr)
    (cur_line : list pystr) (cur_len : nat) (lines : list pystr)
  : list pystr :=
  match cur_line with
  | c :: cur_line' =>
      if negb (Str.blank c) && (cur_len + length placeholder <=? width)
      then lines ++ [concat (rev cur_line) ++ placeholder]
      else truncate_line width placeholder cur_line' (cur_len - length c) lines
  | [] =>
      match rev lines with
      | prev :: before =>
          let prev_line := Str.rstrip prev in
          if length prev_line + length placeholder <=? width
          then rev before ++ [prev_line ++ placeholder]
          else lines ++ [Str.lstrip placeholder]
      | [] => lines ++ [Str.lstrip placeholder]
      end
  end.

(** The step after the inner loop: a next chunk longer than the width
    fits on no line and is broken. *)
Definition break_long (width : nat) (st : list pystr * list pystr * nat)
  : list pystr * list pystr * nat :=
  let '(chunks, cur_line, cur_len) := st in
  match chunks with
  | c :: chunks' =>
      if width <? length c then
        let '(piece, remainder) := handle_long_word c cur_len width in
        (remainder :: chunks', piece :: cur_line, len_sum (piece :: cur_line))
      else st
  | [] => st
  end.

(** A white space chunk at the end of the line is dropped. *)
Definition drop_blank_end (cur_line : list pystr) (cur_len : nat)
  : list pystr * nat :=
  match cur_line with
  | c :: cur_line' =>
      if Str.blank c then (cur_line', cur_len - length c)
      else (cur_line, cur_len)
  | [] => (cur_line, cur_len)
  end.

(** [not chunks or len(chunks) == 1 and not chunks[0].strip()] *)
Definition nothing_left (chunks : list pystr) : bool :=
  match chunks with
  | [] => true
  | [c] => Str.blank c
  | _ => false
  end.

(** [TextWrapper._wrap_chunks] for [max_lines = 1].  [fuel] bounds the
    rounds of the outer [while chunks:] loop. *)
Fixpoint wrap_chunks (fuel : nat) (width : nat) (placeholder : pystr)
    (chunks lines : list pystr) : option (list pystr) :=
  match chunks with
  | [] => Some lines
  | first :: rest =>
      match fuel with
      | O => None
      | S fuel' =>
          (* a white space chunk does not start a line after the first *)
          let chunks :=
            match lines with
            | _ :: _ => if Str.blank first then rest else chunks
            | [] => chunks
            end in
          let '(chunks, cur_line, cur_len) :=
            break_long width (take_fitting width chunks [] 0) in
          let '(cur_line, cur_len) := drop_blank_end cur_line cur_len in
          match cur_line with
          | _ :: _ =>
              if nothing_left chunks && (cur_len <=? width)
              then wrap_chunks fuel' width placeholder chunks
                     (lines ++ [concat (rev cur_line)])
              else Some (truncate_line width placeholder cur_line cur_len lines)
          | [] => wrap_chunks fuel' width placeholder chunks lines
          end
      end
  end.

Section Shorten.
Context `{Chunker}.

(** [' '.join(text.strip().split())] *)
Definition collapse (text : pystr) : pystr :=
  Str.join (lit " ") (Str.split (Str.strip text)).

(** [TextWrapper.wrap] followed by ["\n".join]; every round of the loop
    uses up a character, so the length of the text bounds the rounds. *)
Definition fill (width : nat) (placeholder text : pystr) : pystr :=
  match wrap_chunks (S (length text)) width placeholder (split_chunks text) []
  with
  | Some lines => Str.join [ascii_of_N 10] lines
  | None => []
  end.

(** [textwrap.shorten(text, width=width, placeholder=placeholder)], for
    [0 < width] and a placeholder that fits the width (otherwise the
    library raises). *)
Definition shorten (text : pystr) (width : nat) (placeholder : pystr)
  : pystr :=
  fill width placeholder (collapse text).

End Shorten.

End Textwrap.

(** ** JSON-like values and templates *)

(** The values a prompt template holds.  [VFloat] carries the bit pattern
    of a binary64 number; no function of the pipeline looks inside it. *)
#[warnings="-register-all"]
Inductive value : Type :=
  | VNone
  | VBool (b : bool)
  | VInt (z : Z)
  | VFloat (bits : Z)
  | VStr (s : pystr)
  | VList (items : list value)
  | VDict (fields : gmap string value).

Abbreviation dict := (gmap string value).

Definition is_dict (v : value) : bool :=
  match v with VDict _ => true | _ => false end.

(** ** Field merge *)

(** The test that makes [merge_manual_fields] skip an override:
    [v is None or (isinstance(v, str) and v.strip() == "")]. *)
Definition skipped (v : value) : bool :=
  match v with
  | VNone => true
  | VStr s => Str.blank s
  | _ => false
  end.

(** [merge_manual_fields(base, manual)].  The loop over [manual.items()] is
    a fold over the entries of [manual], started from the copy
    [dict(base)]; the accumulator is the dictionary [merged].  The
    recursion is on the override value. *)
Fixpoint merge_value (base : dict) (manual : value) {struct manual}
  : dict :=
  match manual with
  | VDict items =>
      map_fold
        (fun k v merged =>
           if skipped v then merged
           else match v, merged !! k with
                | VDict _, Some (VDict cur) =>
                    <[k := VDict (merge_value cur v)]> merged
                | _, _ => <[k := v]> merged
                end)
        base items
  | _ => base
  end.

Definition merge_manual_fields (base manual : dict) : dict :=
  merge_value base (VDict manual).

(** What the merge leaves at one key, read off the source line by line. *)
Definition merged_at (base : dict) (k : string) (o : option value)
  : option value :=
  match o with
  | None => base !! k
  | Some v =>
      if skipped v then base !! k
      else match v, base !! k with
           | VDict vm, Some (VDict bm) =>
               Some (VDict (merge_manual_fields bm vm))
           | _, _ => Some v
           end
  end.

(** Follow a path of keys through nested dictionaries. *)
Fixpoint descend (path : list string) (m : dict) : option dict :=
  match path with
  | [] => Some m
  | k :: path' =>
      match m !! k with
      | Some (VDict m') => descend path' m'
      | _ => None
      end
  end.

(** ** Field merge on the object store

    Python dictionaries are objects: [dict(base)] makes a new object,
    [merged[k] = v] updates an object in place and stores a reference when
    [v] is a dictionary.  To speak about mutation the merge is modelled a
    second time over a store of dictionary objects, in a state and error
    monad. *)

Module Store.

Abbreviation loc := positive.

(** A value as a dictionary slot holds it: a dictionary is held by
    reference. *)
#[warnings="-register-all"]
Inductive hval : Type :=
  | HNone
  | HBool (b : bool)
  | HInt (z : Z)
  | HFloat (bits : Z)
  | HStr (s : pystr)
  | HList (items : list hval)
  | HRef (l : loc).

Abbreviation obj := (gmap string hval).
Abbreviation heap := (gmap loc (gmap string hval)).

(** Computations over the store; [None] is a run time error (a dangling
    reference) or exhausted recursion depth. *)
Definition M (A : Type) : Type := heap -> option (A * heap).

Definition ret {A} (a : A) : M A := fun h => Some (a, h).

Definition fail {A} : M A := fun _ => None.

Definition bind {A B} (m : M A) (f : A -> M B) : M B :=
  fun h => match m h with
           | Some (a, h') => f a h'
           | None => None
           end.

Notation "'let!' x ':=' m 'in' k" := (bind m (fun x => k))
  (at level 10, x pattern, m at level 100, k at level 200).

(** [dict(src)]: a new object with the entries of [src]. *)
Definition copy (src : loc) : M loc :=
  fun h => match h !! src with
           | Some d => let l := fresh (dom h) in Some (l, <[l := d]> h)
           | None => None
           end.

(** [list(d.items())] *)
Definition items (l : loc) : M (list (string * hval)) :=
  fun h => match h !! l with
           | Some d => Some (map_to_list d, h)
           | None => None
           end.

(** [d.get(k)] *)
Definition get (l : loc) (k : string) : M (option hval) :=
  fun h => match h !! l with
           | Some d => Some (d !! k, h)
           | None => None
           end.

(** [d[k] = v] *)
Definition setitem (l : loc) (k : string) (v : hval) : M unit :=
  fun h => match h !! l with
           | Some d => Some (tt, <[l := <[k := v]> d]> h)
           | None => None
           end.

Fixpoint for_each {A} (xs : list A) (body : A -> M unit) : M unit :=
  match xs with
  | [] => ret tt
  | x :: xs' => let! _ := body x in for_each xs' body
  end.

Definition skipped (v : hval) : bool :=
  match v with
  | HNone => true
  | HStr s => Str.blank s
  | _ => false
  end.

(** [merge_manual_fields(base, manual)] on references.  [manual] is not
    written during the loop, so its entries are read once.  [depth]
    bounds the nesting of recursive calls. *)
Fixpoint merge_manual_fields (depth : nat) (base manual : loc) : M loc :=
  match depth with
  | O => fail
  | S depth' =>
      let! merged := copy base in
      let! entries := items manual in
      let! _ :=
        for_each entries
          (fun '(k, v) =>
             if skipped v then ret tt
             else
               let! cur := get merged k in
               match v, cur with
               | HRef lv, Some (HRef lc) =>
                   let! r := merge_manual_fields depth' lc lv in
                   setitem merged k (HRef r)
               | _, _ => setitem merged k v
               end) in
      ret merged
  end.

(** No object holds a reference to a missing object. *)
Definition closed (h : heap) : Prop :=
  forall l d k l', h !! l = Some d -> d !! k = Some (HRef l') ->
                   is_Some (h !! l').

(** The dictionary at [l] nests dictionaries less than [n] deep. *)
Fixpoint bounded (n : nat) (h : heap) (l : loc) : Prop :=
  match n with
  | O => False
  | S n' =>
      exists d, h !! l = Some d
                /\ forall k l', d !! k = Some (HRef l') -> bounded n' h l'
  end.

(** The objects of [g] from a slot value on stand for a tree of values:
    scalars for themselves, a reference for the dictionary of what its
    object holds. *)
#[warnings="-register-all"]
Inductive repr (g : heap) : hval -> value -> Prop :=
  | repr_none : repr g HNone VNone
  | repr_bool b : repr g (HBool b) (VBool b)
  | repr_int z : repr g (HInt z) (VInt z)
  | repr_float f : repr g (HFloat f) (VFloat f)
  | repr_str s : repr g (HStr s) (VStr s)
  | repr_list vs ts :
      Forall2 (repr g) vs ts -> repr g (HList vs) (VList ts)
  | repr_ref l o d :
      g !! l = Some o ->
      (forall k, option_Forall2 (repr g) (o !! k) (d !! k)) ->
      repr g (HRef l) (VDict d).

(** Executable forms of [closed] and [bounded]. *)
Definition valid_ref (h : heap) (v : hval) : bool :=
  match v with
  | HRef l' => bool_decide (is_Some (h !! l'))
  | _ => true
  end.

Definition closedb (h : heap) : bool :=
  forallb (fun '(_, d) => forallb (fun '(_, v) => valid_ref h v)
                            (map_to_list d))
    (map_to_list h).

Fixpoint boundedb (n : nat) (h : heap) (l : loc) : bool :=
  match n with
  | O => false
  | S n' =>
      match h !! l with
      | Some d =>
          forallb (fun '(_, v) => match v with
                                  | HRef l' => boundedb n' h l'
                                  | _ => true
                                  end)
            (map_to_list d)
      | None => false
      end
  end.

End Store.

(** ** Template inference *)

(** [d.update({k1: v1, ...})] *)
Definition dict_update (d : dict) (kvs : list (string * value))
  : dict :=
  foldl (fun acc '(k, v) => <[k := v]> acc) d kvs.

(** [d[k].extend(items)] for a list held at [k]. *)
Definition list_extend (k : string) (items : list value) (d : dict)
  : dict :=
  match d !! k with
  | Some (VList l) => <[k := VList (l ++ items)]> d
  | _ => d
  end.

(** [any(w in s for w in ws)] *)
Definition any_in (ws : list string) (s : pystr) : bool :=
  existsb (fun w => Str.contains (lit w) s) ws.

(** [(\d+)\s*(s|sec|secs|seconds|second|m|min|minutes)] *)
Definition duration_units : list string :=
  ["s"; "sec"; "secs"; "seconds"; "second"; "m"; "min"; "minutes"]%string.

Definition duration_re : Re.regex :=
  Re.Seq (Re.Group 1 (Re.Rep Char.is_digit 1 None))
    (Re.Seq (Re.Rep Char.is_space 0 None)
       (Re.Group 2 (Re.alts (map lit duration_units)))).

(** The class [[x×]]; the multiplication sign is code point 215. *)
Definition is_times (c : ascii) : bool :=
  Ascii.eqb c "x" || (Char.code c =? 215)%N.

(** [(\d{3,4})\s*[x×]\s*(\d{3,4})] *)
Definition size_re : Re.regex :=
  Re.Seq (Re.Group 1 (Re.Rep Char.is_digit 3 (Some 4)))
    (Re.Seq (Re.Rep Char.is_space 0 None)
       (Re.Seq (Re.Chr is_times)
          (Re.Seq (Re.Rep Char.is_space 0 None)
             (Re.Group 2 (Re.Rep Char.is_digit 3 (Some 4)))))).

Definition vstr (s : string) : value := VStr (lit s).

Section Inference.
Context `{Chunker}.

(** The rules of the [veo3_video] branch, applied to the template that
    holds [meta]. *)
Definition video_rules (t lower : pystr) (template : dict) : dict :=
  let template :=
    dict_update template
      [("scene_description", VStr (Textwrap.shorten t 600 (lit "...")));
       ("camera_movement", vstr "static");
       ("lighting", vstr "natural");
       ("style", vstr "cinematic");
       ("duration", VInt 8);
       ("aspect_ratio", vstr "16:9");
       ("audio", VDict (<["music" := VBool false]>
                          {["narration" := VBool false]}))] in
  let template :=
    match Re.search duration_re lower with
    | Some m =>
        let val := Str.int (Re.group m 1) in
        if Str.startswith (lit "m") (Re.group m 2)
        then <["duration" := VInt (val * 60)]> template
        else <["duration" := VInt val]> template
    | None => template
    end in
  let template :=
    if Str.contains (lit "vertical") lower
       || Str.contains (lit "tiktok") lower
       || Str.contains (lit "9:16") lower
    then <["aspect_ratio" := vstr "9:16"]> template else template in
  let template :=
    if any_in ["pan"; "tilt"; "dolly"; "zoom"; "tracking"; "follow"]%string
         lower
    then <["camera_movement" := vstr "cinematic_tracking"]> template
    else template in
  let template :=
    if any_in ["golden hour"; "sunset"; "soft light"; "studio light";
               "dramatic"]%string lower
    then <["lighting" := vstr "dramatic"]> template else template in
  let template :=
    if any_in ["cinematic"; "film"; "8k"; "ultra realistic";
               "photorealistic"]%string lower
    then <["style" := vstr "cinematic_photorealistic"]> template
    else template in
  let template :=
    if any_in ["cartoon"; "2d"; "anime"; "cel-shaded"]%string lower
    then <["style" := vstr "cartoon"]> template else template in
  template.

(** The rules of the [image] branch.  The size pattern is searched in the
    text as given, not in its lower case form. *)
Definition image_rules (text t lower : pystr) (template : dict)
  : dict :=
  let template :=
    dict_update template
      [("prompt", VStr (Textwrap.shorten t 1000 (lit "...")));
       ("style", vstr "photorealistic");
       ("quality", vstr "high");
       ("size", vstr "1024x1024");
       ("negative_prompt",
        vstr "low-quality, blurry, deformed, text, watermark");
       ("composition", vstr "centered_subject")] in
  let template :=
    match Re.search size_re text with
    | Some m =>
        <["size" := VStr (Re.group m 1 ++ lit "x" ++ Re.group m 2)]> template
    | None => template
    end in
  let template :=
    if Str.contains (lit "cinematic") lower
    then <["composition" := vstr "wide"]>
           (<["style" := vstr "cinematic"]> template)
    else template in
  let template :=
    if Str.contains (lit "illustration") lower
       || Str.contains (lit "vector") lower
    then <["style" := vstr "illustration"]> template else template in
  template.

(** The rules of the [code] branch. *)
Definition code_rules (t lower : pystr) (template : dict) : dict :=
  let lang : option string :=
    if Str.contains (lit "python") lower || Str.contains (lit "py ") lower
    then Some "python"%string
    else if Str.contains (lit "javascript") lower
            || Str.contains (lit "js ") lower
    then Some "javascript"%string
    else if Str.contains (lit "r ") lower
            || Str.contains (lit "rstudio") lower
    then Some "r"%string
    else None in
  let template :=
    dict_update template
      [("task", VStr (Textwrap.shorten t 1000 (lit "...")));
       ("language", vstr (default "python"%string lang));
       ("requirements", VList []);
       ("constraints",
        VDict (<["no_external_network" := VBool false]>
                 (<["security" := vstr "avoid-shell-execution"]>
                    {["time_complexity" := VNone]})));
       ("output_format", vstr "file")] in
  let template :=
    if Str.contains (lit "scrape") lower
       || Str.contains (lit "scraping") lower
    then list_extend "requirements"
           [vstr "requests"; vstr "beautifulsoup4"] template
    else template in
  let template :=
    if Str.contains (lit "pandas") lower
       || Str.contains (lit "dataframe") lower
    then list_extend "requirements" [vstr "pandas"] template
    else template in
  let template :=
    if Str.contains (lit "notebook") lower
       || Str.contains (lit "jupyter") lower
    then <["output_format" := vstr "notebook"]> template else template in
  template.

(** [natural_to_template(tool, text)]: the template that the call
    returns; [utcnow] is what [datetime.utcnow().isoformat()] returns at
    the call.  The call raises where [int] does, which
    [natural_to_template_call] below adds. *)
Definition natural_to_template (utcnow : pystr) (tool : string)
    (text : pystr) : dict :=
  let t := Str.strip text in
  let lower := Str.lower t in
  let now := utcnow ++ lit "Z" in
  let template : dict :=
    {["meta" := VDict (<["created_at" := VStr now]>
                         {["source_text" := VStr text]})]} in
  if String.eqb tool "veo3_video" then video_rules t lower template
  else if String.eqb tool "image" then image_rules text t lower template
  else if String.eqb tool "code" then code_rules t lower template
  else
    dict_update template
      [("prompt", VStr t); ("style", vstr "neutral");
       ("quality", vstr "standard"); ("constraints", VList [])].

End Inference.

(** ** Validation report *)

Definition vobj (kvs : list (string * value)) : value :=
  VDict (list_to_map kvs).

Definition of_type (ty : string) : value := vobj [("type", vstr ty)].

(** The table [SCHEMAS]. *)
Definition SCHEMAS : gmap string value :=
  list_to_map
    [("veo3_video",
      vobj [("type", vstr "object");
            ("required", VList [vstr "scene_description"; vstr "duration";
                                vstr "aspect_ratio"; vstr "style"]);
            ("properties",
             vobj [("scene_description", of_type "string");
                   ("camera_movement", of_type "string");
                   ("lighting", of_type "string");
                   ("style", of_type "string");
                   ("duration", vobj [("type", vstr "number");
                                      ("minimum", VInt 0)]);
                   ("aspect_ratio", of_type "string");
                   ("audio",
                    vobj [("type", vstr "object");
                          ("properties",
                           vobj [("music", of_type "boolean");
                                 ("narration", of_type "boolean")]);
                          ("additionalProperties", VBool false)]);
                   ("meta", of_type "object")]);
            ("additionalProperties", VBool true)]);
     ("image",
      vobj [("type", vstr "object");
            ("required", VList [vstr "prompt"; vstr "size"; vstr "quality"]);
            ("properties",
             vobj [("prompt", of_type "string");
                   ("style", of_type "string");
                   ("quality", of_type "string");
                   ("size", vobj [("type", vstr "string");
                                  ("pattern", vstr "^\d{2,4}x\d{2,4}$")]);
                   ("negative_prompt", of_type "string");
                   ("composition", of_type "string");
                   ("meta", of_type "object")]);
            ("additionalProperties", VBool true)]);
     ("code",
      vobj [("type", vstr "object");
            ("required", VList [vstr "task"; vstr "language";
                                vstr "requirements"]);
            ("properties",
             vobj [("task", of_type "string");
                   ("language", of_type "string");
                   ("requirements", vobj [("type", vstr "array");
                                          ("items", of_type "string")]);
                   ("constraints", of_type "object");
                   ("output_format", of_type "string");
                   ("meta", of_type "object")]);
            ("additionalProperties", VBool true)]);
     ("other",
      vobj [("type", vstr "object");
            ("properties",
             vobj [("prompt", of_type "string");
                   ("style", of_type "string");
                   ("constraints",
                    vobj [("type", VList [vstr "array"; vstr "string"])]);
                   ("meta", of_type "object")]);
            ("additionalProperties", VBool true)])].

(** An error of the schema validator: its path, its message and the text
    [str(err)] that the report sorts by. *)
Record validation_error : Type := {
  err_path : list pystr;
  err_message : pystr;
  err_str : pystr
}.

(** What the guarded import of [jsonschema] leaves in the two module
    variables the report tests: [None] when the import failed.
    [Draft7Validator(schema).iter_errors(data)] is the function held. *)
Record jsonschema_import : Type := {
  validate : option (value -> value -> bool);
  Draft7Validator : option (value -> dict -> list validation_error)
}.

(** [s1 <= s2] on strings. *)
Fixpoint str_le (s1 s2 : pystr) : bool :=
  match s1, s2 with
  | [], _ => true
  | _ :: _, [] => false
  | a :: s1', b :: s2' =>
      if (Char.code a <? Char.code b)%N then true
      else if (Char.code b <? Char.code a)%N then false
      else str_le s1' s2'
  end.

(** [sorted(errs, key=str)]: a stable sort. *)
Fixpoint insert_error (e : validation_error) (sorted : list validation_error)
  : list validation_error :=
  match sorted with
  | [] => [e]
  | e' :: rest =>
      if str_le (err_str e) (err_str e') then e :: sorted
      else e' :: insert_error e rest
  end.

Definition sorted_errors (errs : list validation_error)
  : list validation_error :=
  foldr insert_error [] errs.

Definition unavailable_message : pystr :=
  lit "jsonschema package not available in runtime. Install 'jsonschema' to enable validation.".

(** [validate_schema(tool, data)] *)
Definition validate_schema (lib : jsonschema_import) (tool : string)
    (data : dict) : list pystr :=
  match validate lib, Draft7Validator lib with
  | Some _, Some validator =>
      let schema := default (default VNone (SCHEMAS !! "other"))
                      (SCHEMAS !! tool) in
      map (fun err =>
             let path :=
               match Str.join (lit ".") (err_path err) with
               | [] => lit "(root)"
               | p => p
               end in
             path ++ lit ": " ++ err_message err)
        (sorted_errors (validator schema data))
  | _, _ => [unavailable_message]
  end.

(** ** Calls that raise

    [int(s)] raises [ValueError] when [s] has more digits than
    [sys.get_int_max_str_digits()], which is 4300 unless the interpreter is
    told otherwise; leading zeros count.  [Str.int] is the value of the
    call when it returns. *)

Definition int_max_str_digits : nat := 4300.

Definition int_raises (s : pystr) : bool := int_max_str_digits <? length s.

Section InferenceCall.
Context `{Chunker}.

(** [natural_to_template(tool, text)] as a call: [None] when it raises.
    The one statement of the function that can raise is the conversion
    [int(m.group(1))] of the video branch, reached when the duration
    pattern is found; [natural_to_template] is the template that the call
    returns otherwise. *)
Definition natural_to_template_call (utcnow : pystr) (tool : string)
    (text : pystr) : option dict :=
  let lower := Str.lower (Str.strip text) in
  let raises :=
    String.eqb tool "veo3_video"
    && match Re.search duration_re lower with
       | Some m => int_raises (Re.group m 1)
       | None => false
       end in
  if raises then None else Some (natural_to_template utcnow tool text).

End InferenceCall.

(** ** The generation of a prompt

    The handler of the button (lines 308 to 345 of [app.py]) and the form
    of manual overrides it reads (lines 275 to 306). *)

(** What the widgets of the form return: the text inputs and select boxes
    and the check boxes by the field they fill, and the number input. *)
Record widgets : Type := {
  text_of : string -> pystr;
  number_of : Z;
  checked : string -> bool
}.

(** The dictionary [manual] that the form fills for a tool. *)
Definition manual_overrides (tool : string) (w : widgets) : dict :=
  let text k := (k, VStr (text_of w k)) in
  let check k := (k, VBool (checked w k)) in
  if String.eqb tool "veo3_video" then
    dict_update ∅
      [text "scene_description"; text "camera_movement"; text "lighting";
       text "style"; ("duration", VInt (number_of w)); text "aspect_ratio";
       ("audio", VDict (dict_update ∅ [check "music"; check "narration"]))]
  else if String.eqb tool "image" then
    dict_update ∅
      [text "prompt"; text "style"; text "quality"; text "size";
       text "negative_prompt"; text "composition"]
  else if String.eqb tool "code" then
    dict_update ∅
      [text "task"; text "language"; text "requirements";
       ("constraints",
        VDict (dict_update ∅ [check "no_external_network";
                              check "stdlib_only"]));
       text "output_format"]
  else
    dict_update ∅ [text "prompt"; text "style"; text "constraints"].

(** [merged.setdefault("meta", {})] and the two assignments into
    [merged["meta"]]; they raise when the value there is no mapping. *)
Definition stamp_meta (tool : string) (utcnow : pystr) (merged : dict)
  : option dict :=
  let merged :=
    match merged !! "meta" with
    | Some _ => merged
    | None => <["meta" := VDict ∅]> merged
    end in
  match merged !! "meta" with
  | Some (VDict meta) =>
      Some (<["meta" := VDict (<["generated_at" := VStr (utcnow ++ lit "Z")]>
                                 (<["tool_target" := vstr tool]> meta))]>
              merged)
  | _ => None
  end.

(** How a press of the button ends: with the request for a text, with an
    exception, or with the JSON stored as [latest_json] and its report. *)
Inductive outcome : Type :=
  | NoRequest
  | Raised
  | Generated (json : dict) (errors : list pystr).

Section Generation.
Context `{Chunker}.

(** The handler.  [enriched] is the value the variable of that name holds
    before the merges: the empty dictionary, or whatever JSON value the
    answer of the language model parsed to.  [created] and [generated] are
    the two readings of the clock.  An exception of the inference, of a
    merge or of the stamping ends the run; the validator is taken to
    return. *)
Definition generate (lib : jsonschema_import) (created generated : pystr)
    (tool : string) (user_text : pystr) (enriched : value) (manual : dict)
    (include_meta : bool) : outcome :=
  if Str.blank user_text then NoRequest
  else
    match natural_to_template_call created tool user_text with
    | None => Raised
    | Some base =>
        match enriched with
        | VDict enriched =>
            let merged := merge_manual_fields base enriched in
            let merged := merge_manual_fields merged manual in
            match (if include_meta then stamp_meta tool generated merged
                   else Some merged) with
            | Some merged =>
                Generated merged (validate_schema lib tool merged)
            | None => Raised
            end
        | _ => Raised
        end
    end.

End Generation.

(** ** The local summary of the podcast application

    [summarize_text_local] and [generate_summary] of [ai_podcast_app.py]. *)

(** [xs[:n]]: a negative [n] counts from the end. *)
Definition slice_to {A} (n : Z) (xs : list A) : list A :=
  if (n <? 0)%Z then take (Z.to_nat (Z.of_nat (length xs) + n)) xs
  else take (Z.to_nat n) xs.

(** [summarize_text_local(text, max_words)] *)
Definition summarize_text_local (text : pystr) (max_words : Z) : pystr :=
  let words := Str.split text in
  Str.join (lit " ") (slice_to max_words words)
  ++ (if (max_words <? Z.of_nat (length words))%Z then lit "..." else []).

(** [generate_summary(text, use_openai, api_key)].  [chat key text] is the
    content of the answer of the chat completion, [None] when the call or
    the reading of the answer raises; the key is [None] or a string. *)
Definition generate_summary (chat : pystr -> pystr -> option pystr)
    (text : pystr) (use_openai : bool) (api_key : option pystr) : pystr :=
  match (if use_openai then api_key else None) with
  | Some (c :: key) =>
      match chat (c :: key) text with
      | Some content => Str.strip content
      | None => summarize_text_local text 300
      end
  | _ => summarize_text_local text 300
  end.

(** ** Enrichment by a language model

    [openai_enrich] of [app.py], and the lines of the handler that set the
    variable [enriched] from it. *)

(** ["\n"] *)
Definition newline : pystr := [ascii_of_N 10].

(** [\{.*\}] with the flag [re.S]; group 0 is the whole match. *)
Definition brace_re : Re.regex :=
  Re.Group 0
    (Re.Seq (Re.Lit (lit "{"))
       (Re.Seq (Re.Rep (fun _ => true) 0 None) (Re.Lit (lit "}")))).

(** [openai.ChatCompletion.create] followed by the reading of the content
    of the first choice, as a function of the key, the model and the two
    messages: the content, or the text of the exception raised.  A content
    that is no string makes the parsing and the search raise, and so ends
    like an exception of the call. *)
Definition chat_completion : Type :=
  pystr -> pystr -> pystr -> pystr -> pystr + pystr.

Definition enrich_system : pystr :=
  lit "You are a JSON Prompt Expert. Extract and return a JSON object with keys appropriate for the requested tool. Only return valid JSON. Keys should match expected schema for the tool. If a field cannot be inferred, omit it.".

Definition enrich_user (tool : string) (prompt_text : pystr) : pystr :=
  let tool_hint := lit "tool: " ++ lit tool in
  tool_hint ++ newline ++ newline ++ lit "Description:" ++ newline
  ++ prompt_text ++ newline ++ newline ++ lit "Return only JSON.".

(** [openai_enrich(prompt_text, tool, openai_key, model)].  [openai] is the
    module variable of that name, [None] when the import failed; [loads] is
    [json.loads], which gives the value or the text of its exception. *)
Definition openai_enrich (openai : option chat_completion)
    (loads : pystr -> pystr + value) (prompt_text : pystr) (tool : string)
    (openai_key model : pystr) : dict :=
  match openai with
  | None => {["error" := vstr "OpenAI SDK not installed in environment."]}
  | Some create =>
      match openai_key with
      | [] => {["error" := vstr "No OpenAI API key provided."]}
      | _ :: _ =>
          match create openai_key model enrich_system
                  (enrich_user tool prompt_text) with
          | inl e => {["error" := VStr e]}
          | inr text =>
              match loads text with
              | inr j => {["ok" := j]}
              | inl _ =>
                  match Re.search brace_re text with
                  | Some m =>
                      match loads (Re.group m 0) with
                      | inr j => {["ok" := j]}
                      | inl e =>
                          {["error" :=
                              VStr (lit "Failed to parse JSON: " ++ e
                                    ++ lit ". Raw response: " ++ text)]}
                      end
                  | None =>
                      <["raw" := VStr text]>
                        {["error" := vstr "No JSON found in model response."]}
                  end
              end
          end
      end
  end.

(** The value of [enriched] when the merges start. *)
Definition enrichment (use_llm : bool) (openai : option chat_completion)
    (loads : pystr -> pystr + value) (user_text : pystr) (tool : string)
    (openai_key openai_model : pystr) : value :=
  if use_llm then
    match openai, openai_key with
    | None, _ => VDict ∅
    | Some _, [] => VDict ∅
    | Some _, _ :: _ =>
        let result :=
          openai_enrich openai loads user_text tool openai_key openai_model in
        match result !! "error" with
        | Some _ => VDict ∅
        | None => default (VDict ∅) (result !! "ok")
        end
    end
  else VDict ∅.

Section Handler.
Context `{Chunker}.

(** The handler of the button, with the enrichment it computes. *)
Definition generate_json_prompt (lib : jsonschema_import)
    (openai : option chat_completion) (loads : pystr -> pystr + value)
    (created generated : pystr) (tool : string) (user_text : pystr)
    (use_llm : bool) (openai_key openai_model : pystr) (manual : dict)
    (include_meta : bool) : outcome :=
  generate lib created generated tool user_text
    (enrichment use_llm openai loads user_text tool openai_key openai_model)
    manual include_meta.

End Handler.

(** ** The video of a YouTube address

    The choice of the video id in [extract_text_from_youtube] of
    [ai_podcast_app.py] (lines 57 to 62); the transcript is then asked of
    the service. *)

(** [s.split(sep)] for a separator that is not empty, reading [s] from the
    left: [skip] characters of a separator just found are still to be
    passed, and [cur] holds the piece read so far, last character first. *)
Fixpoint split_at (sep : pystr) (skip : nat) (cur s : pystr) : list pystr :=
  match s with
  | [] => [rev cur]
  | c :: s' =>
      match skip with
      | S n => split_at sep n cur s'
      | O =>
          if Str.startswith sep s
          then rev cur :: split_at sep (length sep - 1) [] s'
          else split_at sep 0 (c :: cur) s'
      end
  end.

Definition split_on (sep s : pystr) : list pystr := split_at sep 0 [] s.

(** The video id, or [None] where the source raises [ValueError]. *)
Definition video_id (url : pystr) : option pystr :=
  if Str.contains (lit "watch?v=") url then
    Some (default []
            (head (split_on (lit "&")
                     (default [] (last (split_on (lit "watch?v=") url))))))
  else if Str.contains (lit "youtu.be/") url then
    Some (default []
            (head (split_on (lit "?")
                     (default [] (last (split_on (lit "youtu.be/") url))))))
  else None.

(** ** Vocabulary of the statements *)

Abbreviation all_in p s := (Forall (fun c : ascii => p c = true) s).

(** [w] occurs in [s]. *)
Definition occurs (w s : pystr) : Prop := exists pre post, s = pre ++ w ++ post.


(** A repetition of the class [p] with upper bound [hi] that has taken
    [run] can take no more of [rest]: the next character is outside the
    class, or the bound is reached, or the text ends. *)
Definition stops (p : ascii -> bool) (hi : option nat) (run rest : pystr)
  : Prop :=
  match rest with
  | c :: _ => p c = false \/ hi = Some (length run)
  | [] => True
  end.

(** A word: not empty, no white space. *)
Definition word (w : pystr) : Prop :=
  w <> [] /\ Forall (fun c => Char.is_space c = false) w.

(** A text made of words with one space between them: no white space at
    either end, none but the space, and no two spaces in a row. *)
Definition single_spaced (text : pystr) : Prop :=
  exists ws, Forall word ws /\ text = Str.join (lit " ") ws.

(** [s] starts with a duration: digits, optional white space, a unit. *)
Definition duration_at (s : pystr) : Prop :=
  exists ds ws u rest,
    s = ds ++ ws ++ lit u ++ rest
    /\ ds <> [] /\ all_in Char.is_digit ds /\ all_in Char.is_space ws
    /\ In u duration_units.

(** [s] starts with a size: three or four digits, a separator with
    optional white space around it, three or four digits. *)
Definition size_at (s : pystr) : Prop :=
  exists d1 ws1 sep ws2 d2 rest,
    s = d1 ++ ws1 ++ sep :: ws2 ++ d2 ++ rest
    /\ all_in Char.is_digit d1 /\ 3 <= length d1 <= 4
    /\ all_in Char.is_space ws1 /\ is_times sep = true
    /\ all_in Char.is_space ws2
    /\ all_in Char.is_digit d2 /\ 3 <= length d2 <= 4.

Abbreviation no_space s := (Forall (fun c : ascii => Char.is_space c = false) s).

(** Every unit starts with [s] or [m], and those two come first among
    their alternatives: the second group is always one letter. *)
Definition unit_letter (s : pystr) : option pystr :=
  match s with
  | c :: _ =>
      if Ascii.eqb c "s" then Some (lit "s")
      else if Ascii.eqb c "m" then Some (lit "m")
      else None
  | [] => None
  end.

(** Checks that decide, on a given text, that no duration (no size)
    starts at a position below [n]. *)
Definition unmatched (r : Re.regex) (s : pystr) (n : nat) : bool :=
  forallb (fun i => match Re.match_ r (drop i s) with
                    | None => true
                    | Some _ => false
                    end) (seq 0 n).

(** The override that the handled entries have given for key [k]. *)
Definition seen (done : list (string * Store.hval)) (tm : dict) (k : string)
  : option value :=
  if decide (k ∈ done.*1) then tm !! k else None.

(** The value at the end of a path of keys through nested dictionaries. *)
Fixpoint at_path (path : list string) (m : dict) : option value :=
  match path with
  | [] => None
  | [k] => m !! k
  | k :: path' =>
      match m !! k with
      | Some (VDict m') => at_path path' m'
      | _ => None
      end
  end.

(** How deep dictionaries nest in a value. *)
Fixpoint vdepth (v : value) : nat :=
  match v with
  | VDict m => S (map_fold (fun _ x acc => Nat.max (vdepth x) acc) 0 m)
  | _ => 0
  end.

(** The shape the image schema asks of a size, [^\d{2,4}x\d{2,4}$], as met
    by the inference: two groups of three or four digits around an [x]. *)
Definition size_text (s : pystr) : Prop :=
  exists d1 d2,
    s = d1 ++ lit "x" ++ d2
    /\ all_in Char.is_digit d1 /\ 3 <= length d1 <= 4
    /\ all_in Char.is_digit d2 /\ 3 <= length d2 <= 4.

(** The field names a schema lists under [required]. *)
Definition required (schema : value) : list string :=
  match schema with
  | VDict fields =>
      match fields !! "required" with
      | Some (VList names) =>
          omap (fun v => match v with
                         | VStr s => Some (string_of_list_ascii s)
                         | _ => None
                         end) names
      | _ => []
      end
  | _ => []
  end.

(** The schema that [validate_schema] picks for a tool. *)
Definition schema_of (tool : string) : value :=
  default (default VNone (SCHEMAS !! "other")) (SCHEMAS !! tool).

(** Two templates agree outside the keys [X]. *)
Definition agree (X : list string) (d1 d2 : dict) : Prop :=
  forall k, ~ In k X -> d1 !! k = d2 !! k.

(** A line of the report: the path of the error, or [(root)], then the
    message. *)
Definition report_line (err : validation_error) : pystr :=
  match Str.join (lit ".") (err_path err) with
  | [] => lit "(root)"
  | p => p
  end ++ lit ": " ++ err_message err.

(** The order of the report: by the text of the error. *)
Definition by_text (e1 e2 : validation_error) : Prop :=
  str_le (err_str e1) (err_str e2) = true.

(** The errors with a given text. *)
Definition with_text (s : pystr) (errs : list validation_error)
  : list validation_error :=
  filter (fun e => err_str e = s) errs.

(** What the merged object [o] holds at key [k], given the object [ob] of
    the current mapping, the override [ov] at [k] and the store [h] before
    the call: the very entry of the current mapping when the override is
    absent or skipped; a new object when both sides are mappings; and the
    override itself otherwise, which for a mapping is the object of the
    override. *)
Definition shares (h : Store.heap) (ob o : Store.obj) (k : string)
    (ov : option Store.hval) : Prop :=
  match ov with
  | None => o !! k = ob !! k
  | Some v =>
      if Store.skipped v then o !! k = ob !! k
      else
        match v, ob !! k with
        | Store.HRef _, Some (Store.HRef _) =>
            exists r, o !! k = Some (Store.HRef r) /\ h !! r = None
        | _, _ => o !! k = Some v
        end
  end.

(** The overrides at [k] among the entries handled so far. *)
Definition handled (done : list (string * Store.hval)) (om : Store.obj)
    (k : string) : option Store.hval :=
  if decide (k ∈ done.*1) then om !! k else None.

(** No character of [s] is [c]. *)
Definition without (c : ascii) (s : pystr) : Prop :=
  Forall (fun a => a <> c) s.

(** ** Examples *)

Module MergeExamples.

(** [{"music": False, "narration": False}] *)
Definition audio_off : dict :=
  <["music" := VBool false]> {["narration" := VBool false]}.

(** [{"music": True}] *)
Definition music_on : dict := {["music" := VBool true]}.

(** [{"music": True, "narration": False}] *)
Definition audio_music : dict :=
  <["music" := VBool true]> {["narration" := VBool false]}.

Definition base : dict := {["audio" := VDict audio_off]}.
Definition manual : dict := {["audio" := VDict music_on]}.
Definition enrichment : dict := ∅.

(** A template as the video rules produce it, cut down to three fields. *)
Definition video : dict :=
  <["style" := VStr (lit "cinematic")]>
    (<["duration" := VInt 8]> {["audio" := VDict audio_off]}).

End MergeExamples.

Module StoreExamples.
Import Store.

(** Four objects: the template [{"audio": {"music": False, "narration":
    False}}] at 1 (its nested mapping at 2) and the overrides
    [{"audio": {"music": True}}] at 3 (nested mapping at 4). *)
Definition heap0 : heap :=
  <[1%positive := {["audio" := HRef 2%positive]}]>
    (<[2%positive :=
         <["music" := HBool false]> {["narration" := HBool false]}]>
       (<[3%positive := {["audio" := HRef 4%positive]}]>
          {[4%positive := {["music" := HBool true]}]})).

End StoreExamples.

Module GenerationExamples.

(** The import of [jsonschema] failed. *)
Definition no_validator : jsonschema_import :=
  {| validate := None; Draft7Validator := None |}.

(** A validator that reports a missing prompt at the root. *)
Definition prompt_validator : jsonschema_import :=
  {| validate := Some (fun _ _ => true);
     Draft7Validator :=
       Some (fun _ data =>
               match data !! "prompt" with
               | Some _ => []
               | None => [{| err_path := [];
                             err_message := lit "'prompt' is a required property";
                             err_str := lit "'prompt' is a required property" |}]
               end) |}.

(** A state of the form: every text empty, the number 8, no box checked.
    The video form is so before any input; the other forms are so once
    their texts are cleared. *)
Definition untouched : widgets :=
  {| text_of := fun _ => []; number_of := 8; checked := fun _ => false |}.

Definition created : pystr := lit "2025-01-01T00:00:00".
Definition generated : pystr := lit "2025-01-01T00:00:05".

End GenerationExamples.

Module SharingExamples.

(** The store of [StoreExamples.heap0] with a second entry in the template
    at 1, [{"meta": {}}] (its mapping at 5), and a second override at 3,
    [{"extra": {}}] (its mapping at 6). *)
Definition heap1 : Store.heap :=
  <[1%positive := <["meta" := Store.HRef 5%positive]>
                    {["audio" := Store.HRef 2%positive]}]>
    (<[2%positive :=
         <["music" := Store.HBool false]> {["narration" := Store.HBool false]}]>
       (<[3%positive := <["extra" := Store.HRef 6%positive]>
                          {["audio" := Store.HRef 4%positive]}]>
          (<[4%positive := {["music" := Store.HBool true]}]>
             (<[5%positive := ∅]> {[6%positive := ∅]})))).

End SharingExamples.

Module EnrichmentExamples.

(** A model that wraps its object in prose. *)
Definition chatty : chat_completion :=
  fun _ _ _ _ => inr (lit "Here you go: {} Enjoy!").

(** A model that answers with a list. *)
Definition lister : chat_completion := fun _ _ _ _ => inr (lit "[]").

(** A parser that knows the two texts [{}] and [[]]. *)
Definition loads (s : pystr) : pystr + value :=
  if bool_decide (s = lit "{}") then inr (VDict ∅)
  else if bool_decide (s = lit "[]") then inr (VList [])
  else inl (lit "Expecting value: line 1 column 1 (char 0)").

End EnrichmentExamples.

(** * Properties *)

(** ** Properties of strings *)

Section StrFacts.

Lemma lstrip_blank s : Forall (fun c => Char.is_space c = true) s ->
  Str.lstrip s = [].
Proof.
  induction 1 as [|c s Hc _ IH]; simpl; [reflexivity|].
  now rewrite Hc.
Qed.

Lemma lstrip_nil_inv s : Str.lstrip s = [] ->
  Forall (fun c => Char.is_space c = true) s.
Proof.
  induction s as [|c s IH]; simpl; intros H; [constructor|].
  destruct (Char.is_space c) eqn:Hc; [|discriminate].
  constructor; auto.
Qed.

Lemma strip_nil_iff s :
  Str.strip s = [] <-> Forall (fun c => Char.is_space c = true) s.
Proof.
  unfold Str.strip, Str.rstrip. split.
  - intros H.
    assert (Hl : Str.lstrip (rev (Str.lstrip s)) = []).
    { apply (f_equal (@rev ascii)) in H. now rewrite rev_involutive in H. }
    apply lstrip_nil_inv in Hl.
    destruct (Str.lstrip s) as [|c r] eqn:E.
    + now apply lstrip_nil_inv.
    + exfalso. clear H.
      assert (Hc : Char.is_space c = true).
      { rewrite Forall_forall in Hl. apply Hl, list_elem_of_In, in_rev.
        rewrite rev_involutive. now left. }
      clear Hl. induction s as [|d s IH]; simpl in E; [discriminate|].
      destruct (Char.is_space d) eqn:Hd; [auto|].
      inversion E; subst. congruence.
  - intros H. now rewrite (lstrip_blank _ H).
Qed.

Lemma blank_true_iff s :
  Str.blank s = true <-> Forall (fun c => Char.is_space c = true) s.
Proof.
  rewrite <- strip_nil_iff. unfold Str.blank.
  destruct (Str.strip s); split; intros; congruence.
Qed.

Lemma startswith_spec p s :
  Str.startswith p s = true <-> exists rest, s = p ++ rest.
Proof.
  revert s. induction p as [|a p IH]; intros s; simpl.
  - split; [eauto | reflexivity].
  - destruct s as [|b s].
    + split; [discriminate | intros [rest [=]]].
    + destruct (Ascii.eqb_spec a b) as [->|Hne].
      * rewrite IH. split; intros [rest Hr].
        -- exists rest. now rewrite Hr.
        -- exists rest. now inversion Hr.
      * split; [discriminate|]. intros [rest Hr]. inversion Hr. congruence.
Qed.

Lemma startswith_app p rest : Str.startswith p (p ++ rest) = true.
Proof. apply startswith_spec. eauto. Qed.

Lemma contains_spec w s : Str.contains w s = true <-> occurs w s.
Proof.
  induction s as [|c s IH]; simpl.
  - rewrite orb_false_r, startswith_spec. split.
    + intros [rest Hr]. exists [], rest. exact Hr.
    + intros (pre & post & Hs). symmetry in Hs.
      apply app_eq_nil in Hs as [-> Hs]. apply app_eq_nil in Hs as [-> ->].
      now exists [].
  - rewrite orb_true_iff, IH, startswith_spec. split.
    + intros [[rest Hr]|(pre & post & Hs)].
      * exists [], rest. exact Hr.
      * exists (c :: pre), post. now rewrite Hs.
    + intros ([|d pre] & post & Hs).
      * left. exists post. exact Hs.
      * right. inversion Hs. now exists pre, post.
Qed.



Lemma space_not_digit c : Char.is_space c = true -> Char.is_digit c = false.
Proof. destruct c as [[] [] [] [] [] [] [] []]; vm_compute; congruence. Qed.





End StrFacts.

(** ** Properties of [textwrap.shorten] *)

Module TextwrapFacts.
Import Textwrap.

Lemma blank_cons a s : Char.is_space a = false -> Str.blank (a :: s) = false.
Proof.
  intros Ha. destruct (Str.blank (a :: s)) eqn:E; [|reflexivity].
  apply blank_true_iff in E. inversion E; subst. congruence.
Qed.

Lemma blank_snoc s b : Char.is_space b = false -> Str.blank (s ++ [b]) = false.
Proof.
  intros Hb. destruct (Str.blank (s ++ [b])) eqn:E; [|reflexivity].
  apply blank_true_iff in E. apply Forall_app in E as [_ E].
  inversion E; subst. congruence.
Qed.

(** The words of [split] are not empty and have no white space. *)
Lemma split_words s :
  Forall word (Str.split s).
Proof.
  induction s as [|c s IH]; simpl; [constructor|].
  destruct (Char.is_space c) eqn:Hc; [exact IH|].
  destruct s as [|c' s'].
  - repeat constructor; [discriminate | assumption].
  - destruct (Char.is_space c') eqn:Hc'.
    + constructor; [|exact IH]. split; [discriminate|]. now repeat constructor.
    + destruct (Str.split (c' :: s')) as [|w ws].
      * repeat constructor; [discriminate | assumption].
      * inversion IH as [|? ? [Hw Hn] Hws]; subst.
        constructor; [|exact Hws]. split; [discriminate|]. now constructor.
Qed.

(** Joined words start and end with a character that is not white
    space. *)
Lemma join_words_head sep ws :
  Forall word ws -> ws <> [] ->
  exists a tl, Str.join sep ws = a :: tl /\ Char.is_space a = false.
Proof.
  intros Hws Hne. destruct ws as [|w ws]; [contradiction|].
  inversion Hws as [|? ? [Hw Hn] _]; subst.
  destruct w as [|a w]; [contradiction|]. inversion Hn; subst.
  destruct ws; simpl; eauto.
Qed.

Lemma join_words_last sep ws :
  Forall word ws -> ws <> [] ->
  exists init b, Str.join sep ws = init ++ [b] /\ Char.is_space b = false.
Proof.
  induction 1 as [|w ws [Hw Hn] Hws IH]; intros Hne; [contradiction|].
  destruct ws as [|w' ws].
  - simpl. destruct (exists_last Hw) as (init & b & ->).
    apply Forall_app in Hn as [_ Hb]. inversion Hb; subst. eauto.
  - destruct IH as (init & b & E & Hb); [discriminate|].
    exists (w ++ sep ++ init), b. split; [|exact Hb].
    change (Str.join sep (w :: w' :: ws))
      with (w ++ sep ++ Str.join sep (w' :: ws)).
    rewrite E. now rewrite <- !app_assoc.
Qed.

(** The collapsed text is empty or starts and ends outside white
    space. *)
Lemma collapse_ends `{Chunker} text :
  collapse text = []
  \/ (exists a tl, collapse text = a :: tl /\ Char.is_space a = false)
     /\ (exists init b, collapse text = init ++ [b]
                        /\ Char.is_space b = false).
Proof.
  unfold collapse.
  pose proof (split_words (Str.strip text)) as Hws.
  destruct (Str.split (Str.strip text)) as [|w ws] eqn:E; [now left|].
  right. split.
  - now apply join_words_head.
  - now apply join_words_last.
Qed.

Lemma len_sum_app cs ds : len_sum (cs ++ ds) = len_sum cs + len_sum ds.
Proof. unfold len_sum. now rewrite map_app, list_sum_app. Qed.

Lemma len_sum_rev cs : len_sum (rev cs) = len_sum cs.
Proof.
  induction cs as [|c cs IH]; [reflexivity|].
  simpl. rewrite len_sum_app, IH. unfold len_sum. simpl. lia.
Qed.

Lemma length_concat_sum (cs : list pystr) : length (concat cs) = len_sum cs.
Proof.
  induction cs as [|c cs IH]; [reflexivity|].
  simpl. rewrite length_app, IH. reflexivity.
Qed.

(** What the inner loop does: it moves a prefix of the chunks to the
    line, and the next chunk, if any, does not fit. *)
Lemma take_fitting_spec width chunks cur cur_len chunks' cur' cur_len' :
  take_fitting width chunks cur cur_len = (chunks', cur', cur_len') ->
  exists taken,
    chunks = taken ++ chunks'
    /\ cur' = rev taken ++ cur
    /\ cur_len' = cur_len + len_sum taken
    /\ match chunks' with
       | c :: _ => width < cur_len' + length c
       | [] => True
       end.
Proof.
  revert cur cur_len. induction chunks as [|c chunks IH]; intros cur cur_len.
  - simpl. intros [= <- <- <-]. exists []. simpl. repeat split.
    unfold len_sum. simpl. lia.
  - simpl. destruct (Nat.leb_spec (cur_len + length c) width) as [Hfit|Hno].
    + intros E. destruct (IH _ _ E) as (taken & -> & -> & -> & Hnext).
      exists (c :: taken). simpl. rewrite <- app_assoc. simpl.
      repeat split.
      * unfold len_sum. simpl. fold (len_sum taken). lia.
      * destruct chunks'; [exact I|].
        unfold len_sum in *. simpl. lia.
    + intros [= <- <- <-]. exists []. simpl.
      repeat split; unfold len_sum; simpl; lia.
Qed.

Lemma take_fitting_all width chunks cur cur_len :
  cur_len + len_sum chunks <= width ->
  take_fitting width chunks cur cur_len
  = ([], rev chunks ++ cur, cur_len + len_sum chunks).
Proof.
  revert cur cur_len. induction chunks as [|c chunks IH]; intros cur cur_len.
  - intros _. simpl. f_equal. unfold len_sum. simpl. lia.
  - unfold len_sum. simpl. fold (len_sum chunks). intros Hfit.
    destruct (Nat.leb_spec (cur_len + length c) width) as [_|Hno]; [|lia].
    rewrite IH by lia. rewrite <- app_assoc. simpl. f_equal. lia.
Qed.

Lemma rfind_hyphen_lt chunk stop i :
  rfind_hyphen chunk stop = Some i -> i < stop.
Proof.
  revert chunk i.
  induction stop as [|stop IH]; intros [|c chunk] i; simpl;
    try discriminate.
  destruct (rfind_hyphen chunk stop) as [j|] eqn:E.
  - intros [= <-]. apply IH in E. lia.
  - destruct (Ascii.eqb c "-"); [|discriminate]. intros [= <-]. lia.
Qed.

(** Breaking a chunk that is longer than the width: the two parts make
    up the chunk, the second is not empty, and the first is not empty when
    the line has room. *)
Lemma handle_long_word_spec chunk cur_len width piece remainder :
  handle_long_word chunk cur_len width = (piece, remainder) ->
  0 < width -> width < length chunk ->
  chunk = piece ++ remainder
  /\ remainder <> []
  /\ (cur_len < width -> piece <> []).
Proof.
  unfold handle_long_word. intros E Hw Hlong.
  destruct (Nat.ltb_spec width 1) as [?|_]; [lia|].
  set (space_left := width - cur_len) in *.
  match type of E with (take ?e _, _) = _ => set (end_ := e) in * end.
  assert (Hend : end_ <= space_left /\ (0 < space_left -> 0 < end_)).
  { subst end_. destruct (space_left <? length chunk); [|lia].
    destruct (rfind_hyphen chunk space_left) as [hy|] eqn:Eh; [|lia].
    apply rfind_hyphen_lt in Eh.
    destruct (_ && _); lia. }
  injection E as <- <-. split; [now rewrite take_drop|]. split.
  - intros Hnil. apply (f_equal (@length ascii)) in Hnil.
    rewrite length_drop in Hnil. simpl in Hnil. subst space_left. lia.
  - intros Hroom Hnil. apply (f_equal (@length ascii)) in Hnil.
    rewrite length_take in Hnil. simpl in Hnil. subst space_left. lia.
Qed.

(** The line that truncation leaves: chunks kept from the start of the
    line followed by the placeholder, within the width; or the
    placeholder alone. *)
Lemma truncate_line_spec width placeholder cur_line cur_len :
  cur_len = len_sum cur_line ->
  exists line,
    truncate_line width placeholder cur_line cur_len [] = [line]
    /\ (line = Str.lstrip placeholder
        \/ exists dropped kept,
             cur_line = dropped ++ kept
             /\ line = concat (rev kept) ++ placeholder
             /\ length line <= width).
Proof.
  revert cur_len. induction cur_line as [|c cur IH]; intros cur_len Hlen.
  - simpl. eauto.
  - simpl.
    destruct (negb (Str.blank c)); simpl.
    + destruct (Nat.leb_spec (cur_len + length placeholder) width) as [Hfit|_].
      * eexists. split; [reflexivity|]. right.
        exists [], (c :: cur). repeat split.
        rewrite length_app, length_concat_sum, len_sum_app, len_sum_rev.
        subst cur_len. unfold len_sum in *. simpl in *. lia.
      * destruct (IH (cur_len - length c)) as (line & E & Hline).
        { subst. unfold len_sum. simpl. lia. }
        exists line. split; [exact E|].
        destruct Hline as [?|(dropped & kept & -> & ? & ?)]; [now left|].
        right. exists (c :: dropped), kept. now repeat split.
    + destruct (IH (cur_len - length c)) as (line & E & Hline).
      { subst. unfold len_sum. simpl. lia. }
      exists line. split; [exact E|].
      destruct Hline as [?|(dropped & kept & -> & ? & ?)]; [now left|].
      right. exists (c :: dropped), kept. now repeat split.
Qed.

Lemma take_fitting_le width chunks cur cur_len chunks' cur' cur_len' :
  take_fitting width chunks cur cur_len = (chunks', cur', cur_len') ->
  cur_len <= width -> cur_len' <= width.
Proof.
  revert cur cur_len. induction chunks as [|c chunks IH]; intros cur cur_len.
  - cbn. now intros [= <- <- <-].
  - cbn. destruct (Nat.leb_spec (cur_len + length c) width) as [Hfit|Hno].
    + intros E _. eapply IH; eassumption.
    + now intros [= <- <- <-].
Qed.

Section Fill.
Context `{Chunker}.

#[local] Arguments take_fitting : simpl never.

Lemma wrap_chunks_nil fuel width placeholder lines :
  wrap_chunks fuel width placeholder [] lines = Some lines.
Proof. now destruct fuel. Qed.

(** A chunk at the end of a text that ends outside white space is not
    blank. *)
Lemma last_chunk_solid (pre c init : pystr) b :
  pre ++ c = init ++ [b] -> c <> [] -> Char.is_space b = false ->
  Str.blank c = false.
Proof.
  intros E Hc Hb. destruct (exists_last Hc) as (c' & x & ->).
  rewrite app_assoc in E. apply app_inj_tail in E as [_ ->].
  now apply blank_snoc.
Qed.

(** A text that fits the width is returned whole. *)
Lemma fill_fits width placeholder text :
  (text = [] \/ exists init b, text = init ++ [b] /\ Char.is_space b = false) ->
  length text <= width ->
  fill width placeholder text = text.
Proof.
  intros Hend Hfit. unfold fill.
  pose proof (split_chunks_concat text) as Hcat.
  pose proof (split_chunks_nonempty text) as Hne.
  destruct (split_chunks text) as [|first rest] eqn:E.
  - simpl in *. now subst.
  - destruct Hend as [->|(init & b & Einit & Hb)].
    { simpl in Hcat. apply app_eq_nil in Hcat as [-> _].
      now inversion Hne. }
    assert (Hsum : len_sum (first :: rest) = length text).
    { now rewrite <- length_concat_sum, Hcat. }
    destruct (exists_last (l := first :: rest)) as (cs & lastc & Ecs);
      [discriminate|].
    assert (Hlast : Str.blank lastc = false).
    { apply (last_chunk_solid (concat cs) lastc init b); [| |exact Hb].
      - rewrite <- Einit, <- Hcat, Ecs, concat_app. simpl.
        now rewrite app_nil_r.
      - rewrite Ecs in Hne. apply Forall_app in Hne as [_ Hl].
        now inversion Hl. }
    cbn [wrap_chunks].
    rewrite take_fitting_all by (simpl; lia).
    rewrite app_nil_r, Ecs, rev_app_distr. cbn [rev app break_long].
    unfold drop_blank_end. rewrite Hlast. cbn [nothing_left andb].
    rewrite <- Ecs, Hsum.
    destruct (Nat.leb_spec (0 + length text) width) as [_|?]; [|lia].
    rewrite wrap_chunks_nil. cbn [app Str.join rev].
    now rewrite rev_involutive, <- Ecs.
Qed.

(** Breaking leaves a first chunk that is not empty and the end of the
    chunk it was; the line grows by the start of that chunk, or not at
    all. *)
Lemma break_long_spec width c chunks cur cur_len chunks3 cur3 len3 :
  break_long width (c :: chunks, cur, cur_len) = (chunks3, cur3, len3) ->
  0 < width -> c <> [] -> cur_len = len_sum cur ->
  exists piece c3,
    c = piece ++ c3 /\ c3 <> [] /\ chunks3 = c3 :: chunks
    /\ len3 = len_sum cur3
    /\ ((piece = [] /\ cur3 = cur /\ length c <= width)
        \/ (cur3 = piece :: cur /\ width < length c
            /\ (cur_len < width -> piece <> []))).
Proof.
  intros E Hw Hc Hlen. unfold break_long in E.
  destruct (Nat.ltb_spec width (length c)) as [Hlong|Hshort].
  - destruct (handle_long_word c cur_len width) as [piece remainder] eqn:Eh.
    injection E as <- <- <-.
    destruct (handle_long_word_spec _ _ _ _ _ Eh Hw Hlong) as (Ec & Hr & Hp).
    exists piece, remainder. repeat split; try assumption.
    right. repeat split; assumption.
  - injection E as <- <- <-. exists [], c. repeat split; try assumption.
    left. now repeat split.
Qed.

Lemma drop_blank_end_spec cur cur_len cur' cur_len' x below :
  drop_blank_end cur cur_len = (cur', cur_len') ->
  cur_len = len_sum cur ->
  cur = below ++ [x] -> Str.blank x = false ->
  cur' <> [] /\ cur_len' = len_sum cur'
  /\ exists dropped, cur = dropped ++ cur'.
Proof.
  unfold drop_blank_end. intros E Hlen Ecur Hx.
  destruct cur as [|c cur0]; [now destruct below|].
  destruct (Str.blank c) eqn:Hc.
  - injection E as <- <-.
    destruct below as [|c' below'].
    + simpl in Ecur. injection Ecur as -> ->. congruence.
    + simpl in Ecur. injection Ecur as -> ->. repeat split.
      * now destruct below'.
      * subst cur_len. unfold len_sum. simpl. lia.
      * now exists [c'].
  - injection E as <- <-. repeat split; [discriminate | assumption|].
    now exists [].
Qed.

(** A text longer than the width, which starts and ends outside white
    space, is cut to a start of the text followed by the placeholder, all
    within the width; or to the placeholder alone. *)
Lemma fill_truncates width placeholder text :
  (exists a tl, text = a :: tl /\ Char.is_space a = false) ->
  (exists init b, text = init ++ [b] /\ Char.is_space b = false) ->
  0 < width -> width < length text ->
  fill width placeholder text = Str.lstrip placeholder
  \/ exists kept rest,
       text = kept ++ rest
       /\ fill width placeholder text = kept ++ placeholder
       /\ length (kept ++ placeholder) <= width.
Proof.
  intros (a & tl & Ea & Ha) (init & b & Eb & Hb) Hw Hlong. unfold fill.
  pose proof (split_chunks_concat text) as Hcat.
  pose proof (split_chunks_nonempty text) as Hne.
  destruct (split_chunks text) as [|first rest] eqn:E.
  { simpl in Hcat. congruence. }
  assert (Hfirst : exists f', first = a :: f').
  { inversion Hne as [|? ? Hf _].
    destruct first as [|a' f']; [contradiction|].
    simpl in Hcat. rewrite Ea in Hcat. injection Hcat as -> _. eauto. }
  cbn [wrap_chunks].
  destruct (take_fitting width (first :: rest) [] 0)
    as [[chunks2 cur] cur_len] eqn:Etf.
  pose proof (take_fitting_le _ _ _ _ _ _ _ Etf (Nat.le_0_l _)) as Hle.
  apply take_fitting_spec in Etf as (taken & Echunks & -> & -> & Hnext).
  rewrite app_nil_r in *. simpl in Hle, Hnext.
  (* the inner loop cannot take every chunk *)
  destruct chunks2 as [|c chunks2].
  { exfalso. rewrite app_nil_r in Echunks. subst taken.
    rewrite <- length_concat_sum, Hcat in Hle. lia. }
  assert (Hc : c <> []).
  { rewrite Echunks in Hne. apply Forall_app in Hne as [_ Hne].
    now inversion Hne. }
  change (0 + len_sum taken) with (len_sum taken).
  destruct (break_long width (c :: chunks2, rev taken, len_sum taken))
    as [[chunks3 cur3] len3] eqn:Ebl.
  destruct (break_long_spec _ _ _ _ _ _ _ _ Ebl Hw Hc)
    as (piece & c3 & Ec & Hc3 & -> & -> & Hcur3).
  { now rewrite len_sum_rev. }
  clear Ebl.
  (* the text is the line followed by the chunks that are left *)
  assert (Htext : text = concat (rev cur3) ++ concat (c3 :: chunks2)).
  { rewrite <- Hcat, Echunks, concat_app. simpl.
    destruct Hcur3 as [(-> & -> & _)|(-> & _ & _)].
    - rewrite rev_involutive. simpl in Ec. now subst c3.
    - simpl. rewrite rev_involutive, concat_app. simpl.
      rewrite app_nil_r, Ec, <- !app_assoc. reflexivity. }
  (* the line starts with a chunk that is not blank *)
  assert (Hanchor : exists below x, cur3 = below ++ [x] /\ Str.blank x = false).
  { destruct taken as [|t0 taken'].
    - simpl in Echunks. injection Echunks as <- <-.
      change (len_sum []) with 0 in *. simpl in Hnext.
      destruct Hcur3 as [(_ & _ & Hfits)|(-> & Hl & Hp)].
      + (* the first chunk fits the width, so it was taken *) lia.
      + exists [], piece. split; [reflexivity|].
        destruct piece as [|p0 piece']; [now destruct Hp|].
        destruct Hfirst as [f' Ef]. rewrite Ef in Ec. simpl in Ec.
        injection Ec as <- _. now apply blank_cons.
    - simpl in Echunks. injection Echunks as <- _.
      destruct Hfirst as [f' ->].
      assert (Hb0 : Str.blank (a :: f') = false) by now apply blank_cons.
      destruct Hcur3 as [(_ & -> & _)|(-> & _ & _)].
      + exists (rev taken'), (a :: f'). now split.
      + exists (piece :: rev taken'), (a :: f'). now split. }
  destruct Hanchor as (below & x & Ecur3 & Hx).
  destruct (drop_blank_end cur3 (len_sum cur3)) as [cur4 len4] eqn:Edb.
  destruct (drop_blank_end_spec _ _ _ _ _ _ Edb eq_refl Ecur3 Hx)
    as (Hcur4 & -> & dropped & Edrop).
  destruct cur4 as [|top cur4']; [contradiction|].
  (* chunks are left, and the last of them is not blank *)
  assert (Hleft : nothing_left (c3 :: chunks2) = false).
  { destruct chunks2 as [|c4 chunks2']; [|reflexivity].
    simpl. apply (last_chunk_solid (concat (rev cur3)) c3 init b);
      [|assumption|assumption].
    rewrite <- Eb, Htext. simpl. now rewrite app_nil_r. }
  rewrite Hleft. cbn [andb].
  destruct (truncate_line_spec width placeholder (top :: cur4') _ eq_refl)
    as (line & -> & Hline).
  cbn [Str.join].
  destruct Hline as [->|(dropped' & kept & Ekept & -> & Hlen)]; [now left|].
  right. exists (concat (rev kept)).
  exists (concat (rev dropped') ++ concat (rev dropped)
            ++ concat (c3 :: chunks2)).
  repeat split; [|assumption].
  rewrite Htext, Edrop, Ekept, !rev_app_distr, !concat_app, <- !app_assoc.
  reflexivity.
Qed.

End Fill.

Lemma lstrip_split s : Str.split (Str.lstrip s) = Str.split s.
Proof.
  induction s as [|c s IH]; [reflexivity|].
  simpl. destruct (Char.is_space c) eqn:Hc; [exact IH|].
  simpl. now rewrite Hc.
Qed.

Lemma split_blank_tail s sp :
  all_in Char.is_space sp -> Str.split (s ++ sp) = Str.split s.
Proof.
  intros Hsp.
  assert (Hnil : Str.split sp = []).
  { induction Hsp as [|c sp Hc _ IH]; [reflexivity|]. simpl. now rewrite Hc. }
  induction s as [|c s IH]; [exact Hnil|].
  destruct s as [|c' s'].
  - simpl. destruct (Char.is_space c); [exact Hnil|].
    destruct sp as [|d sp']; [reflexivity|].
    inversion Hsp as [|? ? Hd _]; subst. rewrite Hd.
    now rewrite Hnil.
  - change ((c :: c' :: s') ++ sp) with (c :: (c' :: s') ++ sp).
    change ((c' :: s') ++ sp) with (c' :: s' ++ sp) in *.
    cbn [Str.split]. cbn [Str.split] in IH. rewrite IH. reflexivity.
Qed.

Lemma lstrip_decomp s :
  exists sp, s = sp ++ Str.lstrip s /\ all_in Char.is_space sp.
Proof.
  induction s as [|c s (sp & E & Hsp)]; [now exists []|].
  simpl. destruct (Char.is_space c) eqn:Hc.
  - exists (c :: sp). split; [simpl; now rewrite <- E | now constructor].
  - now exists [].
Qed.

Lemma rstrip_split s : Str.split (Str.rstrip s) = Str.split s.
Proof.
  unfold Str.rstrip.
  destruct (lstrip_decomp (rev s)) as (sp & E & Hsp).
  apply (f_equal (@rev ascii)) in E.
  rewrite rev_involutive, rev_app_distr in E.
  rewrite E at 2. symmetry. apply split_blank_tail.
  apply Forall_forall. intros c Hc. rewrite Forall_forall in Hsp.
  apply Hsp. apply list_elem_of_In. apply list_elem_of_In in Hc.
  now apply in_rev.
Qed.

Lemma strip_split s : Str.split (Str.strip s) = Str.split s.
Proof. unfold Str.strip. now rewrite rstrip_split, lstrip_split. Qed.

(** Stripping first, as the inference does, does not change the
    collapsed text. *)
Lemma collapse_strip `{Chunker} text : collapse (Str.strip text) = collapse text.
Proof. unfold collapse. now rewrite !strip_split. Qed.

Lemma split_cons_solid c c' s :
  Char.is_space c = false -> Char.is_space c' = false ->
  Str.split (c :: c' :: s)
  = match Str.split (c' :: s) with
    | w :: ws => (c :: w) :: ws
    | [] => [[c]]
    end.
Proof.
  intros Hc Hc'. change (Str.split (c :: c' :: s))
    with (if Char.is_space c then Str.split (c' :: s)
          else if Char.is_space c' then [c] :: Str.split (c' :: s)
          else match Str.split (c' :: s) with
               | w :: ws => (c :: w) :: ws
               | [] => [[c]]
               end).
  now rewrite Hc, Hc'.
Qed.

Lemma split_word w : word w -> Str.split w = [w].
Proof.
  intros [Hne Hw]. induction Hw as [|c w Hc Hw IH]; [contradiction|].
  destruct w as [|c' w']; [simpl; now rewrite Hc|].
  inversion Hw as [|? ? Hc' _]; subst.
  rewrite split_cons_solid by assumption. now rewrite IH.
Qed.

Lemma split_word_space w r :
  word w -> Str.split (w ++ lit " " ++ r) = w :: Str.split r.
Proof.
  intros [Hne Hw]. change (lit " " ++ r) with (" "%char :: r).
  induction Hw as [|c w Hc Hw IH]; [contradiction|].
  destruct w as [|c' w']; [simpl; now rewrite Hc|].
  inversion Hw as [|? ? Hc' _]; subst.
  change ((c :: c' :: w') ++ " "%char :: r)
    with (c :: c' :: (w' ++ " "%char :: r)).
  rewrite split_cons_solid by assumption.
  change (c' :: w' ++ " "%char :: r) with ((c' :: w') ++ " "%char :: r).
  now rewrite IH.
Qed.

Lemma split_join ws : Forall word ws -> Str.split (Str.join (lit " ") ws) = ws.
Proof.
  induction 1 as [|w ws Hw Hws IH]; [reflexivity|].
  destruct ws as [|w' ws].
  - now apply split_word.
  - change (Str.join (lit " ") (w :: w' :: ws))
      with (w ++ lit " " ++ Str.join (lit " ") (w' :: ws)).
    now rewrite split_word_space, IH.
Qed.

(** Collapsing leaves a single spaced text as it is. *)
Lemma collapse_single_spaced `{Chunker} text :
  single_spaced text -> collapse text = text.
Proof.
  intros (ws & Hws & ->). unfold collapse.
  now rewrite strip_split, split_join.
Qed.

End TextwrapFacts.

(** ** A chunker

    The splitter of [runs] meets the interface.  It is the one of the
    library for texts without hyphens; the library's default also splits
    after a hyphen inside a word.  The theorems hold for every chunker;
    this one runs the closed examples, whose texts have no hyphen. *)

Lemma runs_shape s : concat (runs s) = s /\ Forall (fun c => c <> []) (runs s).
Proof.
  induction s as [|c s [IHc IHn]]; simpl; [split; [reflexivity|constructor]|].
  destruct (runs s) as [|[|d w] ws] eqn:E.
  - simpl in IHc. subst s. split; [reflexivity|]. repeat constructor. easy.
  - inversion IHn; subst. congruence.
  - destruct (Bool.eqb _ _); simpl in *.
    + split; [now rewrite IHc|]. inversion IHn; subst.
      constructor; [easy | assumption].
    + split; [now rewrite IHc|]. constructor; [easy | assumption].
Qed.

#[export] Instance simple_chunker : Chunker := {|
  split_chunks := runs;
  split_chunks_concat := fun s => proj1 (runs_shape s);
  split_chunks_nonempty := fun s => proj2 (runs_shape s)
|}.

(** ** Properties of the matcher *)

Module ReFacts.
Import Re.

(** A greedy repetition that can take all of [run], cannot take more, and
    after which the rest of the pattern matches, takes exactly [run]. *)
Lemma rep_take {R} p lo hi run rest (k : pystr -> option R) x :
  all_in p run ->
  lo <= length run ->
  (forall n, hi = Some n -> length run <= n) ->
  stops p hi run rest ->
  k rest = Some x ->
  rep p lo hi (run ++ rest) k = Some x.
Proof.
  intros Hrun. revert lo hi.
  induction Hrun as [|c run Hc _ IH]; intros lo hi Hlo Hhi Hstop Hk.
  - simpl in Hlo. assert (lo = 0) as -> by lia. simpl.
    destruct rest as [|c rest]; simpl; [exact Hk|].
    destruct Hstop as [Hc| ->].
    + now rewrite Hc.
    + simpl. now rewrite andb_false_r.
  - simpl. rewrite Hc.
    assert (Hmore : more hi = true).
    { destruct hi as [[|n]|]; try reflexivity.
      specialize (Hhi 0 eq_refl). simpl in Hhi. lia. }
    rewrite Hmore. simpl.
    rewrite (IH (Nat.pred lo) (less hi)); [reflexivity| | | |exact Hk].
    + simpl in Hlo. lia.
    + intros n Hn. destruct hi as [m|]; [|discriminate].
      simpl in Hn. injection Hn as <-.
      specialize (Hhi m eq_refl). simpl in Hhi. lia.
    + unfold stops in *. destruct rest as [|d rest]; [exact I|].
      destruct Hstop as [Hd| ->]; [now left | now right].
Qed.

(** Whatever a repetition matches is a run of the class, within the
    bounds, after which the rest of the pattern matched. *)
Lemma rep_sound {R} p lo hi s (k : pystr -> option R) x :
  rep p lo hi s k = Some x ->
  exists run rest,
    s = run ++ rest /\ all_in p run /\ lo <= length run
    /\ (forall n, hi = Some n -> length run <= n)
    /\ k rest = Some x.
Proof.
  revert lo hi.
  assert (Hstop : forall lo hi u,
             match lo with O => k u | S _ => None end = Some x ->
             exists run rest,
               u = run ++ rest /\ all_in p run /\ lo <= length run
               /\ (forall n, hi = Some n -> length run <= n)
               /\ k rest = Some x).
  { intros lo hi u Hu. destruct lo; [|discriminate].
    exists [], u. repeat split; auto; simpl; intros; lia. }
  induction s as [|c s IH]; intros lo hi; simpl.
  - apply Hstop.
  - destruct (p c) eqn:Hc; simpl; [|apply Hstop].
    destruct (more hi) eqn:Hmore; [|apply Hstop].
    destruct (rep p (Nat.pred lo) (less hi) s k) as [y|] eqn:E;
      [|apply Hstop].
    intros [= ->].
    destruct (IH _ _ E) as (run & rest & -> & Hrun & Hlo & Hhi & Hk).
    exists (c :: run), rest. repeat split; auto; simpl; try lia.
    intros n ->. destruct n as [|n]; [discriminate|].
    specialize (Hhi n eq_refl). lia.
Qed.

Lemma search_none r s :
  (forall i, match_ r (drop i s) = None) -> search r s = None.
Proof.
  induction s as [|c s IH]; intros Hall; simpl;
    pose proof (Hall 0) as H0; simpl in H0; rewrite H0.
  - reflexivity.
  - apply IH. intros i. exact (Hall (S i)).
Qed.

(** [search] returns the match at the first position that has one. *)
Lemma search_first r pre s g :
  (forall i, i < length pre -> match_ r (drop i (pre ++ s)) = None) ->
  match_ r s = Some g ->
  search r (pre ++ s) = Some g.
Proof.
  induction pre as [|c pre IH]; intros Hbefore Hm; simpl.
  - destruct s; simpl; now rewrite Hm.
  - pose proof (Hbefore 0) as H0. simpl in H0. rewrite H0 by lia.
    apply IH; [|exact Hm].
    intros i Hi. apply (Hbefore (S i)). simpl. lia.
Qed.

Lemma search_sound r s g :
  search r s = Some g -> exists i, match_ r (drop i s) = Some g.
Proof.
  induction s as [|c s IH]; simpl.
  - destruct (match_ r []) eqn:E; [|discriminate].
    intros [= <-]. now exists 0.
  - destruct (match_ r (c :: s)) eqn:E.
    + intros [= <-]. now exists 0.
    + intros Hs. destruct (IH Hs) as [i Hi]. now exists (S i).
Qed.

Lemma take_consumed (run rest : pystr) :
  take (length (run ++ rest) - length rest) (run ++ rest) = run.
Proof.
  rewrite length_app, Nat.add_sub. apply take_app_length.
Qed.

End ReFacts.

(** ** The two patterns of the source *)

Module PatternFacts.
Import Re ReFacts.

(** Literal alternatives before a continuation that cannot fail: the first
    literal that is a prefix of the text is taken. *)
Lemma run_alts {R} ls s g (k : pystr -> groups -> R) :
  run (alts ls) s g (fun s' g' => Some (k s' g'))
  = (fun l => k (drop (length l) s) g)
      <$> find (fun l => Str.startswith l s) ls.
Proof.
  induction ls as [|l ls IH]; [simpl; now destruct s|].
  destruct ls as [|l' ls].
  - simpl. now destruct (Str.startswith l s).
  - change (alts (l :: l' :: ls)) with (Alt (Lit l) (alts (l' :: ls))).
    cbn [run find]. destruct (Str.startswith l s); [reflexivity|].
    exact IH.
Qed.

Lemma drop_consumed (s : pystr) n :
  take (length s - length (drop n s)) s = take n s.
Proof.
  rewrite length_drop.
  destruct (Nat.le_gt_cases n (length s)) as [Hle|Hgt].
  - f_equal. lia.
  - rewrite !take_ge by lia. reflexivity.
Qed.

Lemma find_unit s :
  find (fun l => Str.startswith l s) (map lit duration_units) = unit_letter s.
Proof.
  destruct s as [|c s]; [reflexivity|].
  destruct c as [[] [] [] [] [] [] [] []]; reflexivity.
Qed.

Lemma unit_letter_unit u rest :
  In u duration_units ->
  unit_letter (lit u ++ rest) = Some (take 1 (lit u))
  /\ exists c tl, lit u = c :: tl /\ Char.is_digit c = false
                  /\ Char.is_space c = false.
Proof.
  unfold duration_units. simpl.
  intros Hu. repeat destruct Hu as [<-|Hu]; try contradiction;
    (split; [reflexivity|]); eexists _, _;
    (split; [reflexivity|]); split; reflexivity.
Qed.

Lemma times_not_digit c : is_times c = true -> Char.is_digit c = false.
Proof. destruct c as [[] [] [] [] [] [] [] []]; vm_compute; congruence. Qed.

Lemma times_not_space c : is_times c = true -> Char.is_space c = false.
Proof. destruct c as [[] [] [] [] [] [] [] []]; vm_compute; congruence. Qed.

(** What [duration_re] matches at the start of a text. *)
Lemma duration_match ds ws u rest :
  ds <> [] -> all_in Char.is_digit ds -> all_in Char.is_space ws ->
  In u duration_units ->
  match_ duration_re (ds ++ ws ++ lit u ++ rest)
  = Some (<[2 := take 1 (lit u)]> (<[1 := ds]> ∅)).
Proof.
  intros Hne Hds Hws Hu.
  destruct (unit_letter_unit u rest Hu) as (Hletter & c & tl & Hc & Hcd & Hcs).
  unfold match_, duration_re. cbn [run].
  apply rep_take; try assumption.
  - destruct ds; [contradiction | simpl; lia].
  - discriminate.
  - unfold stops. destruct ws as [|w ws'].
    + simpl. rewrite Hc. simpl. now left.
    + simpl. left. inversion Hws; subst. now apply space_not_digit.
  - rewrite take_consumed.
    apply rep_take; try assumption.
    + lia.
    + discriminate.
    + unfold stops. rewrite Hc. simpl. now left.
    + rewrite (run_alts _ _ _
                 (fun s' g' =>
                    <[2 := take (length (lit u ++ rest) - length s')
                             (lit u ++ rest)]> g')).
      rewrite find_unit, Hletter. simpl fmap.
      rewrite drop_consumed. f_equal. f_equal.
      rewrite Hc. reflexivity.
Qed.

Lemma duration_match_sound s g :
  match_ duration_re s = Some g -> duration_at s.
Proof.
  unfold match_, duration_re. cbn [run]. intros Hm.
  apply rep_sound in Hm as (ds & s1 & -> & Hds & Hlo & _ & Hm).
  apply rep_sound in Hm as (ws & s2 & -> & Hws & _ & _ & Hm).
  rewrite (run_alts _ _ _
             (fun s' g' => <[2 := take (length s2 - length s') s2]> g'))
    in Hm.
  destruct (find _ _) as [l|] eqn:Ef; [|discriminate].
  apply find_some in Ef as [Hin Hl].
  apply in_map_iff in Hin as (u & <- & Hu).
  apply startswith_spec in Hl as [rest ->].
  exists ds, ws, u, rest. repeat split; try assumption.
  destruct ds; [simpl in Hlo; lia | discriminate].
Qed.

Lemma duration_match_none s : ~ duration_at s -> match_ duration_re s = None.
Proof.
  intros Hno. destruct (match_ duration_re s) as [g|] eqn:E; [|reflexivity].
  destruct Hno. eapply duration_match_sound. exact E.
Qed.

(** What [size_re] matches at the start of a text. *)
Lemma size_match d1 ws1 sep ws2 d2 rest :
  all_in Char.is_digit d1 -> 3 <= length d1 <= 4 ->
  all_in Char.is_space ws1 -> is_times sep = true ->
  all_in Char.is_space ws2 ->
  all_in Char.is_digit d2 -> 3 <= length d2 <= 4 ->
  stops Char.is_digit (Some 4) d2 rest ->
  match_ size_re (d1 ++ ws1 ++ sep :: ws2 ++ d2 ++ rest)
  = Some (<[2 := d2]> (<[1 := d1]> ∅)).
Proof.
  intros Hd1 Hl1 Hws1 Hsep Hws2 Hd2 Hl2 Hstop.
  unfold match_, size_re. cbn [run].
  apply rep_take; try assumption; try lia.
  - intros n [= <-]. lia.
  - unfold stops. destruct ws1 as [|w ws1'].
    + simpl. left. now apply times_not_digit.
    + simpl. left. inversion Hws1; subst. now apply space_not_digit.
  - rewrite take_consumed.
    apply rep_take; try assumption; try lia.
    + discriminate.
    + unfold stops. left. now apply times_not_space.
    + rewrite Hsep.
      apply rep_take; try assumption; try lia.
      * discriminate.
      * unfold stops. destruct d2 as [|c d2']; [simpl in Hl2; lia|].
        simpl. left. inversion Hd2; subst.
        destruct (Char.is_space c) eqn:E; [|reflexivity].
        apply space_not_digit in E. congruence.
      * apply rep_take; try assumption; try lia.
        -- intros n [= <-]. lia.
        -- rewrite take_consumed. reflexivity.
Qed.

Lemma size_match_sound s g : match_ size_re s = Some g -> size_at s.
Proof.
  unfold match_, size_re. cbn [run]. intros Hm.
  apply rep_sound in Hm as (d1 & s1 & -> & Hd1 & Hlo1 & Hhi1 & Hm).
  apply rep_sound in Hm as (ws1 & s2 & -> & Hws1 & _ & _ & Hm).
  destruct s2 as [|sep s3]; [discriminate|].
  destruct (is_times sep) eqn:Hsep; [|discriminate].
  apply rep_sound in Hm as (ws2 & s4 & -> & Hws2 & _ & _ & Hm).
  apply rep_sound in Hm as (d2 & rest & -> & Hd2 & Hlo2 & Hhi2 & _).
  exists d1, ws1, sep, ws2, d2, rest.
  specialize (Hhi1 4 eq_refl). specialize (Hhi2 4 eq_refl).
  repeat split; try assumption; lia.
Qed.

Lemma size_match_none s : ~ size_at s -> match_ size_re s = None.
Proof.
  intros Hno. destruct (match_ size_re s) as [g|] eqn:E; [|reflexivity].
  destruct Hno. eapply size_match_sound. exact E.
Qed.

Lemma duration_at_match s : duration_at s -> match_ duration_re s <> None.
Proof.
  intros (ds & ws & u & rest & -> & Hne & Hds & Hws & Hu).
  now rewrite duration_match.
Qed.

Lemma size_at_match s : size_at s -> match_ size_re s <> None.
Proof.
  intros (d1 & ws1 & sep & ws2 & d2 & rest & -> & Hd1 & Hl1 & Hws1 & Hsep
          & Hws2 & Hd2 & Hl2).
  (* the second group is the longest run of at most four digits *)
  assert (Hex : exists d2' rest', d2 ++ rest = d2' ++ rest'
                  /\ all_in Char.is_digit d2' /\ 3 <= length d2' <= 4
                  /\ stops Char.is_digit (Some 4) d2' rest').
  { destruct (decide (length d2 = 4)) as [E|E].
    - exists d2, rest. repeat split; try assumption; try lia.
      unfold stops. destruct rest; [exact I|]. right. now rewrite E.
    - destruct rest as [|c rest].
      + exists d2, []. repeat split; try assumption; lia.
      + destruct (Char.is_digit c) eqn:Hc.
        * exists (d2 ++ [c]), rest. rewrite <- app_assoc.
          repeat split; try reflexivity.
          -- apply Forall_app. split; [assumption|]. now constructor.
          -- rewrite length_app. simpl. lia.
          -- rewrite length_app. simpl. lia.
          -- unfold stops. destruct rest; [exact I|]. right.
             rewrite length_app. simpl. f_equal. lia.
        * exists d2, (c :: rest). repeat split; try assumption; try lia.
          now left. }
  destruct Hex as (d2' & rest' & E & Hd2' & Hl2' & Hstop).
  rewrite E. now rewrite size_match.
Qed.

Lemma unmatched_spec r s n :
  unmatched r s n = true -> forall i, i < n -> match_ r (drop i s) = None.
Proof.
  unfold unmatched. rewrite forallb_forall. intros Hall i Hi.
  specialize (Hall i). rewrite in_seq in Hall.
  destruct (match_ r (drop i s)); [|reflexivity].
  discriminate Hall. lia.
Qed.

Lemma no_duration_before s n :
  unmatched duration_re s n = true ->
  forall i, i < n -> ~ duration_at (drop i s).
Proof.
  intros Hu i Hi Hat. apply duration_at_match in Hat.
  now rewrite (unmatched_spec _ _ _ Hu i Hi) in Hat.
Qed.

Lemma no_size_before s n :
  unmatched size_re s n = true ->
  forall i, i < n -> ~ size_at (drop i s).
Proof.
  intros Hu i Hi Hat. apply size_at_match in Hat.
  now rewrite (unmatched_spec _ _ _ Hu i Hi) in Hat.
Qed.

End PatternFacts.

(** ** Properties of the merge *)

Section MergeFacts.

Implicit Types base manual enrichment : dict.

(** The value of the merge at every key. *)
Lemma merge_lookup base manual k :
  merge_manual_fields base manual !! k = merged_at base k (manual !! k).
Proof.
  unfold merge_manual_fields. simpl.
  revert k.
  apply (map_fold_weak_ind
           (fun r m => forall k, r !! k = merged_at base k (m !! k))).
  - intros k. now rewrite lookup_empty.
  - intros i v m r Hfresh IH k.
    assert (Hi : r !! i = base !! i).
    { rewrite IH, Hfresh. reflexivity. }
    destruct (decide (i = k)) as [->|Hne].
    + rewrite lookup_insert_eq. simpl.
      destruct (skipped v); [exact Hi|]. rewrite Hi.
      destruct v; try (now rewrite lookup_insert_eq).
      destruct (base !! k) as [[]|]; now rewrite lookup_insert_eq.
    + rewrite (lookup_insert_ne m i k) by assumption. rewrite <- IH.
      destruct (skipped v); [reflexivity|].
      destruct v; try (now rewrite lookup_insert_ne).
      destruct (r !! i) as [[]|]; now rewrite lookup_insert_ne.
Qed.

Lemma merge_lookup_absent base manual k :
  manual !! k = None ->
  merge_manual_fields base manual !! k = base !! k.
Proof. intros H. now rewrite merge_lookup, H. Qed.

Lemma merge_lookup_skipped base manual k v :
  manual !! k = Some v -> skipped v = true ->
  merge_manual_fields base manual !! k = base !! k.
Proof. intros H Hs. rewrite merge_lookup, H. simpl. now rewrite Hs. Qed.

Lemma merge_lookup_scalar base manual k v :
  manual !! k = Some v -> skipped v = false -> is_dict v = false ->
  merge_manual_fields base manual !! k = Some v.
Proof.
  intros H Hs Hd. rewrite merge_lookup, H. simpl. rewrite Hs.
  destruct v; try reflexivity. discriminate.
Qed.

Lemma merge_lookup_nested base manual k bm vm :
  base !! k = Some (VDict bm) -> manual !! k = Some (VDict vm) ->
  merge_manual_fields base manual !! k
  = Some (VDict (merge_manual_fields bm vm)).
Proof. intros Hb Hm. rewrite merge_lookup, Hm. simpl. now rewrite Hb. Qed.

Lemma merge_lookup_replace base manual k v :
  manual !! k = Some v -> skipped v = false ->
  (forall bm, base !! k <> Some (VDict bm)) ->
  merge_manual_fields base manual !! k = Some v.
Proof.
  intros H Hs Hb. rewrite merge_lookup, H. simpl. rewrite Hs.
  destruct v; try reflexivity.
  destruct (base !! k) as [[]|] eqn:E; try reflexivity.
  now destruct (Hb fields0).
Qed.

Lemma merge_keeps_key base manual k :
  is_Some (base !! k) -> is_Some (merge_manual_fields base manual !! k).
Proof.
  intros Hb. rewrite merge_lookup. unfold merged_at.
  destruct (manual !! k) as [v|]; [|assumption].
  destruct (skipped v); [assumption|].
  destruct v; eauto.
  destruct (base !! k) as [[]|]; eauto.
Qed.

End MergeFacts.


(** ** The merge on the object store *)

Module StoreFacts.
Import Store.

Lemma closedb_sound h : closedb h = true -> closed h.
Proof.
  unfold closedb, closed. rewrite forallb_forall.
  intros Hall l d k l' Hl Hk.
  specialize (Hall (l, d)). simpl in Hall.
  rewrite <- list_elem_of_In, elem_of_map_to_list in Hall.
  specialize (Hall Hl). rewrite forallb_forall in Hall.
  specialize (Hall (k, HRef l')). simpl in Hall.
  rewrite <- list_elem_of_In, elem_of_map_to_list in Hall.
  specialize (Hall Hk). now apply bool_decide_eq_true in Hall.
Qed.

Lemma boundedb_sound n h l : boundedb n h l = true -> bounded n h l.
Proof.
  revert l. induction n as [|n IH]; intros l; simpl; [discriminate|].
  destruct (h !! l) as [d|]; [|discriminate].
  rewrite forallb_forall. intros Hall. exists d. split; [reflexivity|].
  intros k l' Hk. apply IH.
  specialize (Hall (k, HRef l')). simpl in Hall. apply Hall.
  now rewrite <- list_elem_of_In, elem_of_map_to_list.
Qed.

Lemma bounded_mono n h h' l : h ⊆ h' -> bounded n h l -> bounded n h' l.
Proof.
  intros Hsub. revert l. induction n as [|n IH]; intros l; simpl; [easy|].
  intros (d & Hd & Hrefs). exists d. split; [|eauto].
  eapply lookup_weaken; eassumption.
Qed.

Lemma closed_insert h l d :
  closed h ->
  (forall k l', d !! k = Some (HRef l') -> is_Some (<[l := d]> h !! l')) ->
  closed (<[l := d]> h).
Proof.
  intros Hc Hd j dj k l' Hj Hk.
  destruct (decide (l = j)) as [->|Hne].
  - rewrite lookup_insert_eq in Hj. inversion Hj; subst. eauto.
  - rewrite lookup_insert_ne in Hj by assumption.
    destruct (Hc _ _ _ _ Hj Hk) as [x Hx].
    destruct (decide (l = l')) as [->|Hne'].
    + rewrite lookup_insert_eq. eauto.
    + rewrite lookup_insert_ne by assumption. eauto.
Qed.

(** An invariant of the heap that every round of a loop keeps holds when
    the loop ends. *)
Lemma for_each_keeps {A} (I : heap -> Prop) (xs : list A)
    (body : A -> M unit) :
  (forall x h u h', x ∈ xs -> I h -> body x h = Some (u, h') -> I h') ->
  forall h u h', I h -> for_each xs body h = Some (u, h') -> I h'.
Proof.
  induction xs as [|x xs IH]; intros Hbody h u h' HI; simpl.
  - unfold ret. intros [= _ <-]. exact HI.
  - unfold bind. destruct (body x h) as [[u1 h1]|] eqn:E; [|discriminate].
    apply IH.
    + intros y. intros. eapply (Hbody y); eauto. now right.
    + eapply Hbody; eauto. now left.
Qed.

(** A loop whose rounds all succeed under an invariant succeeds. *)
Lemma for_each_runs {A} (I : heap -> Prop) (xs : list A)
    (body : A -> M unit) :
  (forall x h, x ∈ xs -> I h -> exists h', body x h = Some (tt, h') /\ I h') ->
  forall h, I h -> exists h', for_each xs body h = Some (tt, h') /\ I h'.
Proof.
  induction xs as [|x xs IH]; intros Hbody h HI; simpl.
  - exists h. split; [reflexivity | exact HI].
  - destruct (Hbody x h) as (h1 & E & HI1); [now left | exact HI |].
    unfold bind. rewrite E. apply IH; [|exact HI1].
    intros y. intros. apply Hbody; [now right | assumption].
Qed.

(** Whenever the merge returns, the store it leaves extends the one it
    was given: no object that existed was written, and the result is a
    new object. *)
Lemma merge_frame depth base manual h merged h' :
  merge_manual_fields depth base manual h = Some (merged, h') ->
  h ⊆ h' /\ h !! merged = None /\ is_Some (h' !! merged).
Proof.
  revert base manual h merged h'.
  induction depth as [|n IH]; intros base manual h merged h'; simpl;
    [discriminate|].
  unfold bind at 1. unfold copy at 1.
  destruct (h !! base) as [db|] eqn:Eb; [|discriminate].
  set (m := fresh (dom h)).
  assert (Hm : h !! m = None).
  { apply not_elem_of_dom, is_fresh. }
  unfold bind at 1. unfold items at 1.
  destruct (<[m := db]> h !! manual) as [dm|]; [|discriminate].
  unfold bind at 1.
  match goal with
  | |- context [for_each ?xs ?body _] => set (loop := for_each xs body)
  end.
  destruct (loop (<[m := db]> h)) as [[u h2]|] eqn:El; [|discriminate].
  unfold ret. intros [= <- <-].
  assert (HI : h ⊆ h2 /\ is_Some (h2 !! m)).
  { subst loop.
    revert El. apply (for_each_keeps (fun hc => h ⊆ hc /\ is_Some (hc !! m))).
    - intros [k v] hc u' hc' _ [Hsub [dc Hdc]].
      destruct (skipped v).
      { unfold ret. intros [= _ <-]. eauto. }
      unfold bind at 1. unfold get at 1. rewrite Hdc.
      assert (Hset : forall w hx hy uy,
                 h ⊆ hx -> is_Some (hx !! m) ->
                 setitem m k w hx = Some (uy, hy) ->
                 h ⊆ hy /\ is_Some (hy !! m)).
      { intros w hx hy uy Hx [dx Hdx]. unfold setitem. rewrite Hdx.
        intros [= _ <-]. split.
        - now apply insert_subseteq_r.
        - rewrite lookup_insert_eq. eauto. }
      destruct v; try (apply Hset; eauto).
      destruct (dc !! k) as [[| | | | | |lc]|]; try (apply Hset; eauto).
      unfold bind.
      destruct (merge_manual_fields n lc l hc) as [[r hr]|] eqn:Er;
        [|discriminate].
      destruct (IH _ _ _ _ _ Er) as (Hsub' & _ & _).
      apply Hset.
      + etransitivity; eassumption.
      + exists dc. eapply lookup_weaken; eassumption.
    - split.
      + now apply insert_subseteq.
      + rewrite lookup_insert_eq. eauto. }
  tauto.
Qed.

Lemma lookup_insert_keeps (h : heap) l d l' :
  is_Some (h !! l') -> is_Some (<[l := d]> h !! l').
Proof.
  intros Hl. destruct (decide (l = l')) as [->|Hne].
  - rewrite lookup_insert_eq. eauto.
  - now rewrite lookup_insert_ne.
Qed.

Lemma setitem_runs (h hx : heap) m k v :
  h !! m = None -> h ⊆ hx -> closed hx -> is_Some (hx !! m) ->
  (forall l', v = HRef l' -> is_Some (hx !! l')) ->
  exists hy, setitem m k v hx = Some (tt, hy)
             /\ h ⊆ hy /\ closed hy /\ is_Some (hy !! m).
Proof.
  intros Hm Hsub Hc [dx Hdx] Hv. unfold setitem. rewrite Hdx.
  eexists. split; [reflexivity|]. split; [|split].
  - now apply insert_subseteq_r.
  - apply closed_insert; [assumption|].
    intros k' l' Hk'. apply lookup_insert_keeps.
    destruct (decide (k = k')) as [->|Hne].
    + rewrite lookup_insert_eq in Hk'. inversion Hk'; subst. now apply Hv.
    + rewrite lookup_insert_ne in Hk' by assumption. eapply Hc; eassumption.
  - rewrite lookup_insert_eq. eauto.
Qed.

(** On a store without dangling references the merge returns, as soon
    as the recursion depth allowed exceeds the nesting of the
    overrides. *)
Lemma merge_runs depth base manual h :
  closed h -> is_Some (h !! base) -> bounded depth h manual ->
  exists merged h',
    merge_manual_fields depth base manual h = Some (merged, h')
    /\ closed h'.
Proof.
  revert base manual h.
  induction depth as [|n IH]; intros base manual h Hc [db Hb]; simpl;
    [easy|].
  intros (dm & Hdm & Hrefs).
  unfold bind at 1. unfold copy at 1. rewrite Hb.
  set (m := fresh (dom h)).
  assert (Hm : h !! m = None).
  { apply not_elem_of_dom, is_fresh. }
  assert (Hsub1 : h ⊆ <[m := db]> h) by now apply insert_subseteq.
  unfold bind at 1. unfold items at 1.
  rewrite (lookup_weaken _ _ _ _ Hdm Hsub1).
  unfold bind at 1.
  match goal with
  | |- context [for_each ?xs ?body _] => set (loop := for_each xs body)
  end.
  assert (Hloop : exists h2, loop (<[m := db]> h) = Some (tt, h2)
                             /\ h ⊆ h2 /\ closed h2 /\ is_Some (h2 !! m)).
  { subst loop.
    apply (for_each_runs
             (fun hc => h ⊆ hc /\ closed hc /\ is_Some (hc !! m))).
    - intros [k v] hc Hin (Hsub & Hcc & [dc Hdc]).
      apply elem_of_map_to_list in Hin.
      destruct (skipped v).
      { exists hc. split; [reflexivity|]. eauto. }
      unfold bind at 1. unfold get at 1. rewrite Hdc.
      assert (Hscalar : forall hx, h ⊆ hx -> closed hx -> is_Some (hx !! m) ->
                exists hy, setitem m k v hx = Some (tt, hy)
                           /\ h ⊆ hy /\ closed hy /\ is_Some (hy !! m)).
      { intros hx Hx Hcx Hmx. apply (setitem_runs h); try assumption.
        intros l' ->.
        destruct (Hc _ _ _ _ Hdm Hin) as [x Hx'].
        exists x. eapply lookup_weaken; eassumption. }
      destruct v as [| | | | | |lv]; try (apply Hscalar; eauto).
      destruct (dc !! k) as [[| | | | | |lc]|] eqn:Ek; try (apply Hscalar; eauto).
      unfold bind.
      destruct (IH lc lv hc) as (r & hr & Er & Hcr).
      + assumption.
      + eapply Hcc; eassumption.
      + eapply bounded_mono; [eassumption|]. eapply Hrefs; eassumption.
      + rewrite Er.
        destruct (merge_frame _ _ _ _ _ _ Er) as (Hsubr & _ & Hr).
        apply (setitem_runs h); try assumption.
        * etransitivity; eassumption.
        * exists dc. eapply lookup_weaken; eassumption.
        * intros l' [= <-]. assumption.
    - split; [assumption|]. split.
      + apply closed_insert; [assumption|].
        intros k l' Hk. apply lookup_insert_keeps. exact (Hc _ _ _ _ Hb Hk).
      + rewrite lookup_insert_eq. eauto. }
  destruct Hloop as (h2 & El & _ & Hc2 & _).
  rewrite El. unfold ret. eauto.
Qed.

(** More objects leave what a value stands for as it is. *)
Lemma repr_mono (g g' : heap) : g ⊆ g' ->
  forall v t, repr g v t -> repr g' v t.
Proof.
  intros Hsub. fix IH 3. intros v t Hr.
  destruct Hr as [| | | | |vs ts Hall|l o d Hl Hent]; try constructor.
  - revert vs ts Hall. fix IHl 3. intros vs ts Hall.
    destruct Hall as [|v t vs ts Hv Hall]; constructor.
    + apply IH, Hv.
    + apply IHl, Hall.
  - apply (repr_ref g' l o d).
    + eapply lookup_weaken; eassumption.
    + intros k. destruct (Hent k) as [x y Hxy|]; constructor.
      apply IH, Hxy.
Qed.

Lemma repr_ref_inv g l t :
  repr g (HRef l) t ->
  exists o d, t = VDict d /\ g !! l = Some o
              /\ forall k, option_Forall2 (repr g) (o !! k) (d !! k).
Proof. inversion 1; subst. eauto. Qed.

Lemma repr_dict_inv g v d :
  repr g v (VDict d) -> exists l, v = HRef l.
Proof. inversion 1; subst. eauto. Qed.

(** A loop invariant that follows the entries already handled. *)
Lemma for_each_prefix {A} (I : list A -> heap -> Prop) (xs : list A)
    (body : A -> M unit) :
  (forall done x rest h u h',
      xs = done ++ x :: rest -> I done h -> body x h = Some (u, h') ->
      I (done ++ [x]) h') ->
  forall h u h', I [] h -> for_each xs body h = Some (u, h') -> I xs h'.
Proof.
  intros Hbody.
  assert (Hgen : forall rest done h u h',
             xs = done ++ rest -> I done h ->
             for_each rest body h = Some (u, h') -> I xs h').
  { induction rest as [|x rest IH]; intros done h u h' Exs HI; simpl.
    - unfold ret. intros [= _ <-]. rewrite Exs, app_nil_r. exact HI.
    - unfold bind. destruct (body x h) as [[u1 h1]|] eqn:E; [|discriminate].
      apply (IH (done ++ [x])).
      + rewrite Exs, <- app_assoc. reflexivity.
      + eapply Hbody; eassumption. }
  intros h u h'. apply (Hgen xs []). reflexivity.
Qed.

End StoreFacts.

(** ** The store merge against the merge on values *)

Module StoreRefinement.
Import StoreFacts.

Lemma repr_skipped g v t : Store.repr g v t -> Store.skipped v = skipped t.
Proof. now destruct 1. Qed.

(** The merge on the store computes [merge_manual_fields]: from objects
    that stand for [tb] and [tm] it builds an object that stands for
    their merge, out of objects that were there and new ones. *)
Lemma merge_refines depth :
  forall base manual h g tb tm merged h',
    g ⊆ h ->
    Store.repr g (Store.HRef base) (VDict tb) ->
    Store.repr g (Store.HRef manual) (VDict tm) ->
    Store.merge_manual_fields depth base manual h = Some (merged, h') ->
    exists g',
      g ⊆ g' /\ g' ⊆ h'
      /\ (forall l, is_Some (g' !! l) -> is_Some (g !! l) \/ h !! l = None)
      /\ Store.repr g' (Store.HRef merged)
           (VDict (merge_manual_fields tb tm)).
Proof.
  induction depth as [|n IH];
    intros base manual h g tb tm merged h' Hg Hb Hm; simpl; [discriminate|].
  apply repr_ref_inv in Hb as (db & tb' & [= <-] & Hgb & Hbent).
  apply repr_ref_inv in Hm as (dm & tm' & [= <-] & Hgm & Hment).
  unfold Store.bind at 1. unfold Store.copy at 1.
  rewrite (lookup_weaken _ _ _ _ Hgb Hg).
  set (m := fresh (dom h)).
  assert (Hfresh : h !! m = None) by apply not_elem_of_dom, is_fresh.
  assert (Hgfresh : g !! m = None).
  { destruct (g !! m) eqn:E; [|reflexivity].
    rewrite (lookup_weaken _ _ _ _ E Hg) in Hfresh. discriminate. }
  assert (Hh1 : h ⊆ <[m := db]> h) by now apply insert_subseteq.
  unfold Store.bind at 1. unfold Store.items at 1.
  rewrite (lookup_weaken _ _ _ _ (lookup_weaken _ _ _ _ Hgm Hg) Hh1).
  unfold Store.bind at 1.
  match goal with
  | |- context [Store.for_each ?xs ?body _] => set (loop := Store.for_each xs body)
  end.
  destruct (loop (<[m := db]> h)) as [[u h2]|] eqn:El; [|discriminate].
  unfold Store.ret. intros [= <- <-].
  pose (I := fun (done : list (string * Store.hval)) (hc : Store.heap) =>
    h ⊆ hc /\ exists gc dc,
      g ⊆ gc /\ gc ⊆ hc /\ gc !! m = None /\ hc !! m = Some dc
      /\ (forall l, is_Some (gc !! l) -> is_Some (g !! l) \/ h !! l = None)
      /\ forall k, option_Forall2 (Store.repr gc) (dc !! k)
                     (merged_at tb k (seen done tm k))).
  assert (HI : I (map_to_list dm) h2).
  { subst loop. revert El. apply (for_each_prefix I).
    - (* one round of the loop *)
      intros done [k0 v0] rest hc u' hc' Exs
        (Hhc & gc & dc & Hggc & Hgchc & Hgcm & Hdc & Hnew & Hent).
      assert (Hk0 : dm !! k0 = Some v0).
      { apply elem_of_map_to_list. rewrite Exs. apply list_elem_of_In.
        apply in_elt. }
      assert (Hnot : k0 ∉ done.*1).
      { pose proof (NoDup_fst_map_to_list dm) as Hnd.
        rewrite Exs, fmap_app in Hnd. apply NoDup_app in Hnd as (_ & Hnd & _).
        intros Hin. apply (Hnd _ Hin). simpl. left. }
      pose proof (Hment k0) as Hv0. rewrite Hk0 in Hv0.
      inversion Hv0 as [? t0 Hr0 E1 E2|]; subst. symmetry in E2.
      assert (Hseen0 : seen done tm k0 = None).
      { unfold seen. now rewrite decide_False. }
      assert (Hseen1 : forall k, seen (done ++ [(k0, v0)]) tm k
                = if decide (k = k0) then Some t0 else seen done tm k).
      { intros k. unfold seen. rewrite fmap_app. simpl.
        destruct (decide (k = k0)) as [->|Hne].
        - rewrite decide_True; [exact E2|].
          apply elem_of_app. right. left.
        - destruct (decide (k ∈ done.*1)) as [Hin|Hout].
          + rewrite decide_True; [reflexivity|]. apply elem_of_app. now left.
          + rewrite decide_False; [reflexivity|].
            intros [?|Hin]%elem_of_app; [contradiction|].
            apply list_elem_of_singleton in Hin. contradiction. }
      pose proof (Hent k0) as Hcur. rewrite Hseen0 in Hcur. simpl in Hcur.
      rewrite (repr_skipped _ _ _ Hr0).
      destruct (skipped t0) eqn:Hskip.
      { (* the entry is skipped *)
        unfold Store.ret. intros [= _ <-]. split; [exact Hhc|].
        exists gc, dc. repeat split; try assumption.
        intros k. rewrite Hseen1. destruct (decide (k = k0)) as [->|_].
        - simpl. rewrite Hskip. exact Hcur.
        - apply Hent. }
      unfold Store.bind at 1. unfold Store.get at 1. rewrite Hdc.
      (* storing a value that stands for what the merge puts at [k0] *)
      assert (Hstore : forall w hx gx,
                 h ⊆ hx -> gc ⊆ gx -> gx ⊆ hx -> gx !! m = None ->
                 hx !! m = Some dc ->
                 (forall l, is_Some (gx !! l) ->
                            is_Some (g !! l) \/ h !! l = None) ->
                 option_Forall2 (Store.repr gx) (Some w)
                   (merged_at tb k0 (Some t0)) ->
                 Store.setitem m k0 w hx = Some (u', hc') ->
                 I (done ++ [(k0, v0)]) hc').
      { intros w hx gx Hhx Hgcgx Hgxhx Hgxm Hhxm Hnewx Hw.
        unfold Store.setitem. rewrite Hhxm. intros [= _ <-]. split.
        - now apply insert_subseteq_r.
        - exists gx, (<[k0 := w]> dc). repeat split; try assumption.
          + etransitivity; eassumption.
          + now apply insert_subseteq_r.
          + apply lookup_insert_eq.
          + intros k. rewrite Hseen1.
            destruct (decide (k = k0)) as [->|Hne].
            * rewrite lookup_insert_eq. exact Hw.
            * rewrite lookup_insert_ne by congruence.
              destruct (Hent k) as [x y Hxy|]; constructor.
              eapply repr_mono; eassumption. }
      assert (Hr0c : Store.repr gc v0 t0) by (eapply repr_mono; eassumption).
      assert (Hplain : (forall vm bm, t0 = VDict vm ->
                          tb !! k0 <> Some (VDict bm)) ->
                 Store.setitem m k0 v0 hc = Some (u', hc') ->
                 I (done ++ [(k0, v0)]) hc').
      { intros Hno. apply (Hstore v0 hc gc); try assumption; [reflexivity|].
        simpl. rewrite Hskip.
        destruct t0; try (constructor; assumption).
        destruct (tb !! k0) as [[]|] eqn:Etb; try (constructor; assumption).
        now destruct (Hno fields fields0). }
      destruct Hr0c as [| | | | |vs ts Hall|lv ov vm Hlv Hvent];
        try (apply Hplain; intros; discriminate).
      destruct (dc !! k0) as [cur|] eqn:Edc.
      2:{ apply Hplain. intros vm' bm _ Etb. rewrite Etb in Hcur.
          inversion Hcur. }
      inversion Hcur as [? tcur Hrcur E3 E4|]; subst. symmetry in E4.
      destruct Hrcur as [| | | | |vs ts Hall|lc oc bm Hlc Hcent];
        try (apply Hplain; intros vm' bm' _ Etb; rewrite Etb in E4;
             discriminate).
      (* both sides hold a dictionary: the recursive call *)
      unfold Store.bind.
      destruct (Store.merge_manual_fields n lc lv hc) as [[r hr]|] eqn:Er;
        [|discriminate].
      destruct (IH lc lv hc gc bm vm r hr Hgchc) as (g2 & Hgc2 & Hg2 & Hnew2 & Hr2).
      { econstructor; eassumption. }
      { econstructor; eassumption. }
      { exact Er. }
      destruct (merge_frame _ _ _ _ _ _ Er) as (Hsubr & _ & _).
      apply (Hstore (Store.HRef r) hr g2); try assumption.
      + etransitivity; eassumption.
      + destruct (g2 !! m) eqn:E; [|reflexivity].
        destruct (Hnew2 m) as [[x Hx]|Hx]; [eauto|congruence|congruence].
      + eapply lookup_weaken; eassumption.
      + intros l Hl. destruct (Hnew2 l Hl) as [Hgcl|Hhcl]; [now apply Hnew|].
        right. destruct (h !! l) eqn:E; [|reflexivity].
        rewrite (lookup_weaken _ _ _ _ E Hhc) in Hhcl. discriminate.
      + simpl. rewrite E4. constructor. exact Hr2.
    - (* before the loop *)
      split; [exact Hh1|]. exists g, db. repeat split; try assumption.
      + reflexivity.
      + etransitivity; eassumption.
      + apply lookup_insert_eq.
      + intros l Hl. now left. }
  destruct HI as (Hh2 & gc & dc & Hggc & Hgch2 & Hgcm & Hdc & Hnew & Hent).
  exists (<[m := dc]> gc). repeat split.
  - etransitivity; [exact Hggc|]. now apply insert_subseteq.
  - now apply insert_subseteq_l.
  - intros l. destruct (decide (m = l)) as [<-|Hne]; [now right|].
    rewrite lookup_insert_ne by assumption. apply Hnew.
  - apply (Store.repr_ref _ m dc); [apply lookup_insert_eq|].
    intros k. rewrite merge_lookup.
    assert (Hk : merged_at tb k (seen (map_to_list dm) tm k)
                 = merged_at tb k (tm !! k)).
    { unfold seen. destruct (decide _) as [|Hout]; [reflexivity|].
      pose proof (Hment k) as Hmk.
      destruct (dm !! k) as [x|] eqn:Edm; [|now inversion Hmk].
      destruct Hout. apply list_elem_of_fmap. exists (k, x).
      split; [reflexivity|]. now apply elem_of_map_to_list. }
    rewrite <- Hk.
    destruct (Hent k) as [x y Hxy|]; constructor.
    eapply repr_mono; [|exact Hxy]. now apply insert_subseteq.
Qed.

(** Read on the whole store: the result stands for the merge of the two
    trees, and the two arguments stand for the trees they stood for. *)
Corollary merge_on_store depth base manual h tb tm merged h' :
  Store.repr h (Store.HRef base) (VDict tb) ->
  Store.repr h (Store.HRef manual) (VDict tm) ->
  Store.merge_manual_fields depth base manual h = Some (merged, h') ->
  Store.repr h' (Store.HRef merged) (VDict (merge_manual_fields tb tm))
  /\ Store.repr h' (Store.HRef base) (VDict tb)
  /\ Store.repr h' (Store.HRef manual) (VDict tm).
Proof.
  intros Hb Hm E.
  destruct (merge_refines depth base manual h h tb tm merged h')
    as (g' & _ & Hg' & _ & Hr); try assumption; [reflexivity|].
  destruct (merge_frame _ _ _ _ _ _ E) as (Hsub & _ & _).
  refine (conj _ (conj _ _)).
  - exact (repr_mono g' h' Hg' _ _ Hr).
  - exact (repr_mono h h' Hsub _ _ Hb).
  - exact (repr_mono h h' Hsub _ _ Hm).
Qed.

End StoreRefinement.


(** ** The rules of the inference *)

Section InferenceFacts.
Context `{Chunker}.
Import Re ReFacts PatternFacts.

Lemma lookup_cond_insert (b : bool) (k k' : string) (v : value) (d : dict) :
  k' <> k -> (if b then <[k' := v]> d else d) !! k = d !! k.
Proof. intros Hne. destruct b; [now apply lookup_insert_ne | reflexivity]. Qed.

(** The duration that the video rules leave. *)
Lemma video_duration_lookup t lower d :
  video_rules t lower d !! "duration"
  = Some (VInt match search duration_re lower with
               | Some m =>
                   if Str.startswith (lit "m") (group m 2)
                   then Str.int (group m 1) * 60
                   else Str.int (group m 1)
               | None => 8
               end%Z).
Proof.
  unfold video_rules. cbv zeta.
  rewrite !lookup_cond_insert by discriminate.
  destruct (search duration_re lower) as [m|].
  - destruct (Str.startswith _ _); apply lookup_insert_eq.
  - unfold dict_update. simpl.
    rewrite !lookup_insert_ne by discriminate. apply lookup_insert_eq.
Qed.

(** The style that the video rules leave. *)
Lemma video_style_lookup t lower d :
  video_rules t lower d !! "style"
  = Some (vstr
            (if any_in ["cartoon"; "2d"; "anime"; "cel-shaded"] lower
             then "cartoon"
             else if any_in ["cinematic"; "film"; "8k"; "ultra realistic";
                             "photorealistic"] lower
             then "cinematic_photorealistic"
             else "cinematic")).
Proof.
  unfold video_rules. cbv zeta.
  destruct (any_in ["cartoon"; "2d"; "anime"; "cel-shaded"] lower);
    [apply lookup_insert_eq|].
  destruct (any_in ["cinematic"; "film"; "8k"; "ultra realistic";
                    "photorealistic"] lower);
    [apply lookup_insert_eq|].
  rewrite !lookup_cond_insert by discriminate.
  destruct (search duration_re lower) as [m|];
    [destruct (Str.startswith _ _)|];
    unfold dict_update; simpl;
    rewrite !lookup_insert_ne by discriminate; apply lookup_insert_eq.
Qed.

(** The size that the image rules leave. *)
Lemma image_size_lookup text t lower d :
  image_rules text t lower d !! "size"
  = Some match search size_re text with
         | Some m => VStr (group m 1 ++ lit "x" ++ group m 2)
         | None => vstr "1024x1024"
         end.
Proof.
  unfold image_rules. cbv zeta.
  rewrite !lookup_cond_insert by discriminate.
  destruct (Str.contains (lit "cinematic") lower);
    rewrite ?lookup_insert_ne by discriminate;
    (destruct (search size_re text) as [m|]; [apply lookup_insert_eq|]);
    unfold dict_update; simpl;
    rewrite !lookup_insert_ne by discriminate; apply lookup_insert_eq.
Qed.

(** The prompt that the image rules leave. *)
Lemma image_prompt_lookup text t lower d :
  image_rules text t lower d !! "prompt"
  = Some (VStr (Textwrap.shorten t 1000 (lit "..."))).
Proof.
  unfold image_rules. cbv zeta.
  rewrite !lookup_cond_insert by discriminate.
  destruct (Str.contains (lit "cinematic") lower);
    rewrite ?lookup_insert_ne by discriminate;
    (destruct (search size_re text) as [m|];
     [rewrite lookup_insert_ne by discriminate|]);
    unfold dict_update; simpl;
    rewrite !lookup_insert_ne by discriminate; apply lookup_insert_eq.
Qed.

Lemma not_at_none (at_ : pystr -> Prop) r s n :
  (forall u, ~ at_ u -> match_ r u = None) ->
  (forall i, i < n -> ~ at_ (drop i s)) ->
  forall i, i < n -> match_ r (drop i s) = None.
Proof. intros Hnone Hno i Hi. apply Hnone, Hno, Hi. Qed.

End InferenceFacts.

(** ** More on the merge *)

Section MergeMore.

Implicit Types base manual : dict.

Lemma vdepth_lookup (m : dict) k v :
  m !! k = Some v -> vdepth v < vdepth (VDict m).
Proof.
  simpl. revert k v.
  apply (map_fold_weak_ind
           (fun r (m : dict) => forall k v, m !! k = Some v -> vdepth v < S r)).
  - intros k v. now rewrite lookup_empty.
  - intros i x m0 r Hfresh IH k v.
    destruct (decide (i = k)) as [->|Hne].
    + rewrite lookup_insert_eq. intros [= ->]. lia.
    + rewrite lookup_insert_ne by assumption. intros Hk.
      specialize (IH k v Hk). lia.
Qed.

(** Merging a mapping into itself changes nothing. *)
Lemma merge_self n : forall m : dict,
  vdepth (VDict m) <= n -> merge_manual_fields m m = m.
Proof.
  induction n as [|n IH]; intros m Hn; [simpl in Hn; lia|].
  apply (map_eq (M := gmap string)). intros k. rewrite merge_lookup.
  unfold merged_at. destruct (m !! k) as [v|] eqn:E; [|reflexivity].
  destruct (skipped v); [reflexivity|].
  destruct v; try reflexivity.
  rewrite IH; [reflexivity|].
  apply vdepth_lookup in E. lia.
Qed.

Lemma merge_twice n : forall base manual,
  vdepth (VDict manual) <= n ->
  merge_manual_fields (merge_manual_fields base manual) manual
  = merge_manual_fields base manual.
Proof.
  induction n as [|n IH]; intros base manual Hn; [simpl in Hn; lia|].
  apply (map_eq (M := gmap string)). intros k.
  rewrite (merge_lookup (merge_manual_fields base manual)).
  destruct (manual !! k) as [v|] eqn:E; [|reflexivity].
  simpl. destruct (skipped v) eqn:Hs; [reflexivity|].
  pose proof (vdepth_lookup _ _ _ E) as Hd.
  rewrite merge_lookup, E. simpl. rewrite Hs.
  destruct v; try reflexivity.
  destruct (base !! k) as [[]|]; try (rewrite (merge_self n); [reflexivity|lia]).
  rewrite IH; [reflexivity|lia].
Qed.

(** A single merge puts every non-empty leaf of the overrides at its
    path. *)
Lemma merge_at_path path : forall base manual v,
  at_path path manual = Some v -> skipped v = false -> is_dict v = false ->
  at_path path (merge_manual_fields base manual) = Some v.
Proof.
  induction path as [|k path IH]; intros base manual v Hp Hs Hd;
    [discriminate|].
  destruct path as [|k' path'].
  - simpl in *. now apply merge_lookup_scalar.
  - change (at_path (k :: k' :: path') manual)
      with (match manual !! k with
            | Some (VDict m') => at_path (k' :: path') m'
            | _ => None
            end) in Hp.
    change (at_path (k :: k' :: path') (merge_manual_fields base manual))
      with (match merge_manual_fields base manual !! k with
            | Some (VDict m') => at_path (k' :: path') m'
            | _ => None
            end).
    destruct (manual !! k) as [[| | | | | |vm]|] eqn:E; try discriminate.
    rewrite merge_lookup, E. simpl.
    destruct (base !! k) as [[]|]; try exact Hp.
    now apply IH.
Qed.

Lemma merge_lookup_is_Some base manual k :
  is_Some (merge_manual_fields base manual !! k)
  <-> is_Some (base !! k)
      \/ exists v, manual !! k = Some v /\ skipped v = false.
Proof.
  rewrite merge_lookup. unfold merged_at.
  destruct (manual !! k) as [v|] eqn:E.
  - destruct (skipped v) eqn:Hs.
    + split; [now left|]. intros [?|(w & [= <-] & Hw)]; [assumption|congruence].
    + split.
      * intros _. right. eauto.
      * intros _. destruct v; eauto. destruct (base !! k) as [[]|]; eauto.
  - split; [now left|]. now intros [?|(w & [=] & _)].
Qed.

End MergeMore.

(** ** More on the rules of the inference *)

Section InferenceMore.
Context `{Chunker}.
Import Re ReFacts PatternFacts.

Lemma list_extend_ne k k' items (d : dict) :
  k' <> k -> list_extend k' items d !! k = d !! k.
Proof.
  intros Hne. unfold list_extend.
  destruct (d !! k') as [[]|]; try reflexivity. now apply lookup_insert_ne.
Qed.

Lemma list_extend_eq k items (d : dict) l :
  d !! k = Some (VList l) ->
  list_extend k items d !! k = Some (VList (l ++ items)).
Proof. intros E. unfold list_extend. rewrite E. apply lookup_insert_eq. Qed.

Lemma lookup_cond_extend (b : bool) k k' items (d : dict) :
  k' <> k -> (if b then list_extend k' items d else d) !! k = d !! k.
Proof. intros Hne. destruct b; [now apply list_extend_ne | reflexivity]. Qed.

(** Reading a key through the assignments of a rule: an assignment to
    another key is skipped, a test that guards an assignment to the key
    itself is split. *)
Ltac read_rules :=
  unfold dict_update; cbn [foldl];
  repeat first
    [ rewrite lookup_insert_eq
    | rewrite lookup_insert_ne by discriminate
    | rewrite lookup_cond_insert by discriminate
    | rewrite lookup_cond_extend by discriminate
    | rewrite list_extend_ne by discriminate
    | erewrite list_extend_eq by read_rules
    | match goal with
      | |- context [(if ?b then _ else _) !! _] => destruct b eqn:?
      | |- context [(match ?o with Some _ => _ | None => _ end) !! _] =>
          destruct o eqn:?
      end ];
  try reflexivity.

Lemma video_meta_lookup t lower d :
  video_rules t lower d !! "meta" = d !! "meta".
Proof. unfold video_rules. cbv zeta. read_rules. Qed.

Lemma image_meta_lookup text t lower d :
  image_rules text t lower d !! "meta" = d !! "meta".
Proof. unfold image_rules. cbv zeta. read_rules. Qed.

Lemma code_meta_lookup t lower d :
  code_rules t lower d !! "meta" = d !! "meta".
Proof. unfold code_rules. cbv zeta. read_rules. Qed.

Lemma video_scene_lookup t lower d :
  video_rules t lower d !! "scene_description"
  = Some (VStr (Textwrap.shorten t 600 (lit "..."))).
Proof. unfold video_rules. cbv zeta. read_rules. Qed.

Lemma video_aspect_lookup t lower d :
  video_rules t lower d !! "aspect_ratio"
  = Some (vstr (if Str.contains (lit "vertical") lower
                   || Str.contains (lit "tiktok") lower
                   || Str.contains (lit "9:16") lower
                then "9:16" else "16:9")).
Proof. unfold video_rules. cbv zeta. read_rules. Qed.



Lemma image_quality_lookup text t lower d :
  image_rules text t lower d !! "quality" = Some (vstr "high").
Proof. unfold image_rules. cbv zeta. read_rules. Qed.

Lemma image_style_lookup text t lower d :
  image_rules text t lower d !! "style"
  = Some (vstr (if Str.contains (lit "illustration") lower
                   || Str.contains (lit "vector") lower
                then "illustration"
                else if Str.contains (lit "cinematic") lower
                then "cinematic" else "photorealistic")).
Proof. unfold image_rules. cbv zeta. read_rules. Qed.

Lemma image_composition_lookup text t lower d :
  image_rules text t lower d !! "composition"
  = Some (vstr (if Str.contains (lit "cinematic") lower
                then "wide" else "centered_subject")).
Proof. unfold image_rules. cbv zeta. read_rules. Qed.

Lemma code_task_lookup t lower d :
  code_rules t lower d !! "task"
  = Some (VStr (Textwrap.shorten t 1000 (lit "..."))).
Proof. unfold code_rules. cbv zeta. read_rules. Qed.

Lemma code_language_lookup t lower d :
  code_rules t lower d !! "language"
  = Some (vstr (if Str.contains (lit "python") lower
                   || Str.contains (lit "py ") lower
                then "python"
                else if Str.contains (lit "javascript") lower
                        || Str.contains (lit "js ") lower
                then "javascript"
                else if Str.contains (lit "r ") lower
                        || Str.contains (lit "rstudio") lower
                then "r"
                else "python")).
Proof.
  unfold code_rules. cbv zeta. read_rules.
  repeat match goal with
         | |- context [if ?b then _ else _] => destruct b
         end; reflexivity.
Qed.

Lemma code_requirements_lookup t lower d :
  code_rules t lower d !! "requirements"
  = Some (VList ((if Str.contains (lit "scrape") lower
                     || Str.contains (lit "scraping") lower
                  then [vstr "requests"; vstr "beautifulsoup4"] else [])
                 ++ (if Str.contains (lit "pandas") lower
                        || Str.contains (lit "dataframe") lower
                     then [vstr "pandas"] else []))).
Proof.
  unfold code_rules. cbv zeta.
  destruct (Str.contains (lit "scrape") lower
            || Str.contains (lit "scraping") lower);
    destruct (Str.contains (lit "pandas") lower
              || Str.contains (lit "dataframe") lower);
    read_rules.
Qed.

End InferenceMore.

(** ** The inference as a call *)

Section CallFacts.
Context `{Chunker}.
Import Re ReFacts PatternFacts.

Lemma int_raises_true s : int_raises s = true <-> 4300 < length s.
Proof. unfold int_raises, int_max_str_digits. apply Nat.ltb_lt. Qed.

Lemma int_raises_false s : int_raises s = false <-> length s <= 4300.
Proof. unfold int_raises, int_max_str_digits. apply Nat.ltb_ge. Qed.

(** A call for another tool than the video tool returns. *)
Lemma call_other_tool utcnow tool text :
  tool <> "veo3_video"%string ->
  natural_to_template_call utcnow tool text
  = Some (natural_to_template utcnow tool text).
Proof.
  intros Hv. unfold natural_to_template_call.
  apply String.eqb_neq in Hv. now rewrite Hv.
Qed.

Lemma call_video utcnow text :
  natural_to_template_call utcnow "veo3_video" text
  = match search duration_re (Str.lower (Str.strip text)) with
    | Some m =>
        if int_raises (group m 1) then None
        else Some (natural_to_template utcnow "veo3_video" text)
    | None => Some (natural_to_template utcnow "veo3_video" text)
    end.
Proof.
  unfold natural_to_template_call. cbv zeta.
  change (String.eqb "veo3_video" "veo3_video") with true. cbv iota.
  destruct (search duration_re _) as [m|]; [|reflexivity].
  now destruct (int_raises (group m 1)).
Qed.

(** Whatever a call returns is the template of [natural_to_template]. *)
Lemma call_returns utcnow tool text template :
  natural_to_template_call utcnow tool text = Some template ->
  template = natural_to_template utcnow tool text.
Proof.
  unfold natural_to_template_call.
  destruct (_ && _); [discriminate | now intros [= <-]].
Qed.

(** When a call raises: for the video tool, on a duration of more than
    4300 digits. *)
Lemma call_raises utcnow tool text :
  natural_to_template_call utcnow tool text = None
  <-> tool = "veo3_video"%string
      /\ exists m, search duration_re (Str.lower (Str.strip text)) = Some m
                   /\ 4300 < length (group m 1).
Proof.
  unfold natural_to_template_call. cbv zeta.
  destruct (String.eqb_spec tool "veo3_video") as [->|Hne]; simpl andb.
  - destruct (search duration_re _) as [m|].
    + destruct (int_raises (group m 1)) eqn:E.
      * apply int_raises_true in E. split; [|reflexivity].
        intros _. split; [reflexivity|]. now exists m.
      * apply int_raises_false in E. split; [discriminate|].
        intros (_ & m' & [= <-] & Hl). lia.
    + split; [discriminate|]. now intros (_ & m & Hm & _).
  - split; [discriminate|]. now intros [Ht _].
Qed.

End CallFacts.

(** ** Groups of the two patterns, lengths of shortened texts *)

Section TemplateFacts.
Context `{Chunker}.
Import Re ReFacts PatternFacts Textwrap TextwrapFacts.





Lemma digit_val_nonneg c : Char.is_digit c = true -> (0 <= Str.digit_val c)%Z.
Proof.
  unfold Char.is_digit, Char.between, Str.digit_val.
  rewrite andb_true_iff, !N.leb_le. lia.
Qed.

Lemma int_digits_nonneg ds : all_in Char.is_digit ds -> (0 <= Str.int ds)%Z.
Proof.
  intros Hds. unfold Str.int.
  assert (Hgen : forall acc, (0 <= acc)%Z ->
            (0 <= fold_left (fun a c => 10 * a + Str.digit_val c) ds acc)%Z).
  { induction Hds as [|c ds Hc _ IH]; intros acc Hacc; simpl; [exact Hacc|].
    apply IH. pose proof (digit_val_nonneg c Hc). lia. }
  now apply Hgen.
Qed.

(** The groups of a match of [duration_re]: the digits, and the first
    letter of the unit. *)
Lemma duration_match_groups s g :
  match_ duration_re s = Some g ->
  exists ds, ds <> [] /\ all_in Char.is_digit ds /\ group g 1 = ds
             /\ (group g 2 = lit "s" \/ group g 2 = lit "m").
Proof.
  unfold match_, duration_re. cbn [run]. intros Hm.
  apply rep_sound in Hm as (ds & s1 & -> & Hds & Hlo & _ & Hm).
  rewrite take_consumed in Hm.
  apply rep_sound in Hm as (ws & s2 & -> & Hws & _ & _ & Hm).
  rewrite (run_alts _ _ _
             (fun s' g' => <[2 := take (length s2 - length s') s2]> g'))
    in Hm.
  rewrite find_unit in Hm.
  exists ds. split; [destruct ds; [simpl in Hlo; lia | discriminate]|].
  split; [exact Hds|].
  destruct s2 as [|c s2]; [discriminate|]. unfold unit_letter in Hm.
  assert (Hone : forall a, take (S (length s2) - length (drop 0 s2))
                             (a :: s2) = [a]).
  { intros a. rewrite drop_0.
    replace (S (length s2) - length s2) with 1 by lia. reflexivity. }
  destruct (Ascii.eqb c "s") eqn:Es.
  - apply Ascii.eqb_eq in Es as ->. injection Hm as <-.
    rewrite Hone. unfold group.
    rewrite lookup_insert_ne by discriminate. rewrite !lookup_insert_eq.
    split; [reflexivity|]. left. reflexivity.
  - destruct (Ascii.eqb c "m") eqn:Em; [|discriminate].
    apply Ascii.eqb_eq in Em as ->. injection Hm as <-.
    rewrite Hone. unfold group.
    rewrite lookup_insert_ne by discriminate. rewrite !lookup_insert_eq.
    split; [reflexivity|]. right. reflexivity.
Qed.

(** The groups of a match of [size_re]. *)
Lemma size_match_groups s g :
  match_ size_re s = Some g ->
  all_in Char.is_digit (group g 1) /\ 3 <= length (group g 1) <= 4
  /\ all_in Char.is_digit (group g 2) /\ 3 <= length (group g 2) <= 4.
Proof.
  unfold match_, size_re. cbn [run]. intros Hm.
  apply rep_sound in Hm as (d1 & s1 & -> & Hd1 & Hlo1 & Hhi1 & Hm).
  rewrite take_consumed in Hm.
  apply rep_sound in Hm as (ws1 & s2 & -> & Hws1 & _ & _ & Hm).
  destruct s2 as [|sep s3]; [discriminate|].
  destruct (is_times sep) eqn:Hsep; [|discriminate].
  apply rep_sound in Hm as (ws2 & s4 & -> & Hws2 & _ & _ & Hm).
  apply rep_sound in Hm as (d2 & rest & -> & Hd2 & Hlo2 & Hhi2 & Hm).
  rewrite take_consumed in Hm. injection Hm as <-.
  specialize (Hhi1 4 eq_refl). specialize (Hhi2 4 eq_refl).
  unfold group. rewrite lookup_insert_eq.
  rewrite lookup_insert_ne by discriminate. rewrite lookup_insert_eq.
  simpl. repeat split; try assumption; lia.
Qed.

Lemma search_groups (P : groups -> Prop) r s g :
  (forall u g', match_ r u = Some g' -> P g') ->
  search r s = Some g -> P g.
Proof.
  intros HP Hs. apply search_sound in Hs as [i Hi]. exact (HP _ _ Hi).
Qed.

End TemplateFacts.

(** ** Templates through their rules *)

Section TemplateLookups.
Context `{Chunker}.
Import Re ReFacts PatternFacts Textwrap TextwrapFacts.

Lemma contains_false w s : Str.contains w s = false <-> ~ occurs w s.
Proof.
  rewrite <- contains_spec. destruct (Str.contains w s); split; congruence.
Qed.

Lemma or_contains a b s :
  Str.contains a s || Str.contains b s = true <-> occurs a s \/ occurs b s.
Proof. now rewrite orb_true_iff, !contains_spec. Qed.

Lemma or_contains_false a b s :
  Str.contains a s || Str.contains b s = false
  <-> ~ occurs a s /\ ~ occurs b s.
Proof. now rewrite orb_false_iff, !contains_false. Qed.


Lemma template_video utcnow text :
  natural_to_template utcnow "veo3_video" text
  = video_rules (Str.strip text) (Str.lower (Str.strip text))
      {["meta" := VDict (<["created_at" := VStr (utcnow ++ lit "Z")]>
                           {["source_text" := VStr text]})]}.
Proof. reflexivity. Qed.

Lemma template_image utcnow text :
  natural_to_template utcnow "image" text
  = image_rules text (Str.strip text) (Str.lower (Str.strip text))
      {["meta" := VDict (<["created_at" := VStr (utcnow ++ lit "Z")]>
                           {["source_text" := VStr text]})]}.
Proof. reflexivity. Qed.

Lemma template_code utcnow text :
  natural_to_template utcnow "code" text
  = code_rules (Str.strip text) (Str.lower (Str.strip text))
      {["meta" := VDict (<["created_at" := VStr (utcnow ++ lit "Z")]>
                           {["source_text" := VStr text]})]}.
Proof. reflexivity. Qed.

Lemma template_other utcnow tool text :
  tool <> "veo3_video"%string -> tool <> "image"%string ->
  tool <> "code"%string ->
  natural_to_template utcnow tool text
  = dict_update
      {["meta" := VDict (<["created_at" := VStr (utcnow ++ lit "Z")]>
                           {["source_text" := VStr text]})]}
      [("prompt", VStr (Str.strip text)); ("style", vstr "neutral");
       ("quality", vstr "standard"); ("constraints", VList [])].
Proof.
  intros Hv Hi Hc. unfold natural_to_template.
  apply String.eqb_neq in Hv, Hi, Hc. now rewrite Hv, Hi, Hc.
Qed.

(** The four branches of the inference, for a statement about every
    tool. *)
Lemma template_cases (P : string -> Prop) :
  P "veo3_video"%string -> P "image"%string -> P "code"%string ->
  (forall tool, tool <> "veo3_video"%string -> tool <> "image"%string ->
                tool <> "code"%string -> P tool) ->
  forall tool, P tool.
Proof.
  intros Hv Hi Hc Ho tool.
  destruct (decide (tool = "veo3_video"%string)) as [->|?]; [exact Hv|].
  destruct (decide (tool = "image"%string)) as [->|?]; [exact Hi|].
  destruct (decide (tool = "code"%string)) as [->|?]; [exact Hc|].
  now apply Ho.
Qed.

(** A tool name without a schema of its own is checked against the
    schema of [other]. *)
Lemma schema_of_unknown tool :
  tool <> "veo3_video"%string -> tool <> "image"%string ->
  tool <> "code"%string ->
  schema_of tool = schema_of "other".
Proof.
  intros Hv Hi Hc.
  destruct (decide (tool = "other"%string)) as [->|Ho]; [reflexivity|].
  unfold schema_of at 1.
  replace (SCHEMAS !! tool) with (@None value); [reflexivity|].
  symmetry. unfold SCHEMAS. cbn [list_to_map foldr fst snd].
  do 4 (rewrite lookup_insert_ne by congruence). apply lookup_empty.
Qed.

Lemma template_meta utcnow tool text :
  natural_to_template utcnow tool text !! "meta"
  = Some (VDict (<["created_at" := VStr (utcnow ++ lit "Z")]>
                   {["source_text" := VStr text]})).
Proof.
  pattern tool. apply template_cases; clear tool; cbv beta.
  - rewrite template_video, video_meta_lookup. apply lookup_singleton_eq.
  - rewrite template_image, image_meta_lookup. apply lookup_singleton_eq.
  - rewrite template_code, code_meta_lookup. apply lookup_singleton_eq.
  - intros tool Hv Hi Hc. rewrite template_other by assumption.
    unfold dict_update. cbn [foldl].
    rewrite !lookup_insert_ne by discriminate. apply lookup_singleton_eq.
Qed.

(** Every field a schema requires is set by the rules of its tool. *)
Lemma required_in_template (utcnow : pystr) (tool : string) (text : pystr)
    (field : string) :
  In field (required (schema_of tool)) ->
  is_Some (natural_to_template utcnow tool text !! field).
Proof.
  pattern tool. apply template_cases; clear tool; cbv beta.
  - assert (E : required (schema_of "veo3_video")
                = ["scene_description"; "duration"; "aspect_ratio";
                   "style"]%string) by (vm_compute; reflexivity).
    rewrite E, template_video. intros Hin.
    repeat destruct Hin as [<-|Hin]; try contradiction.
    + now rewrite video_scene_lookup.
    + now rewrite video_duration_lookup.
    + now rewrite video_aspect_lookup.
    + now rewrite video_style_lookup.
  - assert (E : required (schema_of "image")
                = ["prompt"; "size"; "quality"]%string)
      by (vm_compute; reflexivity).
    rewrite E, template_image. intros Hin.
    repeat destruct Hin as [<-|Hin]; try contradiction.
    + now rewrite image_prompt_lookup.
    + now rewrite image_size_lookup.
    + now rewrite image_quality_lookup.
  - assert (E : required (schema_of "code")
                = ["task"; "language"; "requirements"]%string)
      by (vm_compute; reflexivity).
    rewrite E, template_code. intros Hin.
    repeat destruct Hin as [<-|Hin]; try contradiction.
    + now rewrite code_task_lookup.
    + now rewrite code_language_lookup.
    + now rewrite code_requirements_lookup.
  - intros tool Hv Hi Hc.
    assert (E : required (schema_of tool) = []).
    { rewrite schema_of_unknown by assumption. vm_compute. reflexivity. }
    rewrite E. intros [].
Qed.

End TemplateLookups.

(** ** Templates that agree outside some keys *)

Section AgreeFacts.

Lemma agree_insert X k v d1 d2 :
  agree X d1 d2 -> agree X (<[k := v]> d1) (<[k := v]> d2).
Proof.
  intros Ha k' Hk'. destruct (decide (k = k')) as [->|Hne].
  - now rewrite !lookup_insert_eq.
  - rewrite !lookup_insert_ne by exact Hne. now apply Ha.
Qed.

Lemma agree_insert_skip X k v1 v2 d1 d2 :
  In k X -> agree X d1 d2 -> agree X (<[k := v1]> d1) (<[k := v2]> d2).
Proof.
  intros Hk Ha k' Hk'. rewrite !lookup_insert_ne by congruence.
  now apply Ha.
Qed.

Lemma agree_insert_l X k v d1 d2 :
  In k X -> agree X d1 d2 -> agree X (<[k := v]> d1) d2.
Proof.
  intros Hk Ha k' Hk'. rewrite lookup_insert_ne by congruence. now apply Ha.
Qed.

Lemma agree_insert_r X k v d1 d2 :
  In k X -> agree X d1 d2 -> agree X d1 (<[k := v]> d2).
Proof.
  intros Hk Ha k' Hk'. rewrite lookup_insert_ne by congruence. now apply Ha.
Qed.

Lemma agree_singleton_skip X k (v1 v2 : value) :
  In k X -> agree X {[k := v1]} {[k := v2]}.
Proof.
  intros Hk k' Hk'. now rewrite !lookup_singleton_ne by congruence.
Qed.

Lemma agree_cond_insert X (b : bool) k v d1 d2 :
  agree X d1 d2 ->
  agree X (if b then <[k := v]> d1 else d1) (if b then <[k := v]> d2 else d2).
Proof. intros Ha. destruct b; [now apply agree_insert | exact Ha]. Qed.

Lemma agree_extend X k items d1 d2 :
  ~ In k X -> agree X d1 d2 ->
  agree X (list_extend k items d1) (list_extend k items d2).
Proof.
  intros Hk Ha. unfold list_extend. rewrite <- (Ha k Hk).
  destruct (d1 !! k) as [[]|]; try exact Ha. now apply agree_insert.
Qed.

Lemma agree_cond_extend X (b : bool) k items d1 d2 :
  ~ In k X -> agree X d1 d2 ->
  agree X (if b then list_extend k items d1 else d1)
    (if b then list_extend k items d2 else d2).
Proof. intros Hk Ha. destruct b; [now apply agree_extend | exact Ha]. Qed.

End AgreeFacts.

Section AgreeRules.
Context `{Chunker}.

Ltac agree_rules :=
  unfold dict_update; cbn [foldl];
  repeat first
    [ assumption
    | apply agree_cond_insert
    | apply agree_cond_extend; [simpl; intuition discriminate|]
    | apply agree_insert
    | apply agree_insert_skip; [simpl; tauto|]
    | match goal with
      | |- agree _ (if ?b then _ else _) _ => destruct b
      | |- agree _ (match ?o with Some _ => _ | None => _ end) _ =>
          destruct o
      end ].

Lemma video_rules_agree X t1 t2 lower d1 d2 :
  In "scene_description"%string X -> agree X d1 d2 ->
  agree X (video_rules t1 lower d1) (video_rules t2 lower d2).
Proof. intros Hs Ha. unfold video_rules. cbv zeta. agree_rules. Qed.

Lemma image_rules_agree X text1 text2 t1 t2 lower d1 d2 :
  In "prompt"%string X -> In "size"%string X -> agree X d1 d2 ->
  agree X (image_rules text1 t1 lower d1) (image_rules text2 t2 lower d2).
Proof.
  intros Hp Hs Ha. unfold image_rules. cbv zeta.
  repeat first [apply agree_cond_insert | apply agree_insert].
  - destruct (Str.contains (lit "cinematic") lower); agree_rules.
    all: destruct (Re.search size_re text1), (Re.search size_re text2);
      repeat first [apply agree_insert_skip; [assumption|]
                   |apply agree_insert_l; [assumption|]
                   |apply agree_insert_r; [assumption|]];
      agree_rules.
Qed.

Lemma code_rules_agree X t1 t2 lower d1 d2 :
  In "task"%string X -> ~ In "requirements"%string X -> agree X d1 d2 ->
  agree X (code_rules t1 lower d1) (code_rules t2 lower d2).
Proof. intros Ht Hr Ha. unfold code_rules. cbv zeta. agree_rules. Qed.

End AgreeRules.

(** ** The order of the report *)

Section SortFacts.

Lemma str_le_refl s : str_le s s = true.
Proof.
  induction s as [|c s IH]; [reflexivity|]. simpl.
  now rewrite N.ltb_irrefl.
Qed.

Lemma str_le_total s1 s2 : str_le s1 s2 = false -> str_le s2 s1 = true.
Proof.
  revert s2. induction s1 as [|a s1 IH]; intros [|b s2]; simpl;
    try congruence.
  destruct (N.ltb_spec (Char.code a) (Char.code b)); [discriminate|].
  destruct (N.ltb_spec (Char.code b) (Char.code a)); [reflexivity|].
  apply IH.
Qed.

Lemma str_le_trans s1 s2 s3 :
  str_le s1 s2 = true -> str_le s2 s3 = true -> str_le s1 s3 = true.
Proof.
  revert s2 s3.
  induction s1 as [|a s1 IH]; intros [|b s2] [|c s3]; simpl;
    try congruence.
  destruct (N.ltb_spec (Char.code a) (Char.code b)),
    (N.ltb_spec (Char.code b) (Char.code a)),
    (N.ltb_spec (Char.code b) (Char.code c)),
    (N.ltb_spec (Char.code c) (Char.code b)),
    (N.ltb_spec (Char.code a) (Char.code c)),
    (N.ltb_spec (Char.code c) (Char.code a));
    try congruence; try lia.
  apply IH.
Qed.

Lemma insert_error_perm e errs : insert_error e errs ≡ₚ e :: errs.
Proof.
  induction errs as [|e' errs IH]; [reflexivity|]. simpl.
  destruct (str_le (err_str e) (err_str e')); [reflexivity|].
  rewrite IH. apply perm_swap.
Qed.

Lemma sorted_errors_perm errs : sorted_errors errs ≡ₚ errs.
Proof.
  induction errs as [|e errs IH]; [reflexivity|].
  unfold sorted_errors in *. simpl. rewrite insert_error_perm.
  now constructor.
Qed.

Lemma insert_error_sorted e errs :
  StronglySorted by_text errs -> StronglySorted by_text (insert_error e errs).
Proof.
  induction 1 as [|e' errs Hs IH Hall]; simpl.
  - repeat constructor.
  - destruct (str_le (err_str e) (err_str e')) eqn:E.
    + constructor; [now constructor|]. constructor; [exact E|].
      eapply Forall_impl; [exact Hall|]. intros x Hx.
      unfold by_text in *. now apply (str_le_trans _ (err_str e')).
    + constructor; [exact IH|].
      rewrite (Forall_forall (by_text e')). intros x Hx.
      rewrite (insert_error_perm e errs) in Hx.
      apply elem_of_cons in Hx as [->|Hx].
      * now apply str_le_total.
      * rewrite Forall_forall in Hall. now apply Hall.
Qed.

Lemma sorted_errors_sorted errs : StronglySorted by_text (sorted_errors errs).
Proof.
  induction errs as [|e errs IH]; [constructor|].
  unfold sorted_errors in *. simpl. now apply insert_error_sorted.
Qed.

(** Inserting keeps the errors of each text in the order they had. *)
Lemma insert_error_with_text s e errs :
  StronglySorted by_text errs ->
  with_text s (insert_error e errs) = with_text s (e :: errs).
Proof.
  unfold with_text.
  induction 1 as [|e' errs Hs IH Hall]; [reflexivity|]. simpl.
  destruct (str_le (err_str e) (err_str e')) eqn:E; [reflexivity|].
  rewrite !filter_cons in *. rewrite IH.
  destruct (decide (err_str e = s)) as [Ee|Ee]; [|reflexivity].
  destruct (decide (err_str e' = s)) as [Ee'|Ee']; [|reflexivity].
  rewrite Ee, Ee', str_le_refl in E. discriminate.
Qed.

Lemma sorted_errors_with_text s errs :
  with_text s (sorted_errors errs) = with_text s errs.
Proof.
  induction errs as [|e errs IH]; [reflexivity|].
  unfold sorted_errors in *. simpl.
  rewrite insert_error_with_text by apply sorted_errors_sorted.
  unfold with_text in *. rewrite !filter_cons. now rewrite IH.
Qed.

Lemma validate_schema_available check validator tool data :
  validate_schema {| validate := Some check;
                     Draft7Validator := Some validator |} tool data
  = map report_line (sorted_errors (validator (schema_of tool) data)).
Proof. reflexivity. Qed.

End SortFacts.

(** ** The generation of a prompt *)

Section GenerationFacts.
Context `{Chunker}.

Lemma stamp_meta_spec tool utcnow merged :
  stamp_meta tool utcnow merged
  = match merged !! "meta" with
    | Some (VDict meta) =>
        Some (<["meta" := VDict (<["generated_at" := VStr (utcnow ++ lit "Z")]>
                                   (<["tool_target" := vstr tool]> meta))]>
                merged)
    | Some _ => None
    | None =>
        Some (<["meta" := VDict (<["generated_at" := VStr (utcnow ++ lit "Z")]>
                                   {["tool_target" := vstr tool]})]>
                merged)
    end.
Proof.
  unfold stamp_meta. destruct (merged !! "meta") as [v|] eqn:E.
  - rewrite E. reflexivity.
  - rewrite lookup_insert_eq. now rewrite insert_insert_eq.
Qed.

Lemma stamp_meta_other tool utcnow merged stamped k :
  stamp_meta tool utcnow merged = Some stamped ->
  k <> "meta"%string -> stamped !! k = merged !! k.
Proof.
  rewrite stamp_meta_spec. intros Hs Hk.
  destruct (merged !! "meta") as [[]|]; try discriminate;
    injection Hs as <-; now rewrite lookup_insert_ne by congruence.
Qed.

Lemma stamp_meta_keeps tool utcnow merged stamped k :
  stamp_meta tool utcnow merged = Some stamped ->
  is_Some (merged !! k) -> is_Some (stamped !! k).
Proof.
  intros Hs Hk. destruct (decide (k = "meta"%string)) as [->|Hne].
  - rewrite stamp_meta_spec in Hs.
    destruct (merged !! "meta") as [[]|]; try discriminate;
      injection Hs as <-; rewrite lookup_insert_eq; eauto.
  - now rewrite (stamp_meta_other _ _ _ _ _ Hs Hne).
Qed.

Lemma stamp_meta_at tool utcnow merged stamped :
  stamp_meta tool utcnow merged = Some stamped ->
  exists meta,
    stamped !! "meta" = Some (VDict meta)
    /\ meta !! "tool_target" = Some (vstr tool)
    /\ meta !! "generated_at" = Some (VStr (utcnow ++ lit "Z"))
    /\ forall k, k <> "tool_target"%string -> k <> "generated_at"%string ->
         meta !! k = match merged !! "meta" with
                     | Some (VDict old) => old !! k
                     | _ => None
                     end.
Proof.
  rewrite stamp_meta_spec. intros Hs.
  destruct (merged !! "meta") as [[]|]; try discriminate;
    injection Hs as <-; eexists; (split; [apply lookup_insert_eq|]).
  - split; [now rewrite lookup_insert_ne, lookup_insert_eq by discriminate|].
    split; [now rewrite lookup_insert_eq|].
    intros k H1 H2. now rewrite !lookup_insert_ne by congruence.
  - split; [now rewrite lookup_insert_ne, lookup_singleton_eq by discriminate|].
    split; [now rewrite lookup_insert_eq|].
    intros k H1 H2. rewrite lookup_insert_ne by congruence.
    now rewrite lookup_singleton_ne by congruence.
Qed.

(** The form never fills [meta]. *)
Lemma manual_overrides_meta tool w : manual_overrides tool w !! "meta" = None.
Proof.
  unfold manual_overrides.
  destruct (String.eqb tool "veo3_video");
    [|destruct (String.eqb tool "image");
      [|destruct (String.eqb tool "code")]];
    unfold dict_update; cbn [foldl];
    rewrite !lookup_insert_ne by discriminate; apply lookup_empty.
Qed.

(** The [meta] of the merged dictionary, when the form leaves it alone. *)
Lemma merged_meta created tool text (enriched manual : dict) :
  manual !! "meta" = None ->
  merge_manual_fields
    (merge_manual_fields (natural_to_template created tool text) enriched)
    manual !! "meta"
  = merged_at (natural_to_template created tool text) "meta"
      (enriched !! "meta").
Proof. intros Hm. rewrite merge_lookup_absent by exact Hm. apply merge_lookup. Qed.

End GenerationFacts.

Section PathFacts.

Lemma at_path_head k path (m1 m2 : dict) :
  m1 !! k = m2 !! k -> at_path (k :: path) m1 = at_path (k :: path) m2.
Proof. intros E. destruct path; simpl; now rewrite E. Qed.

Lemma at_path_two k1 k2 (m inner : dict) :
  m !! k1 = Some (VDict inner) -> at_path [k1; k2] m = inner !! k2.
Proof. intros E. simpl. now rewrite E. Qed.

End PathFacts.

(** ** Words of a summary *)

Section SummaryFacts.

Lemma word_app w s : word w -> no_space s -> word (w ++ s).
Proof.
  intros [Hne Hw] Hs. split.
  - destruct w; [contradiction | discriminate].
  - apply Forall_app. now split.
Qed.

(** Text without white space added at the end of a single spaced text joins
    its last word. *)
Lemma split_join_app ws w s :
  Forall word ws -> word w -> no_space s ->
  Str.split (Str.join (lit " ") (ws ++ [w]) ++ s) = ws ++ [w ++ s].
Proof.
  intros Hws Hw Hs. induction Hws as [|w' ws Hw' Hws IH].
  - simpl. apply TextwrapFacts.split_word. now apply word_app.
  - change ((w' :: ws) ++ [w]) with (w' :: (ws ++ [w])).
    destruct (ws ++ [w]) as [|x xs] eqn:E.
    { destruct ws; discriminate. }
    change (Str.join (lit " ") (w' :: x :: xs))
      with (w' ++ lit " " ++ Str.join (lit " ") (x :: xs)).
    rewrite <- !app_assoc.
    rewrite TextwrapFacts.split_word_space by exact Hw'.
    now rewrite IH.
Qed.

Lemma slice_to_take {A} (n : nat) (xs : list A) :
  slice_to (Z.of_nat n) xs = take n xs.
Proof.
  unfold slice_to. destruct (Z.ltb_spec (Z.of_nat n) 0); [lia|].
  now rewrite Nat2Z.id.
Qed.

Lemma summarize_fits text (max_words : Z) :
  (Z.of_nat (length (Str.split text)) <= max_words)%Z ->
  summarize_text_local text max_words = Str.join (lit " ") (Str.split text).
Proof.
  intros Hle. unfold summarize_text_local, slice_to.
  destruct (Z.ltb_spec max_words 0); [lia|].
  destruct (Z.ltb_spec max_words (Z.of_nat (length (Str.split text))));
    [lia|].
  rewrite take_ge by lia. apply app_nil_r.
Qed.

Lemma summarize_cuts text (n : nat) :
  n < length (Str.split text) ->
  summarize_text_local text (Z.of_nat n)
  = Str.join (lit " ") (take n (Str.split text)) ++ lit "...".
Proof.
  intros Hlt. unfold summarize_text_local. rewrite slice_to_take.
  destruct (Z.ltb_spec (Z.of_nat n) (Z.of_nat (length (Str.split text))));
    [reflexivity | lia].
Qed.

Lemma dots_no_space : no_space (lit "...").
Proof. repeat constructor. Qed.

(** The words of a summary that was cut. *)
Lemma summarize_cuts_words text (n : nat) :
  n < length (Str.split text) ->
  Str.split (summarize_text_local text (Z.of_nat (S n)))
  = if decide (S n < length (Str.split text))
    then take n (Str.split text)
         ++ [default [] (Str.split text !! n) ++ lit "..."]
    else Str.split text.
Proof.
  intros Hlt. pose proof (TextwrapFacts.split_words text) as Hws.
  destruct (decide (S n < length (Str.split text))) as [Hcut|Hfit].
  - rewrite summarize_cuts by exact Hcut.
    destruct (lookup_lt_is_Some_2 (Str.split text) n Hlt) as [w Ew].
    rewrite (take_S_r _ _ _ Ew), Ew. simpl.
    apply split_join_app.
    + now apply Forall_take.
    + rewrite Forall_forall in Hws. apply Hws.
      now apply (list_elem_of_lookup_2 _ n).
    + exact dots_no_space.
  - rewrite summarize_fits by lia. now apply TextwrapFacts.split_join.
Qed.

End SummaryFacts.

Section SummaryWords.

Lemma join_app_last sep ws w (s : pystr) :
  Str.join sep (ws ++ [w ++ s]) = Str.join sep (ws ++ [w]) ++ s.
Proof.
  induction ws as [|x ws IH]; [reflexivity|].
  change ((x :: ws) ++ [w ++ s]) with (x :: (ws ++ [w ++ s])).
  change ((x :: ws) ++ [w]) with (x :: (ws ++ [w])).
  destruct (ws ++ [w ++ s]) as [|y ys] eqn:E1; [destruct ws; discriminate|].
  destruct (ws ++ [w]) as [|z zs] eqn:E2; [destruct ws; discriminate|].
  change (Str.join sep (x :: y :: ys)) with (x ++ sep ++ Str.join sep (y :: ys)).
  change (Str.join sep (x :: z :: zs)) with (x ++ sep ++ Str.join sep (z :: zs)).
  rewrite IH. now rewrite <- !app_assoc.
Qed.

Lemma split_blank text : Str.blank text = true -> Str.split text = [].
Proof.
  unfold Str.blank. intros Hb.
  rewrite <- TextwrapFacts.strip_split. now destruct (Str.strip text).
Qed.

(** A summary has at most [max_words] words, for [max_words] from 1 on. *)
Lemma summarize_words text (n : nat) :
  length (Str.split (summarize_text_local text (Z.of_nat (S n)))) <= S n.
Proof.
  destruct (Nat.le_gt_cases (length (Str.split text)) n) as [Hle|Hgt].
  - rewrite summarize_fits by lia.
    rewrite TextwrapFacts.split_join by apply TextwrapFacts.split_words. lia.
  - rewrite summarize_cuts_words by exact Hgt.
    destruct (decide _); [|lia].
    rewrite length_app, length_take. simpl. lia.
Qed.

Lemma summarize_again text (n : nat) :
  summarize_text_local (summarize_text_local text (Z.of_nat (S n)))
    (Z.of_nat (S n))
  = summarize_text_local text (Z.of_nat (S n)).
Proof.
  pose proof (TextwrapFacts.split_words text) as Hws.
  rewrite (summarize_fits (summarize_text_local _ _))
    by (pose proof (summarize_words text n); lia).
  destruct (Nat.le_gt_cases (length (Str.split text)) n) as [Hle|Hgt].
  - rewrite summarize_fits by lia.
    now rewrite TextwrapFacts.split_join.
  - rewrite summarize_cuts_words by exact Hgt.
    destruct (decide _) as [Hcut|Hfit].
    + rewrite join_app_last, summarize_cuts by exact Hcut.
      destruct (lookup_lt_is_Some_2 (Str.split text) n Hgt) as [w Ew].
      now rewrite (take_S_r _ _ _ Ew), Ew.
    + now rewrite summarize_fits by lia.
Qed.

End SummaryWords.

(** ** What the merged object shares *)

Module StoreSharing.
Import Store.

Lemma handled_snoc_eq done om k v :
  om !! k = Some v -> handled (done ++ [(k, v)]) om k = Some v.
Proof.
  intros Hk. unfold handled. rewrite fmap_app. simpl.
  destruct (decide _) as [_|Hn]; [exact Hk|].
  destruct Hn. apply elem_of_app. right. now left.
Qed.

Lemma handled_snoc_ne done om k v k' :
  k' <> k -> handled (done ++ [(k, v)]) om k' = handled done om k'.
Proof.
  intros Hne. unfold handled. rewrite fmap_app. simpl.
  destruct (decide (k' ∈ done.*1 ++ [k])) as [Hin|Hn];
    destruct (decide (k' ∈ done.*1)) as [Hd|Hd]; try reflexivity.
  - apply elem_of_app in Hin as [Hin|Hin]; [contradiction|].
    apply list_elem_of_singleton in Hin. contradiction.
  - destruct Hn. apply elem_of_app. now left.
Qed.

Lemma handled_all om k : handled (map_to_list om) om k = om !! k.
Proof.
  unfold handled. destruct (decide _) as [_|Hn]; [reflexivity|].
  destruct (om !! k) as [v|] eqn:E; [|reflexivity].
  destruct Hn. apply list_elem_of_fmap. exists (k, v). split; [reflexivity|].
  now apply elem_of_map_to_list.
Qed.

Lemma shares_insert_ne h ob o k k' w ov :
  k' <> k -> shares h ob o k' ov -> shares h ob (<[k := w]> o) k' ov.
Proof.
  intros Hne. unfold shares.
  rewrite lookup_insert_ne by congruence. trivial.
Qed.

(** The object the merge returns, entry by entry. *)
Lemma merge_result depth base manual h merged h' ob om :
  merge_manual_fields depth base manual h = Some (merged, h') ->
  h !! base = Some ob -> h !! manual = Some om ->
  exists o, h' !! merged = Some o /\ forall k, shares h ob o k (om !! k).
Proof.
  destruct depth as [|n]; simpl; [discriminate|].
  intros Hrun Hb Hm. revert Hrun.
  unfold bind at 1. unfold copy at 1. rewrite Hb.
  set (m := fresh (dom h)).
  assert (Hfresh : h !! m = None).
  { apply not_elem_of_dom, is_fresh. }
  assert (Hsub1 : h ⊆ <[m := ob]> h) by now apply insert_subseteq.
  unfold bind at 1. unfold items at 1.
  rewrite (lookup_weaken _ _ _ _ Hm Hsub1).
  unfold bind at 1.
  match goal with
  | |- context [for_each ?xs ?body _] => set (loop := for_each xs body)
  end.
  destruct (loop (<[m := ob]> h)) as [[u h2]|] eqn:El; [|discriminate].
  unfold ret. intros [= <- <-].
  pose (I := fun (done : list (string * hval)) (hc : heap) =>
               h ⊆ hc
               /\ exists o, hc !! m = Some o
                            /\ forall k, shares h ob o k (handled done om k)).
  assert (HI : I (map_to_list om) h2).
  { subst loop. revert El. apply (StoreFacts.for_each_prefix I).
    - intros done [k v] rest hc u' hc' Exs (Hsub & o & Ho & Hsh).
      assert (Hkv : om !! k = Some v).
      { apply elem_of_map_to_list. rewrite Exs.
        apply elem_of_app. right. now left. }
      assert (Hnew : k ∉ done.*1).
      { pose proof (NoDup_fst_map_to_list om) as Hnd.
        rewrite Exs, fmap_app in Hnd. simpl in Hnd.
        apply NoDup_app in Hnd as (_ & Hnd & _).
        intros Hin. apply (Hnd _ Hin). now left. }
      assert (Hcur : o !! k = ob !! k).
      { specialize (Hsh k). unfold handled in Hsh.
        destruct (decide _); [contradiction | exact Hsh]. }
      assert (Hset : forall w hx hy uy,
                 h ⊆ hx -> hx !! m = Some o ->
                 shares h ob (<[k := w]> o) k (Some v) ->
                 setitem m k w hx = Some (uy, hy) ->
                 I (done ++ [(k, v)]) hy).
      { intros w hx hy uy Hx Hox Hk. unfold setitem. rewrite Hox.
        intros [= _ <-]. split; [now apply insert_subseteq_r|].
        exists (<[k := w]> o). split; [apply lookup_insert_eq|].
        intros k'. destruct (decide (k' = k)) as [->|Hne].
        - now rewrite handled_snoc_eq.
        - rewrite handled_snoc_ne by exact Hne.
          now apply shares_insert_ne. }
      destruct (skipped v) eqn:Hs.
      { unfold ret. intros [= _ <-]. split; [exact Hsub|].
        exists o. split; [exact Ho|].
        intros k'. destruct (decide (k' = k)) as [->|Hne].
        - rewrite handled_snoc_eq by exact Hkv. unfold shares.
          now rewrite Hs.
        - now rewrite handled_snoc_ne. }
      unfold bind at 1. unfold get at 1. rewrite Ho, Hcur.
      assert (Hplain : (forall lv lc, v = HRef lv ->
                          ob !! k <> Some (HRef lc)) ->
                shares h ob (<[k := v]> o) k (Some v)).
      { intros Hno. unfold shares. rewrite Hs, lookup_insert_eq.
        destruct v as [| | | | | |lv]; try reflexivity.
        destruct (ob !! k) as [[| | | | | |lc]|] eqn:Ek; try reflexivity.
        now destruct (Hno lv lc eq_refl). }
      destruct v as [| | | | | |lv];
        try (apply Hset; [assumption | assumption |];
             apply Hplain; discriminate).
      destruct (ob !! k) as [[| | | | | |lc]|] eqn:Ek;
        try (apply Hset; [assumption | assumption |];
             apply Hplain; intros ? ? _; discriminate).
      unfold bind.
      destruct (merge_manual_fields n lc lv hc) as [[r hr]|] eqn:Er;
        [|discriminate].
      destruct (StoreFacts.merge_frame _ _ _ _ _ _ Er) as (Hsubr & Hr & _).
      apply Hset.
      + etransitivity; eassumption.
      + eapply lookup_weaken; eassumption.
      + unfold shares. rewrite Hs, Ek, lookup_insert_eq.
        exists r. split; [reflexivity|].
        destruct (h !! r) as [x|] eqn:Ex; [|reflexivity].
        rewrite (lookup_weaken _ _ _ _ Ex Hsub) in Hr. discriminate.
    - split; [exact Hsub1|]. exists ob. split; [apply lookup_insert_eq|].
      intros k. reflexivity. }
  destruct HI as (_ & o & Ho & Hsh). exists o. split; [exact Ho|].
  intros k. rewrite <- handled_all. apply Hsh.
Qed.

End StoreSharing.

(** ** The search for a JSON object *)

Module BraceFacts.
Import Re ReFacts.

(** A repetition of any character gives back as little as it can: the
    continuation runs on the shortest end of the text that it accepts. *)
Lemma rep_any_none {R} s (k : pystr -> option R) :
  (forall i, k (drop i s) = None) ->
  rep (fun _ => true) 0 None s k = None.
Proof.
  induction s as [|c s IH]; intros Hall.
  - simpl. exact (Hall 0).
  - simpl. rewrite IH.
    + exact (Hall 0).
    + intros i. exact (Hall (S i)).
Qed.

Lemma rep_any_last {R} a b (k : pystr -> option R) x :
  k b = Some x ->
  (forall i, 0 < i -> k (drop i b) = None) ->
  rep (fun _ => true) 0 None (a ++ b) k = Some x.
Proof.
  intros Hk Hafter. induction a as [|c a IH].
  - destruct b as [|c b]; simpl; [exact Hk|].
    rewrite rep_any_none; [exact Hk|].
    intros i. apply (Hafter (S i)). lia.
  - simpl. now rewrite IH.
Qed.

Lemma startswith_head_ne c a s :
  a <> c -> Str.startswith [c] (a :: s) = false.
Proof.
  intros Ha. simpl.
  destruct (Ascii.eqb_spec c a) as [->|_]; [contradiction | reflexivity].
Qed.

Lemma startswith_without c s i :
  without c s -> Str.startswith [c] (drop i s) = false.
Proof.
  intros Hs. assert (Hd : without c (drop i s)) by now apply Forall_drop.
  destruct (drop i s) as [|a r]; [reflexivity|]. simpl.
  inversion Hd as [|? ? Ha _]; subst.
  destruct (Ascii.eqb_spec c a) as [->|_]; [contradiction | reflexivity].
Qed.

(** The match of [brace_re] at an opening brace: up to the last closing
    brace of the text. *)
Lemma brace_match body post :
  without "}" post ->
  match_ brace_re (lit "{" ++ body ++ lit "}" ++ post)
  = Some {[0 := lit "{" ++ body ++ lit "}"]}.
Proof.
  intros Hpost. unfold match_, brace_re. cbn [run].
  change (Str.startswith (lit "{") (lit "{" ++ body ++ lit "}" ++ post))
    with true.
  cbv iota. change (drop (length (lit "{")) (lit "{" ++ body ++ lit "}" ++ post))
    with (body ++ lit "}" ++ post).
  apply rep_any_last.
  - change (Str.startswith (lit "}") (lit "}" ++ post)) with true. cbv iota.
    change (drop (length (lit "}")) (lit "}" ++ post)) with post.
    replace (lit "{" ++ body ++ lit "}" ++ post)
      with ((lit "{" ++ body ++ lit "}") ++ post)
      by now rewrite <- !app_assoc.
    rewrite take_consumed. reflexivity.
  - intros [|i] Hi; [lia|]. change (drop (S i) (lit "}" ++ post))
      with (drop i post).
    change (lit "}") with ["}"%char].
    now rewrite startswith_without.
Qed.

Lemma brace_search pre body post :
  without "{" pre -> without "}" post ->
  search brace_re (pre ++ lit "{" ++ body ++ lit "}" ++ post)
  = Some {[0 := lit "{" ++ body ++ lit "}"]}.
Proof.
  intros Hpre Hpost. apply search_first; [|now apply brace_match].
  intros i Hi. unfold match_, brace_re. cbn [run].
  rewrite drop_app_le by lia.
  assert (Hd : without "{" (drop i pre)) by now apply Forall_drop.
  destruct (drop i pre) as [|a r] eqn:E.
  { apply (f_equal length) in E. rewrite length_drop in E. simpl in E. lia. }
  inversion Hd as [|? ? Ha _]; subst.
  change (lit "{") with ["{"%char] at 1.
  rewrite <- !app_comm_cons. now rewrite startswith_head_ne.
Qed.

(** Without an opening brace there is no match. *)
Lemma brace_search_none text :
  without "{" text -> search brace_re text = None.
Proof.
  intros Ht. apply search_none. intros i.
  unfold match_, brace_re. cbn [run].
  change (lit "{") with ["{"%char].
  now rewrite startswith_without.
Qed.

End BraceFacts.

(** ** The enrichment and the handler *)

Section EnrichmentFacts.
Context `{Chunker}.

(** Without an enrichment, a request with a text is answered whenever the
    inference returns. *)
Lemma generate_plain lib created generated tool user_text manual
    include_meta :
  Str.blank user_text = false -> manual !! "meta" = None ->
  ((exists json errors,
      generate lib created generated tool user_text (VDict ∅) manual
        include_meta
      = Generated json errors)
   <-> is_Some (natural_to_template_call created tool user_text))
  /\ (generate lib created generated tool user_text (VDict ∅) manual
        include_meta = Raised
      <-> natural_to_template_call created tool user_text = None).
Proof.
  intros Hb Hm. unfold generate. rewrite Hb.
  destruct (natural_to_template_call _ _ _) as [base|] eqn:Ec.
  2:{ split; split; try reflexivity.
      - intros (json & errors & E). discriminate.
      - intros [x Hx]. discriminate. }
  apply call_returns in Ec as ->.
  assert (Hgen : exists json errors,
             match (if include_meta
                    then stamp_meta tool generated
                           (merge_manual_fields
                              (merge_manual_fields
                                 (natural_to_template created tool user_text)
                                 ∅) manual)
                    else Some (merge_manual_fields
                                 (merge_manual_fields
                                    (natural_to_template created tool
                                       user_text) ∅) manual)) with
             | Some merged =>
                 Generated merged (validate_schema lib tool merged)
             | None => Raised
             end = Generated json errors).
  { destruct include_meta; [|eauto].
    rewrite stamp_meta_spec, merged_meta by exact Hm.
    unfold merged_at. rewrite lookup_empty, template_meta. eauto. }
  destruct Hgen as (json & errors & E). rewrite E.
  split; split; eauto; discriminate.
Qed.

Lemma enrichment_error use_llm openai loads user_text tool key model :
  use_llm = false
  \/ is_Some (openai_enrich openai loads user_text tool key model !! "error") ->
  enrichment use_llm openai loads user_text tool key model = VDict ∅.
Proof.
  intros [->|[v Hv]]; [reflexivity|]. unfold enrichment.
  destruct use_llm; [|reflexivity].
  destruct openai as [create|]; [|reflexivity].
  destruct key as [|c key]; [reflexivity|].
  cbv zeta. now rewrite Hv.
Qed.

End EnrichmentFacts.

(** ** Pieces of a split *)

Section SplitFacts.

Lemma split_at_pass sep x cur rest :
  split_at sep (length x) cur (x ++ rest) = split_at sep 0 cur rest.
Proof. induction x as [|c x IH]; [reflexivity|]. simpl. exact IH. Qed.

Lemma occurs_cons w c s : occurs w s -> occurs w (c :: s).
Proof. intros (pre & post & ->). now exists (c :: pre), post. Qed.

Lemma occurs_prefix w rest : occurs w (w ++ rest).
Proof. now exists [], rest. Qed.

(** A text without the separator is one piece. *)
Lemma split_at_whole sep cur s :
  sep <> [] -> ~ occurs sep s -> split_at sep 0 cur s = [rev cur ++ s].
Proof.
  intros Hne. revert cur. induction s as [|c s IH]; intros cur Hno.
  - simpl. now rewrite app_nil_r.
  - simpl. destruct (Str.startswith sep (c :: s)) eqn:E.
    + apply startswith_spec in E as [rest E]. destruct Hno.
      rewrite E. apply occurs_prefix.
    + rewrite IH.
      * simpl. now rewrite <- app_assoc.
      * intros Ho. apply Hno. now apply occurs_cons.
Qed.

(** The last piece: what follows the last separator, for a separator whose
    first character does not come back in it. *)
Lemma split_at_last h sep' pre tail cur :
  without h sep' -> ~ occurs (h :: sep') tail ->
  last (split_at (h :: sep') 0 cur (pre ++ (h :: sep') ++ tail)) = Some tail.
Proof.
  intros Hh Hno. remember (length pre) as n eqn:En.
  revert pre cur En. induction n as [n IH] using lt_wf_ind.
  intros pre cur En.
  assert (Hfound : forall cur',
            last (rev cur' :: split_at (h :: sep') (length sep') []
                                (sep' ++ tail)) = Some tail).
  { intros cur'. rewrite split_at_pass, split_at_whole by (discriminate || assumption).
    reflexivity. }
  destruct pre as [|c pre].
  - change ([] ++ (h :: sep') ++ tail) with (h :: (sep' ++ tail)).
    cbn [split_at].
    assert (E : Str.startswith (h :: sep') (h :: sep' ++ tail) = true).
    { apply startswith_spec. now exists tail. }
    rewrite E.
    replace (length (h :: sep') - 1) with (length sep') by (simpl; lia).
    apply Hfound.
  - change ((c :: pre) ++ (h :: sep') ++ tail)
      with (c :: (pre ++ (h :: sep') ++ tail)).
    cbn [split_at].
    destruct (Str.startswith (h :: sep') (c :: pre ++ (h :: sep') ++ tail))
      eqn:E.
    + apply startswith_spec in E as [rest E].
      injection E as -> E.
      replace (length (h :: sep') - 1) with (length sep') by (simpl; lia).
      destruct (Nat.le_gt_cases (length sep') (length pre)) as [Hle|Hgt].
      * assert (Epre : pre = sep' ++ drop (length sep') pre).
        { apply (f_equal (take (length sep'))) in E.
          rewrite take_app_le in E by exact Hle.
          rewrite take_app_length in E.
          rewrite <- E at 1. now rewrite take_drop. }
        rewrite Epre at 1. rewrite <- app_assoc.
        rewrite split_at_pass, last_cons.
        rewrite (IH (length (drop (length sep') pre))); [reflexivity | | reflexivity].
        simpl in En. rewrite length_drop. lia.
      * exfalso. apply (f_equal (fun l => l !! length pre)) in E.
        rewrite lookup_app_r in E by lia.
        rewrite Nat.sub_diag in E. simpl in E.
        rewrite lookup_app_l in E by exact Hgt.
        symmetry in E. apply list_elem_of_lookup_2 in E.
        unfold without in Hh. rewrite Forall_forall in Hh.
        now apply (Hh h E).
    + apply (IH (length pre)); [simpl in En; lia | reflexivity].
Qed.

(** The first piece at a separator of one character. *)
Lemma split_at_head c id rest cur :
  without c id ->
  head (split_at [c] 0 cur id) = Some (rev cur ++ id)
  /\ head (split_at [c] 0 cur (id ++ c :: rest)) = Some (rev cur ++ id).
Proof.
  intros Hid. revert cur. induction Hid as [|a id Ha _ IH]; intros cur.
  - split; [simpl; now rewrite app_nil_r|].
    simpl. rewrite Ascii.eqb_refl. simpl. now rewrite app_nil_r.
  - assert (E : forall s, Str.startswith [c] (a :: s) = false).
    { intros s. simpl.
      destruct (Ascii.eqb_spec c a) as [->|_]; [contradiction | reflexivity]. }
    change ((a :: id) ++ c :: rest) with (a :: (id ++ c :: rest)).
    cbn [split_at]. rewrite !E.
    destruct (IH (a :: cur)) as [H1 H2]. rewrite H1, H2. simpl.
    now rewrite <- app_assoc.
Qed.

End SplitFacts.

Section VideoIdFacts.

Lemma last_piece (h : ascii) (sep' : string) pre tail :
  without h (lit sep') -> ~ occurs (h :: lit sep') tail ->
  default [] (last (split_on (h :: lit sep') (pre ++ (h :: lit sep') ++ tail)))
  = tail.
Proof.
  intros Hh Hno. unfold split_on. now rewrite split_at_last.
Qed.

Lemma first_piece c id rest :
  without c id -> rest = [] \/ (exists r, rest = c :: r) ->
  default [] (head (split_on [c] (id ++ rest))) = id.
Proof.
  intros Hid Hrest. unfold split_on.
  destruct (split_at_head c id [] [] Hid) as [H1 _].
  destruct Hrest as [->|[r ->]].
  - rewrite app_nil_r, H1. reflexivity.
  - destruct (split_at_head c id r [] Hid) as [_ H2]. rewrite H2. reflexivity.
Qed.

End VideoIdFacts.

(** * The claims *)

(** C1, as stated, fails: a mapping is a non-empty override, yet where the
    template already holds a mapping the merge stores the recursive merge of
    the two, not the override.  Here the final ["audio"] keeps
    ["narration"], which the manual value does not have. *)
Lemma merge_precedence_counterexample :
  MergeExamples.manual !! "audio" = Some (VDict MergeExamples.music_on)
  /\ skipped (VDict MergeExamples.music_on) = false
  /\ merge_manual_fields
       (merge_manual_fields MergeExamples.base MergeExamples.enrichment)
       MergeExamples.manual !! "audio"
     <> Some (VDict MergeExamples.music_on).
Proof. vm_compute. repeat split; discriminate. Qed.

(** C1, amended: in [merge(merge(base, enrichment), manual)] a non-empty
    manual value wins over base and enrichment at its key whenever it is
    not a mapping, or the value merged so far at that key is not a mapping;
    when both are mappings the final value is the recursive merge of the
    two, with the manual mapping as the overrides. *)
Theorem merge_precedence (base enrichment manual : dict) (k : string)
    (v : value) :
  manual !! k = Some v ->
  skipped v = false ->
  let inner := merge_manual_fields base enrichment in
  let final := merge_manual_fields inner manual in
  ((is_dict v = false \/ forall cur, inner !! k <> Some (VDict cur)) ->
     final !! k = Some v)
  /\ (forall vm cur, v = VDict vm -> inner !! k = Some (VDict cur) ->
        final !! k = Some (VDict (merge_manual_fields cur vm))).
Proof.
  intros Hm Hs inner final. split.
  - intros [Hd|Hcur].
    + now apply merge_lookup_scalar.
    + now apply merge_lookup_replace.
  - intros vm cur -> Hin. now apply merge_lookup_nested.
Qed.

Lemma merge_precedence_witness :
  let base := MergeExamples.video in
  let enrichment : dict := {["style" := VStr (lit "vintage")]} in
  let manual : dict := {["style" := VStr (lit "cartoon")]} in
  merge_manual_fields (merge_manual_fields base enrichment) manual !! "style"
  = Some (VStr (lit "cartoon")).
Proof.
  intros base enrichment manual.
  apply (merge_precedence base enrichment manual "style"
           (VStr (lit "cartoon")));
    [reflexivity | reflexivity | left; reflexivity].
Defined.

(** C2, as stated, fails at both ends of the boundary, because the text
    is stripped and its white space collapsed before its length counts.  A
    text of 1000 characters that starts with a space gives a prompt of 999
    characters, not the text; a text of 1001 characters that ends with a
    space gives a prompt of 1000 characters with no ellipsis.  (Both
    collapsed texts fit the width, so by [image_prompt] the prompts are
    the same for every chunker.) *)
Lemma image_prompt_counterexample :
  let t1000 := lit " " ++ repeat "a"%char 999 in
  let t1001 := repeat "a"%char 1000 ++ lit " " in
  (length t1000 = 1000
   /\ natural_to_template (lit "2025-01-01T00:00:00") "image" t1000 !! "prompt"
      = Some (VStr (repeat "a"%char 999))
   /\ repeat "a"%char 999 <> t1000)
  /\ (length t1001 = 1001
      /\ natural_to_template (lit "2025-01-01T00:00:00") "image" t1001
           !! "prompt"
         = Some (VStr (repeat "a"%char 1000))
      /\ Str.endswith (lit "...") (repeat "a"%char 1000) = false).
Proof.
  intros t1000 t1001. refine (conj (conj _ (conj _ _)) (conj _ (conj _ _))).
  - vm_compute. reflexivity.
  - vm_compute. reflexivity.
  - discriminate.
  - vm_compute. reflexivity.
  - vm_compute. reflexivity.
  - vm_compute. reflexivity.
Qed.

Section PromptClaims.
Context `{Chunker}.
Import Textwrap TextwrapFacts.

(** C2, amended: for the image tool the prompt is the text with the white
    space at its ends removed and every run of white space inside it
    replaced by one space, kept whole when that collapsed text has at most
    1000 characters, and otherwise cut to a start of the collapsed text
    followed by the ellipsis marker, at most 1000 characters in all.  So a
    single spaced text of exactly 1000 characters gives the prompt
    verbatim, and a single spaced text of 1001 characters gives a prompt
    that ends in the ellipsis marker and has at most 1000 characters. *)
Theorem image_prompt (utcnow text : pystr) :
  let prompt := natural_to_template utcnow "image" text !! "prompt" in
  let collapsed := collapse text in
  (length collapsed <= 1000 -> prompt = Some (VStr collapsed))
  /\ (1000 < length collapsed ->
        exists kept rest,
          collapsed = kept ++ rest
          /\ prompt = Some (VStr (kept ++ lit "..."))
          /\ length (kept ++ lit "...") <= 1000)
  /\ (single_spaced text -> length text = 1000 ->
        prompt = Some (VStr text))
  /\ (single_spaced text -> length text = 1001 ->
        exists kept rest,
          text = kept ++ rest
          /\ prompt = Some (VStr (kept ++ lit "..."))
          /\ length (kept ++ lit "...") <= 1000).
Proof.
  intros prompt collapsed. subst prompt.
  unfold natural_to_template. simpl String.eqb. cbv iota.
  rewrite image_prompt_lookup. unfold shorten. rewrite collapse_strip.
  fold collapsed.
  assert (Hfits : length collapsed <= 1000 ->
            Some (VStr (fill 1000 (lit "...") collapsed))
            = Some (VStr collapsed)).
  { intros Hlen. do 2 f_equal. apply fill_fits; [|exact Hlen].
    destruct (collapse_ends text) as [E|[_ E]]; [now left | now right]. }
  assert (Hcuts : 1000 < length collapsed ->
            exists kept rest,
              collapsed = kept ++ rest
              /\ Some (VStr (fill 1000 (lit "...") collapsed))
                 = Some (VStr (kept ++ lit "..."))
              /\ length (kept ++ lit "...") <= 1000).
  { intros Hlen.
    destruct (collapse_ends text) as [E|[Hhead Hlast]].
    { fold collapsed in E. rewrite E in Hlen. simpl in Hlen. lia. }
    destruct (fill_truncates 1000 (lit "...") collapsed Hhead Hlast)
      as [E|(kept & rest & E & Ef & Hl)]; [lia | exact Hlen | |].
    - exists [], collapsed. rewrite E. repeat split. simpl. lia.
    - exists kept, rest. rewrite Ef. now repeat split. }
  refine (conj Hfits (conj Hcuts (conj _ _))).
  - intros Hs Hlen. pose proof (collapse_single_spaced text Hs) as E.
    fold collapsed in E. rewrite E in *. apply Hfits. lia.
  - intros Hs Hlen. pose proof (collapse_single_spaced text Hs) as E.
    fold collapsed in E. rewrite E in *. apply Hcuts. lia.
Qed.

End PromptClaims.

Lemma image_prompt_witness :
  natural_to_template (lit "2025-01-01T00:00:00") "image"
    (lit "  a   red fox ") !! "prompt"
  = Some (VStr (lit "a red fox"))
  /\ (let text := Str.join (lit " ") (repeat (lit "a") 500) ++ lit " b" in
      exists kept rest,
        text = kept ++ rest
        /\ natural_to_template (lit "2025-01-01T00:00:00") "image" text
             !! "prompt"
           = Some (VStr (kept ++ lit "..."))
        /\ length (kept ++ lit "...") <= 1000).
Proof.
  split.
  - apply (proj1 (image_prompt (lit "2025-01-01T00:00:00")
                    (lit "  a   red fox "))).
    vm_compute. lia.
  - intros text.
    apply (proj2 (proj2 (proj2 (image_prompt (lit "2025-01-01T00:00:00")
                                  text)))).
    + exists (repeat (lit "a") 500 ++ [lit "b"]). split.
      * apply Forall_app. split.
        -- apply Forall_forall. intros w Hw.
           apply list_elem_of_In, repeat_spec in Hw. subst w.
           split; [discriminate | now repeat constructor].
        -- repeat constructor. discriminate.
      * vm_compute. reflexivity.
    + vm_compute. reflexivity.
Defined.

(** C3, as stated, fails in two ways.  A size with two digit groups of two
    digits is not taken: the pattern asks for three or four digits.  And
    the size is not the matched text: with the multiplication sign as the
    separator the field still holds an [x]. *)
Lemma image_size_counterexample :
  let small := lit "app icon 64x64" in
  let times := lit "banner 800" ++ [ascii_of_N 215] ++ lit "600" in
  (occurs (lit "64x64") small
   /\ natural_to_template (lit "2025-01-01T00:00:00") "image" small !! "size"
      = Some (vstr "1024x1024"))
  /\ (occurs (lit "800" ++ [ascii_of_N 215] ++ lit "600") times
      /\ natural_to_template (lit "2025-01-01T00:00:00") "image" times
           !! "size"
         = Some (vstr "800x600")
      /\ vstr "800x600" <> VStr (lit "800" ++ [ascii_of_N 215] ++ lit "600")).
Proof.
  intros small times. refine (conj (conj _ _) (conj _ (conj _ _))).
  - exists (lit "app icon "), []. reflexivity.
  - vm_compute. reflexivity.
  - exists (lit "banner "), []. reflexivity.
  - vm_compute. reflexivity.
  - discriminate.
Qed.

Section ImageClaims.
Context `{Chunker}.
Import Re ReFacts PatternFacts.

(** C3, amended: for the image tool, when the text has two digit groups
    of three or four digits each, separated by "x" or the multiplication
    sign with optional white space around it, the size is the first group,
    an "x" and the second group, for the leftmost such place and with the
    second group as long as it can be; when the text has no such place the
    size is "1024x1024". *)
Theorem image_size (utcnow text : pystr) :
  let size := natural_to_template utcnow "image" text !! "size" in
  ((forall i, ~ size_at (drop i text)) -> size = Some (vstr "1024x1024"))
  /\ (forall pre d1 ws1 sep ws2 d2 rest,
        text = pre ++ d1 ++ ws1 ++ sep :: ws2 ++ d2 ++ rest ->
        all_in Char.is_digit d1 -> 3 <= length d1 <= 4 ->
        all_in Char.is_space ws1 -> is_times sep = true ->
        all_in Char.is_space ws2 ->
        all_in Char.is_digit d2 -> 3 <= length d2 <= 4 ->
        stops Char.is_digit (Some 4) d2 rest ->
        (forall i, i < length pre -> ~ size_at (drop i text)) ->
        size = Some (VStr (d1 ++ lit "x" ++ d2))).
Proof.
  intros size. subst size. unfold natural_to_template. simpl String.eqb.
  cbv iota. rewrite image_size_lookup. split.
  - intros Hno. rewrite search_none; [reflexivity|].
    intros i. apply size_match_none, Hno.
  - intros pre d1 ws1 sep ws2 d2 rest Ht Hd1 Hl1 Hws1 Hsep Hws2 Hd2 Hl2
      Hstop Hbefore.
    rewrite Ht at 1.
    rewrite (search_first size_re pre _ (<[2 := d2]> (<[1 := d1]> ∅))).
    + unfold group.
      rewrite lookup_insert_eq, lookup_insert_ne, lookup_insert_eq
        by discriminate.
      reflexivity.
    + rewrite <- Ht. intros i Hi. apply size_match_none, Hbefore, Hi.
    + now apply size_match.
Qed.

End ImageClaims.

Lemma image_size_witness :
  let text := lit "Poster, 1920 x 1080 px" in
  natural_to_template (lit "2025-01-01T00:00:00") "image" text !! "size"
  = Some (VStr (lit "1920x1080")).
Proof.
  intros text.
  apply (proj2 (image_size (lit "2025-01-01T00:00:00") text)
           (lit "Poster, ") (lit "1920") (lit " ") "x"%char (lit " ")
           (lit "1080") (lit " px") eq_refl).
  - repeat constructor.
  - simpl. lia.
  - repeat constructor.
  - reflexivity.
  - repeat constructor.
  - repeat constructor.
  - simpl. lia.
  - left. reflexivity.
  - apply PatternFacts.no_size_before. reflexivity.
Defined.

(** C4: an override that is [None] or a string of white space only is
    skipped and the current value stays; a number (zero included) and a
    boolean (false included) are not empty and replace the current value.
    So [merge(base, {"style": ""})] keeps [base] as it is and
    [merge(base, {"duration": 0})] sets ["duration"] to [0]. *)
Theorem merge_emptiness (base manual : dict) (k : string) :
  (manual !! k = Some VNone ->
     merge_manual_fields base manual !! k = base !! k)
  /\ (forall s, manual !! k = Some (VStr s) ->
        Forall (fun c => Char.is_space c = true) s ->
        merge_manual_fields base manual !! k = base !! k)
  /\ (forall z, manual !! k = Some (VInt z) ->
        merge_manual_fields base manual !! k = Some (VInt z))
  /\ (forall b, manual !! k = Some (VBool b) ->
        merge_manual_fields base manual !! k = Some (VBool b))
  /\ (forall f, manual !! k = Some (VFloat f) ->
        merge_manual_fields base manual !! k = Some (VFloat f))
  /\ merge_manual_fields base {["style" := VStr (lit "")]} = base
  /\ merge_manual_fields base {["duration" := VInt 0]} !! "duration"
     = Some (VInt 0).
Proof.
  refine (conj _ (conj _ (conj _ (conj _ (conj _ (conj _ _)))))).
  - intros H. now apply (merge_lookup_skipped _ _ _ _ H).
  - intros s H Hs. apply (merge_lookup_skipped _ _ _ _ H).
    now apply blank_true_iff.
  - intros z H. now apply (merge_lookup_scalar _ _ _ _ H).
  - intros b H. now apply (merge_lookup_scalar _ _ _ _ H).
  - intros f H. now apply (merge_lookup_scalar _ _ _ _ H).
  - apply (map_eq (M := gmap string)). intros j. rewrite merge_lookup.
    destruct (decide ("style" = j)) as [<-|Hne].
    + now rewrite lookup_singleton_eq.
    + now rewrite lookup_singleton_ne.
  - rewrite merge_lookup, lookup_singleton_eq. reflexivity.
Qed.

Lemma merge_emptiness_witness :
  let base := MergeExamples.video in
  let manual : dict :=
    <["style" := VStr (lit "  ")]>
      (<["duration" := VInt 0]>
         (<["lighting" := VNone]> {["loop" := VBool false]})) in
  merge_manual_fields base manual !! "lighting" = base !! "lighting"
  /\ merge_manual_fields base manual !! "style" = base !! "style"
  /\ merge_manual_fields base manual !! "duration" = Some (VInt 0)
  /\ merge_manual_fields base manual !! "loop" = Some (VBool false).
Proof.
  intros base manual. refine (conj _ (conj _ (conj _ _))).
  - apply (proj1 (merge_emptiness base manual "lighting")). reflexivity.
  - apply (proj1 (proj2 (merge_emptiness base manual "style")) (lit "  ")).
    + reflexivity.
    + repeat constructor.
  - apply (proj1 (proj2 (proj2 (merge_emptiness base manual "duration")))).
    reflexivity.
  - apply (proj1 (proj2 (proj2 (proj2
             (merge_emptiness base manual "loop"))))).
    reflexivity.
Defined.

(** C5, as stated, fails in two ways.  The text "mp3 song, 2 minutes long"
    has the integer 2 followed by the unit minutes, yet its duration is 3:
    the pattern is searched from the left and a unit is any text that
    starts with one, so the 3 before " song" is found first.  And an
    integer of 4301 digits followed by a unit is not made the duration:
    the conversion raises. *)
Lemma video_duration_counterexample :
  let song := lit "mp3 song, 2 minutes long" in
  let digits := repeat "9"%char 4301 ++ lit " seconds" in
  (occurs (lit "2 minutes") (Str.lower (Str.strip song))
   /\ exists template,
        natural_to_template_call (lit "2025-01-01T00:00:00") "veo3_video" song
        = Some template
        /\ template !! "duration" = Some (VInt 3)
        /\ VInt 3 <> VInt (2 * 60))
  /\ natural_to_template_call (lit "2025-01-01T00:00:00") "veo3_video" digits
     = None.
Proof.
  intros song digits. refine (conj (conj _ _) _).
  - exists (lit "mp3 song, "), (lit " long"). reflexivity.
  - exists (natural_to_template (lit "2025-01-01T00:00:00") "veo3_video" song).
    refine (conj _ (conj _ _)).
    + vm_compute. reflexivity.
    + vm_compute. reflexivity.
    + discriminate.
  - vm_compute. reflexivity.
Qed.

Section VideoClaims.
Context `{Chunker}.
Import Re ReFacts PatternFacts.

(** C5, amended: for the video tool the duration is 8 unless the lower
    case text has a run of digits followed, after optional white space, by
    text that starts with a unit.  Then the leftmost such place decides:
    when its digits are at most 4300 the duration is their integer, in
    seconds for the units s, sec, secs, seconds, second and times 60 for
    the units m, min, minutes, and when they are more the call raises and
    there is no template.  The text "A 2 minute vertical cinematic shot
    with dramatic lighting" gives duration 120, aspect ratio 9:16, style
    cinematic_photorealistic and dramatic lighting. *)
Theorem video_duration (utcnow text : pystr) :
  let lower := Str.lower (Str.strip text) in
  let result := natural_to_template_call utcnow "veo3_video" text in
  let duration (n : Z) :=
    exists template,
      result = Some template /\ template !! "duration" = Some (VInt n) in
  ((forall i, ~ duration_at (drop i lower)) -> duration 8%Z)
  /\ (forall pre ds ws u rest,
        lower = pre ++ ds ++ ws ++ lit u ++ rest ->
        ds <> [] -> all_in Char.is_digit ds -> all_in Char.is_space ws ->
        (forall i, i < length pre -> ~ duration_at (drop i lower)) ->
        (length ds <= 4300 ->
         In u ["s"; "sec"; "secs"; "seconds"; "second"]%string ->
         duration (Str.int ds))
        /\ (length ds <= 4300 -> In u ["m"; "min"; "minutes"]%string ->
            duration (Str.int ds * 60)%Z)
        /\ (4300 < length ds -> In u duration_units -> result = None))
  /\ (exists example,
        natural_to_template_call utcnow "veo3_video"
          (lit "A 2 minute vertical cinematic shot with dramatic lighting")
        = Some example
        /\ example !! "duration" = Some (VInt 120)
        /\ example !! "aspect_ratio" = Some (vstr "9:16")
        /\ example !! "style" = Some (vstr "cinematic_photorealistic")
        /\ example !! "lighting" = Some (vstr "dramatic")).
Proof.
  intros lower result duration. subst result duration. cbv beta.
  rewrite call_video. fold lower.
  refine (conj _ (conj _ _)).
  - intros Hno. rewrite search_none by (intros i; apply duration_match_none, Hno).
    eexists. split; [reflexivity|].
    unfold natural_to_template. simpl String.eqb. cbv iota. fold lower.
    rewrite video_duration_lookup.
    now rewrite search_none by (intros i; apply duration_match_none, Hno).
  - intros pre ds ws u rest Hl Hne Hds Hws Hbefore.
    assert (Hm : In u duration_units ->
               search duration_re lower
               = Some (<[2 := take 1 (lit u)]> (<[1 := ds]> ∅))).
    { intros Hu. rewrite Hl. apply search_first.
      - rewrite <- Hl. intros i Hi. apply duration_match_none, Hbefore, Hi.
      - now apply duration_match. }
    assert (Hg : forall x : pystr,
               group (<[2 := x]> (<[1 := ds]> ∅)) 1 = ds).
    { intros x. unfold group.
      now rewrite lookup_insert_ne, lookup_insert_eq by discriminate. }
    assert (Hfield : forall n,
               natural_to_template utcnow "veo3_video" text !! "duration"
               = Some (VInt n) ->
               length ds <= 4300 -> In u duration_units ->
               exists template,
                 (match search duration_re lower with
                  | Some m =>
                      if int_raises (group m 1) then None
                      else Some (natural_to_template utcnow "veo3_video" text)
                  | None => Some (natural_to_template utcnow "veo3_video" text)
                  end) = Some template
                 /\ template !! "duration" = Some (VInt n)).
    { intros n Hn Hlen Hu. rewrite (Hm Hu), Hg.
      rewrite (proj2 (int_raises_false ds) Hlen). eauto. }
    assert (Hlook : In u duration_units ->
               natural_to_template utcnow "veo3_video" text !! "duration"
               = Some (VInt (if Str.startswith (lit "m") (take 1 (lit u))
                             then Str.int ds * 60 else Str.int ds)%Z)).
    { intros Hu. unfold natural_to_template. simpl String.eqb. cbv iota.
      fold lower. rewrite video_duration_lookup, (Hm Hu), Hg.
      unfold group. rewrite lookup_insert_eq. simpl default.
      now destruct (Str.startswith _ _). }
    refine (conj _ (conj _ _)).
    + intros Hlen Hu.
      assert (Hu' : In u duration_units)
        by (unfold duration_units; simpl in *; tauto).
      apply Hfield; [|exact Hlen|exact Hu'].
      rewrite (Hlook Hu'). simpl in Hu.
      repeat destruct Hu as [<-|Hu]; try contradiction; reflexivity.
    + intros Hlen Hu.
      assert (Hu' : In u duration_units)
        by (unfold duration_units; simpl in *; tauto).
      apply Hfield; [|exact Hlen|exact Hu'].
      rewrite (Hlook Hu'). simpl in Hu.
      repeat destruct Hu as [<-|Hu]; try contradiction; reflexivity.
    + intros Hlen Hu. rewrite (Hm Hu), Hg.
      now rewrite (proj2 (int_raises_true ds) Hlen).
  - eexists. split.
    + rewrite call_video.
      set (found := search duration_re _). vm_compute in found. subst found.
      cbv iota beta.
      replace (int_raises _) with false by (vm_compute; reflexivity).
      reflexivity.
    + vm_compute. repeat split; reflexivity.
Qed.


End VideoClaims.

Lemma video_duration_witness :
  let text := lit "Clip of 30 seconds, then 2 min" in
  exists template,
    natural_to_template_call (lit "2025-01-01T00:00:00") "veo3_video" text
    = Some template
    /\ template !! "duration" = Some (VInt 30).
Proof.
  intros text.
  refine (proj1 (proj1 (proj2 (video_duration (lit "2025-01-01T00:00:00")
                                 text))
                   (lit "clip of ") (lit "30") (lit " ") "seconds"%string
                   (lit ", then 2 min") _ _ _ _ _) _ _).
  - reflexivity.
  - discriminate.
  - repeat constructor.
  - repeat constructor.
  - apply PatternFacts.no_duration_before. reflexivity.
  - simpl. lia.
  - simpl. tauto.
Defined.


(** C7: where the current value and the override at a key are both
    mappings, the merge stores their recursive merge, which follows the
    same skip rule and keeps every nested entry of the current mapping that
    the override does not mention or gives an empty value for; so
    [merge({"audio": {"music": false, "narration": false}},
           {"audio": {"music": true}})]
    is [{"audio": {"music": true, "narration": false}}]. *)
Theorem merge_recursive (base manual bm vm : dict) (k : string) :
  base !! k = Some (VDict bm) ->
  manual !! k = Some (VDict vm) ->
  merge_manual_fields base manual !! k
  = Some (VDict (merge_manual_fields bm vm))
  /\ (forall j, vm !! j = None ->
        merge_manual_fields bm vm !! j = bm !! j)
  /\ (forall j v, vm !! j = Some v -> skipped v = true ->
        merge_manual_fields bm vm !! j = bm !! j)
  /\ merge_manual_fields MergeExamples.base MergeExamples.manual
     = {["audio" := VDict MergeExamples.audio_music]}.
Proof.
  intros Hb Hm. refine (conj _ (conj _ (conj _ _))).
  - now apply merge_lookup_nested.
  - intros j. apply merge_lookup_absent.
  - intros j v. apply merge_lookup_skipped.
  - vm_compute. reflexivity.
Qed.

Lemma merge_recursive_witness :
  merge_manual_fields MergeExamples.base MergeExamples.manual !! "audio"
  = Some (VDict (merge_manual_fields MergeExamples.audio_off
                   MergeExamples.music_on)).
Proof.
  apply (merge_recursive MergeExamples.base MergeExamples.manual
           MergeExamples.audio_off MergeExamples.music_on "audio");
    reflexivity.
Defined.

(** C8: the merge is pure in its first argument.  Run on any store
    without dangling references, with the recursion depth above the
    nesting of the overrides, the merge returns a mapping that is a new
    object, and every object the store held before the call, the current
    mapping and all its nested mappings among them, is in the store
    afterwards with the same entries; so every value stands for the same
    tree of values as before the call. *)
Theorem merge_does_not_mutate (depth : nat) (h : Store.heap)
    (base manual : Store.loc) :
  Store.closed h ->
  is_Some (h !! base) ->
  Store.bounded depth h manual ->
  exists merged h',
    Store.merge_manual_fields depth base manual h = Some (merged, h')
    /\ h !! merged = None
    /\ is_Some (h' !! merged)
    /\ (forall l d, h !! l = Some d -> h' !! l = Some d)
    /\ (forall v t, Store.repr h v t -> Store.repr h' v t).
Proof.
  intros Hc Hb Hm.
  destruct (StoreFacts.merge_runs depth base manual h Hc Hb Hm)
    as (merged & h' & E & _).
  exists merged, h'. split; [exact E|].
  destruct (StoreFacts.merge_frame _ _ _ _ _ _ E) as (Hsub & Hnew & Hres).
  repeat split; try assumption.
  - intros l d Hl. eapply lookup_weaken; eassumption.
  - now apply StoreFacts.repr_mono.
Qed.

Lemma merge_does_not_mutate_witness :
  exists merged h',
    Store.merge_manual_fields 2 1%positive 3%positive StoreExamples.heap0
    = Some (merged, h')
    /\ StoreExamples.heap0 !! merged = None
    /\ is_Some (h' !! merged)
    /\ (forall l d, StoreExamples.heap0 !! l = Some d -> h' !! l = Some d)
    /\ (forall v t, Store.repr StoreExamples.heap0 v t -> Store.repr h' v t).
Proof.
  apply (merge_does_not_mutate 2 StoreExamples.heap0 1%positive 3%positive).
  - apply StoreFacts.closedb_sound. vm_compute. reflexivity.
  - eexists. vm_compute. reflexivity.
  - apply StoreFacts.boundedb_sound. vm_compute. reflexivity.
Defined.

(** C9: when the schema validator is not there, that is when either of
    the two names of the guarded import is [None], the report on any tool
    and any data is exactly one error, whose message says that the
    jsonschema package is not available; it is never the empty list that
    stands for success. *)
Theorem validation_unavailable (lib : jsonschema_import) (tool : string)
    (data : dict) :
  validate lib = None \/ Draft7Validator lib = None ->
  validate_schema lib tool data = [unavailable_message]
  /\ length (validate_schema lib tool data) = 1
  /\ occurs (lit "not available") unavailable_message.
Proof.
  intros Hnone.
  assert (E : validate_schema lib tool data = [unavailable_message]).
  { unfold validate_schema. destruct Hnone as [-> | ->]; [reflexivity|].
    now destruct (validate lib). }
  rewrite E. refine (conj eq_refl (conj eq_refl _)).
  exists (lit "jsonschema package "),
    (lit " in runtime. Install 'jsonschema' to enable validation.").
  reflexivity.
Qed.

Lemma validation_unavailable_witness :
  validate_schema {| validate := None; Draft7Validator := None |} "image"
    MergeExamples.video
  = [unavailable_message].
Proof.
  apply (validation_unavailable
           {| validate := None; Draft7Validator := None |} "image"
           MergeExamples.video).
  left. reflexivity.
Defined.

(** C10: the merge never removes a field.  Every key of the current
    mapping is a key of the merge, and the same holds at every depth where
    merging takes place: along any path of keys on which both the current
    template and the overrides hold mappings, the result holds the merge of
    the two nested mappings, and that merge has every key of the current
    nested mapping. *)
Theorem merge_keeps_keys (base manual : dict) :
  (forall k, is_Some (base !! k) ->
     is_Some (merge_manual_fields base manual !! k))
  /\ (forall path bm vm,
        descend path base = Some bm ->
        descend path manual = Some vm ->
        descend path (merge_manual_fields base manual)
        = Some (merge_manual_fields bm vm)
        /\ forall k, is_Some (bm !! k) ->
             is_Some (merge_manual_fields bm vm !! k)).
Proof.
  split.
  - intros k. apply merge_keeps_key.
  - intros path. revert base manual.
    induction path as [|k path IH]; intros base manual bm vm Hb Hm.
    + simpl in *. inversion Hb; inversion Hm; subst. split; [reflexivity|].
      intros k. apply merge_keeps_key.
    + simpl in *.
      destruct (base !! k) as [[| | | | | |b']|] eqn:Eb; try discriminate.
      destruct (manual !! k) as [[| | | | | |m']|] eqn:Em; try discriminate.
      rewrite (merge_lookup_nested _ _ _ _ _ Eb Em).
      now apply IH.
Qed.

Lemma merge_keeps_keys_witness :
  is_Some (merge_manual_fields MergeExamples.video MergeExamples.manual
           !! "duration")
  /\ is_Some (merge_manual_fields MergeExamples.audio_off
                MergeExamples.music_on !! "narration").
Proof.
  split.
  - apply (proj1 (merge_keeps_keys MergeExamples.video MergeExamples.manual)).
    exists (VInt 8). reflexivity.
  - apply (proj2 (merge_keeps_keys MergeExamples.video MergeExamples.manual)
             ["audio"] MergeExamples.audio_off MergeExamples.music_on);
      [reflexivity | reflexivity |].
    exists (VBool false). reflexivity.
Defined.

(** * Further properties *)

(** X1: merging with no overrides gives the current template back, and
    the keys of a merge are the keys of the current template together with
    the keys at which the overrides give a value that is not empty. *)
Theorem merge_keys (base manual : dict) :
  merge_manual_fields base ∅ = base
  /\ forall k,
       is_Some (merge_manual_fields base manual !! k)
       <-> is_Some (base !! k)
           \/ exists v, manual !! k = Some v /\ skipped v = false.
Proof.
  split.
  - apply (map_eq (M := gmap string)). intros k.
    now rewrite merge_lookup, lookup_empty.
  - intros k. apply merge_lookup_is_Some.
Qed.

(** X2: merging the same overrides a second time changes nothing. *)
Theorem merge_idempotent (base manual : dict) :
  merge_manual_fields (merge_manual_fields base manual) manual
  = merge_manual_fields base manual.
Proof. apply (merge_twice (vdepth (VDict manual))). lia. Qed.

(** X3: manual overrides win at the leaves.  A value that the manual
    mapping holds at the end of a path of keys, and that is neither empty
    nor a mapping, is the value at that path after
    [merge(merge(base, enrichment), manual)], whatever the base and the
    enrichment hold. *)
Theorem manual_leaf_wins (base enrichment manual : dict)
    (path : list string) (v : value) :
  at_path path manual = Some v ->
  skipped v = false ->
  is_dict v = false ->
  at_path path
    (merge_manual_fields (merge_manual_fields base enrichment) manual)
  = Some v.
Proof. apply merge_at_path. Qed.

Lemma manual_leaf_wins_witness :
  at_path ["audio"; "music"]
    (merge_manual_fields
       (merge_manual_fields MergeExamples.video
          {["audio" := VStr (lit "none")]})
       MergeExamples.manual)
  = Some (VBool true).
Proof.
  apply (manual_leaf_wins MergeExamples.video
           {["audio" := VStr (lit "none")]} MergeExamples.manual
           ["audio"; "music"] (VBool true)); reflexivity.
Defined.

Section TemplateProperties.
Context `{Chunker}.
Import Re ReFacts PatternFacts Textwrap TextwrapFacts.



(** X6: the duration of a video template is always an integer that is not
    negative, as the schema asks ([minimum: 0]): 8, or the number read
    from the text, times 60 for minutes. *)
Theorem video_duration_range (utcnow text : pystr) :
  exists n : Z,
    natural_to_template utcnow "veo3_video" text !! "duration"
    = Some (VInt n)
    /\ (0 <= n)%Z.
Proof.
  rewrite template_video, video_duration_lookup.
  eexists. split; [reflexivity|].
  destruct (search duration_re _) as [m|] eqn:Es; [|lia].
  apply (search_groups
           (fun g => exists ds, ds <> [] /\ all_in Char.is_digit ds
                                /\ group g 1 = ds
                                /\ (group g 2 = lit "s"
                                    \/ group g 2 = lit "m")))
    in Es; [|exact duration_match_groups].
  destruct Es as (ds & _ & Hds & -> & _).
  pose proof (int_digits_nonneg ds Hds).
  destruct (Str.startswith _ _); lia.
Qed.

(** X7: the size of an image template always has the shape the schema
    asks for: two groups of three or four digits with the letter x between
    them, also when the text writes the size with a multiplication sign or
    with spaces, and when it gives no size. *)
Theorem image_size_shape (utcnow text : pystr) :
  exists s,
    natural_to_template utcnow "image" text !! "size" = Some (VStr s)
    /\ size_text s.
Proof.
  rewrite template_image, image_size_lookup.
  destruct (search size_re text) as [m|] eqn:Es.
  - eexists. split; [reflexivity|].
    apply (search_groups
             (fun g => all_in Char.is_digit (group g 1)
                       /\ 3 <= length (group g 1) <= 4
                       /\ all_in Char.is_digit (group g 2)
                       /\ 3 <= length (group g 2) <= 4))
      in Es; [|exact size_match_groups].
    exists (group m 1), (group m 2). split; [reflexivity|exact Es].
  - eexists. split; [reflexivity|].
    exists (lit "1024"), (lit "1024"). split; [reflexivity|].
    repeat split; try (simpl; lia); repeat constructor.
Qed.

(** X8: style and composition of an image template.  With
    "illustration" or "vector" in the lower case text the style is
    illustration, also when "cinematic" is there; otherwise "cinematic"
    gives the style cinematic, and without any of the three the style is
    photorealistic.  The composition is wide exactly when "cinematic" is
    there, whatever the style ends up as. *)
Theorem image_style (utcnow text : pystr) :
  let lower := Str.lower (Str.strip text) in
  let template := natural_to_template utcnow "image" text in
  (occurs (lit "illustration") lower \/ occurs (lit "vector") lower ->
   template !! "style" = Some (vstr "illustration"))
  /\ (~ occurs (lit "illustration") lower -> ~ occurs (lit "vector") lower ->
      occurs (lit "cinematic") lower ->
      template !! "style" = Some (vstr "cinematic"))
  /\ (~ occurs (lit "illustration") lower -> ~ occurs (lit "vector") lower ->
      ~ occurs (lit "cinematic") lower ->
      template !! "style" = Some (vstr "photorealistic"))
  /\ (occurs (lit "cinematic") lower ->
      template !! "composition" = Some (vstr "wide"))
  /\ (~ occurs (lit "cinematic") lower ->
      template !! "composition" = Some (vstr "centered_subject")).
Proof.
  intros lower template. subst template.
  rewrite template_image, image_style_lookup, image_composition_lookup.
  fold lower. refine (conj _ (conj _ (conj _ (conj _ _)))).
  - intros Ho. apply or_contains in Ho. now rewrite Ho.
  - intros Hi Hv Hc.
    rewrite (proj2 (or_contains_false _ _ _) (conj Hi Hv)).
    now rewrite (proj2 (contains_spec _ _) Hc).
  - intros Hi Hv Hc.
    rewrite (proj2 (or_contains_false _ _ _) (conj Hi Hv)).
    now rewrite (proj2 (contains_false _ _) Hc).
  - intros Hc. now rewrite (proj2 (contains_spec _ _) Hc).
  - intros Hc. now rewrite (proj2 (contains_false _ _) Hc).
Qed.


(** X10: the language of a code template, by priority.  "python" or "py "
    in the lower case text gives python, also when another language is
    named; otherwise "javascript" or "js " gives javascript; otherwise
    "r " or "rstudio" gives r, so that any word ending in r before a space
    counts; and with none of them the language is python. *)
Theorem code_language (utcnow text : pystr) :
  let lower := Str.lower (Str.strip text) in
  let language := natural_to_template utcnow "code" text !! "language" in
  let python := occurs (lit "python") lower \/ occurs (lit "py ") lower in
  let javascript :=
    occurs (lit "javascript") lower \/ occurs (lit "js ") lower in
  let r := occurs (lit "r ") lower \/ occurs (lit "rstudio") lower in
  (python -> language = Some (vstr "python"))
  /\ (~ python -> javascript -> language = Some (vstr "javascript"))
  /\ (~ python -> ~ javascript -> r -> language = Some (vstr "r"))
  /\ (~ python -> ~ javascript -> ~ r -> language = Some (vstr "python")).
Proof.
  intros lower language python javascript r. subst language.
  rewrite template_code, code_language_lookup. fold lower.
  assert (Hno : forall a b, ~ (occurs a lower \/ occurs b lower) ->
            Str.contains a lower || Str.contains b lower = false).
  { intros a b Hn. apply or_contains_false. tauto. }
  refine (conj _ (conj _ (conj _ _))).
  - intros Hp. apply or_contains in Hp. now rewrite Hp.
  - intros Hp Hj. rewrite (Hno _ _ Hp).
    apply or_contains in Hj. now rewrite Hj.
  - intros Hp Hj Hr. rewrite (Hno _ _ Hp), (Hno _ _ Hj).
    apply or_contains in Hr. now rewrite Hr.
  - intros Hp Hj Hr. now rewrite (Hno _ _ Hp), (Hno _ _ Hj), (Hno _ _ Hr).
Qed.

(** X11: the requirements of a code template are a list of package names
    without repetition: requests and beautifulsoup4 when the lower case
    text has "scrape" or "scraping", then pandas when it has "pandas" or
    "dataframe", and nothing else. *)
Theorem code_requirements (utcnow text : pystr) :
  let lower := Str.lower (Str.strip text) in
  let scraping :=
    occurs (lit "scrape") lower \/ occurs (lit "scraping") lower in
  let frames :=
    occurs (lit "pandas") lower \/ occurs (lit "dataframe") lower in
  exists names : list string,
    natural_to_template utcnow "code" text !! "requirements"
    = Some (VList (map vstr names))
    /\ NoDup names
    /\ (In "requests"%string names <-> scraping)
    /\ (In "beautifulsoup4"%string names <-> scraping)
    /\ (In "pandas"%string names <-> frames)
    /\ (forall name, In name names ->
          In name ["requests"; "beautifulsoup4"; "pandas"]%string).
Proof.
  intros lower scraping frames.
  rewrite template_code, code_requirements_lookup. fold lower.
  assert (Hs : Str.contains (lit "scrape") lower
               || Str.contains (lit "scraping") lower = true <-> scraping)
    by apply or_contains.
  assert (Hf : Str.contains (lit "pandas") lower
               || Str.contains (lit "dataframe") lower = true <-> frames)
    by apply or_contains.
  assert (Hnd : forall l : list string,
            (if decide (NoDup l) then true else false) = true -> NoDup l).
  { intros l. destruct (decide (NoDup l)); [trivial | discriminate]. }
  destruct (Str.contains (lit "scrape") lower
            || Str.contains (lit "scraping") lower);
    destruct (Str.contains (lit "pandas") lower
              || Str.contains (lit "dataframe") lower);
    [exists ["requests"; "beautifulsoup4"; "pandas"]%string
    |exists ["requests"; "beautifulsoup4"]%string
    |exists ["pandas"]%string
    |exists []];
    (split; [reflexivity|]);
    (split; [apply Hnd; vm_compute; reflexivity|]);
    simpl; intuition congruence.
Qed.

End TemplateProperties.

Section CaseProperties.
Context `{Chunker}.

(** X12: what the inference reads off the text does not depend on letter
    case, on white space around the text, or on the time of the call.  Two
    requests whose texts are equal once stripped and put in lower case get,
    for every tool, templates that agree on every field other than the
    free text ([scene_description], [prompt], [task]), the image [size],
    which is searched in the text as typed, and [meta]. *)
Theorem inference_ignores_case (utcnow1 utcnow2 : pystr) (tool : string)
    (text1 text2 : pystr) (k : string) :
  Str.lower (Str.strip text1) = Str.lower (Str.strip text2) ->
  ~ In k ["meta"; "scene_description"; "prompt"; "task"; "size"]%string ->
  natural_to_template utcnow1 tool text1 !! k
  = natural_to_template utcnow2 tool text2 !! k.
Proof.
  intros Hl. revert k.
  change (agree ["meta"; "scene_description"; "prompt"; "task"; "size"]
            (natural_to_template utcnow1 tool text1)
            (natural_to_template utcnow2 tool text2)).
  pattern tool. apply template_cases; clear tool; cbv beta.
  - rewrite !template_video, Hl.
    apply video_rules_agree; [simpl; tauto|].
    apply agree_singleton_skip. simpl. tauto.
  - rewrite !template_image, Hl.
    apply image_rules_agree; [simpl; tauto | simpl; tauto |].
    apply agree_singleton_skip. simpl. tauto.
  - rewrite !template_code, Hl.
    apply code_rules_agree; [simpl; tauto | simpl; intuition discriminate |].
    apply agree_singleton_skip. simpl. tauto.
  - intros tool Hv Hi Hc. rewrite !template_other by assumption.
    unfold dict_update. cbn [foldl].
    do 3 apply agree_insert. apply agree_insert_skip; [simpl; tauto|].
    apply agree_singleton_skip. simpl. tauto.
Qed.

End CaseProperties.



Lemma image_style_witness :
  let template :=
    natural_to_template (lit "2025-01-01T00:00:00") "image"
      (lit "A Cinematic vector logo") in
  template !! "style" = Some (vstr "illustration")
  /\ template !! "composition" = Some (vstr "wide").
Proof.
  intros template. subst template.
  destruct (image_style (lit "2025-01-01T00:00:00")
              (lit "A Cinematic vector logo")) as (Hs & _ & _ & Hc & _).
  split.
  - apply Hs. right. exists (lit "a cinematic "), (lit " logo"). reflexivity.
  - apply Hc. exists (lit "a "), (lit " vector logo"). reflexivity.
Defined.


Lemma code_language_witness :
  natural_to_template (lit "2025-01-01T00:00:00") "code"
    (lit "Build a Docker image") !! "language"
  = Some (vstr "r").
Proof.
  refine (proj1 (proj2 (proj2 (code_language (lit "2025-01-01T00:00:00")
                                 (lit "Build a Docker image")))) _ _ _).
  - intros [Ho|Ho]; revert Ho; apply contains_false; reflexivity.
  - intros [Ho|Ho]; revert Ho; apply contains_false; reflexivity.
  - left. exists (lit "build a docke"), (lit "image"). reflexivity.
Defined.

Lemma code_requirements_witness :
  exists names,
    natural_to_template (lit "2025-01-01T00:00:00") "code"
      (lit "Scrape prices into a DataFrame") !! "requirements"
    = Some (VList (map vstr names))
    /\ In "requests"%string names /\ In "pandas"%string names.
Proof.
  destruct (code_requirements (lit "2025-01-01T00:00:00")
              (lit "Scrape prices into a DataFrame"))
    as (names & E & _ & Hr & _ & Hp & _).
  exists names. refine (conj E (conj _ _)).
  - apply Hr. left. exists [], (lit " prices into a dataframe"). reflexivity.
  - apply Hp. right. exists (lit "scrape prices into a "), []. reflexivity.
Defined.

Lemma inference_ignores_case_witness :
  natural_to_template (lit "2025-01-01T00:00:00") "veo3_video"
    (lit "A TikTok Clip") !! "aspect_ratio"
  = natural_to_template (lit "2026-06-30T12:00:00") "veo3_video"
      (lit "  a tiktok clip ") !! "aspect_ratio".
Proof.
  refine (inference_ignores_case (lit "2025-01-01T00:00:00")
            (lit "2026-06-30T12:00:00") "veo3_video"
            (lit "A TikTok Clip") (lit "  a tiktok clip ") "aspect_ratio"
            _ _).
  - reflexivity.
  - simpl. intuition discriminate.
Defined.

(** X13: with the validator there, the report has one line per error the
    validator finds in the data against the schema of the tool, in the
    order of the texts of the errors, and errors with the same text stay in
    the order the validator gave them.  Each line is the path of the error,
    or (root), then the message. *)
Theorem validation_report_order (check : value -> value -> bool)
    (validator : value -> dict -> list validation_error) (tool : string)
    (data : dict) :
  let found := validator (schema_of tool) data in
  exists errs,
    validate_schema {| validate := Some check;
                       Draft7Validator := Some validator |} tool data
    = map report_line errs
    /\ errs ≡ₚ found
    /\ StronglySorted by_text errs
    /\ forall s, with_text s errs = with_text s found.
Proof.
  intros found. exists (sorted_errors found).
  rewrite validate_schema_available.
  refine (conj eq_refl (conj _ (conj _ _))).
  - apply sorted_errors_perm.
  - apply sorted_errors_sorted.
  - intros s. apply sorted_errors_with_text.
Qed.

(** X14: with the validator there, the report is empty exactly when the
    validator finds no error, and a tool name that has no schema of its own
    is checked like [other]. *)
Theorem validation_report_empty (check : value -> value -> bool)
    (validator : value -> dict -> list validation_error) (tool : string)
    (data : dict) :
  let lib := {| validate := Some check; Draft7Validator := Some validator |} in
  (validate_schema lib tool data = []
   <-> validator (schema_of tool) data = [])
  /\ (tool <> "veo3_video"%string -> tool <> "image"%string ->
      tool <> "code"%string ->
      validate_schema lib tool data = validate_schema lib "other" data).
Proof.
  intros lib. subst lib. split.
  - rewrite validate_schema_available. split.
    + intros E. apply (f_equal length) in E.
      rewrite length_map, (Permutation_length (sorted_errors_perm _)) in E.
      now apply length_zero_iff_nil.
    + now intros ->.
  - intros Hv Hi Hc. rewrite !validate_schema_available.
    now rewrite schema_of_unknown.
Qed.

Section GenerationProperties.
Context `{Chunker}.

(** X15: a generated JSON never lacks a required field.  Whatever the
    language model answered and whatever the form holds, when the handler
    ends with a JSON, every field that the schema of the tool requires is
    a key of it, and the report is the validation of that JSON. *)
Theorem generate_required (lib : jsonschema_import)
    (created generated : pystr) (tool : string) (user_text : pystr)
    (enriched : value) (manual : dict) (include_meta : bool)
    (json : dict) (errors : list pystr) (field : string) :
  generate lib created generated tool user_text enriched manual include_meta
  = Generated json errors ->
  In field (required (schema_of tool)) ->
  is_Some (json !! field) /\ errors = validate_schema lib tool json.
Proof.
  unfold generate. intros Hg Hf.
  destruct (Str.blank user_text); [discriminate|].
  destruct (natural_to_template_call _ _ _) as [base|] eqn:Ec;
    [|discriminate].
  apply call_returns in Ec as ->.
  destruct enriched as [| | | | | |e]; try discriminate.
  pose proof (required_in_template created tool user_text field Hf) as Hb.
  apply (merge_keeps_key _ e) in Hb. apply (merge_keeps_key _ manual) in Hb.
  destruct include_meta.
  - destruct (stamp_meta _ _ _) as [stamped|] eqn:Es; [|discriminate].
    injection Hg as <- <-. split; [|reflexivity].
    exact (stamp_meta_keeps _ _ _ _ _ Es Hb).
  - injection Hg as <- <-. now split.
Qed.

(** X16: when the handler raises.  For a text that is not blank and the
    overrides of the form, the handler raises exactly in these cases: the
    inference raises; or the value held as the enrichment is no mapping;
    or, with the metadata asked for, the enrichment gives under [meta] a
    value that counts and is no mapping, which then replaces the [meta]
    of the template so that the stamps cannot be written into it.  The
    inference raises exactly for the video tool on a text whose leftmost
    duration has more than 4300 digits. *)
Theorem generate_raises (lib : jsonschema_import)
    (created generated : pystr) (tool : string) (user_text : pystr)
    (enriched : value) (w : widgets) (include_meta : bool) :
  Str.blank user_text = false ->
  (generate lib created generated tool user_text enriched
     (manual_overrides tool w) include_meta = Raised
   <-> natural_to_template_call created tool user_text = None
       \/ is_dict enriched = false
       \/ (include_meta = true
           /\ exists e v,
                enriched = VDict e /\ e !! "meta" = Some v
                /\ skipped v = false /\ is_dict v = false))
  /\ (natural_to_template_call created tool user_text = None
      <-> tool = "veo3_video"%string
          /\ exists m,
               Re.search duration_re (Str.lower (Str.strip user_text))
               = Some m
               /\ 4300 < length (Re.group m 1)).
Proof.
  intros Hb. split; [|apply call_raises].
  pose proof (manual_overrides_meta tool w) as Hm.
  unfold generate. rewrite Hb.
  destruct (natural_to_template_call _ _ _) as [base|] eqn:Ec;
    [|split; [now left | reflexivity]].
  apply call_returns in Ec as ->.
  destruct enriched as [| | | | | |e];
    try (split; [now right; left | reflexivity]).
  destruct include_meta.
  2:{ split; [discriminate|].
      intros [Hc|[Hd|(Hi & _)]]; discriminate. }
  rewrite stamp_meta_spec, merged_meta by exact Hm.
  unfold merged_at. rewrite !template_meta.
  destruct (e !! "meta") as [v|] eqn:Ev.
  - destruct (skipped v) eqn:Hs.
    + split; [discriminate|].
      intros [Hc|[Hd|(_ & e' & v' & [= <-] & Ev' & Hs' & _)]];
        [discriminate | discriminate |].
      congruence.
    + destruct v; simpl in Hs; try discriminate;
        try (split; [intros _; right; right; split; [reflexivity|];
                     eexists _, _; repeat split; eauto
                    |reflexivity]).
      split; [discriminate|].
      intros [Hc|[Hd|(_ & e' & v' & [= <-] & Ev' & _ & Hd)]];
        [discriminate | discriminate |].
      rewrite Ev in Ev'. injection Ev' as <-. discriminate.
  - split; [discriminate|].
    intros [Hc|[Hd|(_ & e' & v' & [= <-] & Ev' & _)]];
      [discriminate | discriminate |].
    congruence.
Qed.

(** X17: the stamps.  A JSON generated with the metadata asked for says
    under [meta] which tool it is for and when it was generated, whatever
    the enrichment and the form gave there; and when neither of them gives
    a [meta], it also keeps the creation time and the request text as
    typed. *)
Theorem generate_stamps (lib : jsonschema_import)
    (created generated : pystr) (tool : string) (user_text : pystr)
    (enriched : value) (manual : dict) (json : dict) (errors : list pystr) :
  generate lib created generated tool user_text enriched manual true
  = Generated json errors ->
  at_path ["meta"; "tool_target"] json = Some (vstr tool)
  /\ at_path ["meta"; "generated_at"] json = Some (VStr (generated ++ lit "Z"))
  /\ (manual !! "meta" = None ->
      (forall e, enriched = VDict e -> e !! "meta" = None) ->
      at_path ["meta"; "created_at"] json = Some (VStr (created ++ lit "Z"))
      /\ at_path ["meta"; "source_text"] json = Some (VStr user_text)).
Proof.
  unfold generate. intros Hg.
  destruct (Str.blank user_text); [discriminate|].
  destruct (natural_to_template_call _ _ _) as [base|] eqn:Ec;
    [|discriminate].
  apply call_returns in Ec as ->.
  destruct enriched as [| | | | | |e]; try discriminate.
  destruct (stamp_meta _ _ _) as [stamped|] eqn:Es; [|discriminate].
  injection Hg as <- _.
  destruct (stamp_meta_at _ _ _ _ Es) as (meta & Em & Et & Eg & Eo).
  rewrite !(at_path_two _ _ _ _ Em).
  refine (conj Et (conj Eg _)). intros Hm He.
  rewrite merged_meta in Eo by exact Hm.
  unfold merged_at in Eo. rewrite (He e eq_refl), template_meta in Eo.
  rewrite !Eo by discriminate.
  split; [apply lookup_insert_eq|].
  rewrite lookup_insert_ne by discriminate. apply lookup_singleton_eq.
Qed.

(** X18: what the form always decides.  The number input and the check
    boxes always hold a value that counts, so in a JSON generated for the
    video tool the duration is the number of the form, never the one read
    from the text, and the two audio switches are the check boxes; for the
    code tool the two constraints of the form are the check boxes.  No
    enrichment changes that. *)
Theorem form_decides (lib : jsonschema_import) (created generated : pystr)
    (tool : string) (user_text : pystr) (enriched : value) (w : widgets)
    (include_meta : bool) (json : dict) (errors : list pystr) :
  generate lib created generated tool user_text enriched
    (manual_overrides tool w) include_meta
  = Generated json errors ->
  (tool = "veo3_video"%string ->
   json !! "duration" = Some (VInt (number_of w))
   /\ at_path ["audio"; "music"] json = Some (VBool (checked w "music"))
   /\ at_path ["audio"; "narration"] json
      = Some (VBool (checked w "narration")))
  /\ (tool = "code"%string ->
      at_path ["constraints"; "no_external_network"] json
      = Some (VBool (checked w "no_external_network"))
      /\ at_path ["constraints"; "stdlib_only"] json
         = Some (VBool (checked w "stdlib_only"))).
Proof.
  unfold generate. intros Hg.
  destruct (Str.blank user_text); [discriminate|].
  destruct (natural_to_template_call _ _ _) as [base|] eqn:Ec;
    [|discriminate].
  destruct enriched as [| | | | | |e]; try discriminate.
  set (merged1 := merge_manual_fields _ e) in Hg.
  assert (Hpath : forall k path v,
            k <> "meta"%string ->
            at_path (k :: path) (manual_overrides tool w) = Some v ->
            skipped v = false -> is_dict v = false ->
            at_path (k :: path) json = Some v).
  { intros k path v Hk Hp Hs Hd.
    pose proof (merge_at_path (k :: path) merged1 _ v Hp Hs Hd) as Hm.
    destruct include_meta.
    - destruct (stamp_meta _ _ _) as [stamped|] eqn:Es; [|discriminate].
      injection Hg as <- _. rewrite <- Hm. apply at_path_head.
      exact (stamp_meta_other _ _ _ _ _ Es Hk).
    - injection Hg as <- _. exact Hm. }
  split; intros ->.
  - refine (conj _ (conj _ _)).
    + apply (Hpath "duration"%string [] _); try discriminate; reflexivity.
    + apply Hpath; try discriminate; reflexivity.
    + apply Hpath; try discriminate; reflexivity.
  - split; apply Hpath; try discriminate; reflexivity.
Qed.

End GenerationProperties.

Lemma validation_report_empty_witness :
  validate_schema GenerationExamples.prompt_validator "podcast" ∅
  = validate_schema GenerationExamples.prompt_validator "other" ∅.
Proof.
  refine (proj2 (validation_report_empty (fun _ _ => true) _ "podcast" ∅)
            _ _ _); discriminate.
Defined.

Lemma generate_required_witness :
  match generate GenerationExamples.no_validator GenerationExamples.created
          GenerationExamples.generated "veo3_video" (lit "a red fox")
          (VDict ∅)
          (manual_overrides "veo3_video" GenerationExamples.untouched) true
  with
  | Generated json errors =>
      is_Some (json !! "aspect_ratio") /\ errors = [unavailable_message]
  | _ => False
  end.
Proof.
  destruct (generate _ _ _ _ _ _ _ _) as [| |json errors] eqn:E.
  - vm_compute in E. discriminate.
  - vm_compute in E. discriminate.
  - destruct (generate_required _ _ _ _ _ _ _ _ _ _ "aspect_ratio" E)
      as [Hk ->]; [vm_compute; tauto|].
    split; [exact Hk | reflexivity].
Defined.

Lemma generate_raises_witness :
  generate GenerationExamples.no_validator GenerationExamples.created
    GenerationExamples.generated "image" (lit "a red fox")
    (VDict {["meta" := vstr "v2"]})
    (manual_overrides "image" GenerationExamples.untouched) true
  = Raised.
Proof.
  refine (proj2 (proj1 (generate_raises _ _ _ _ _ _ _ _ _)) _).
  - reflexivity.
  - right. right. split; [reflexivity|].
    exists {["meta" := vstr "v2"]}, (vstr "v2").
    repeat split; reflexivity.
Defined.

Lemma generate_stamps_witness :
  match generate GenerationExamples.no_validator GenerationExamples.created
          GenerationExamples.generated "image" (lit " a red fox")
          (VDict ∅)
          (manual_overrides "image" GenerationExamples.untouched) true
  with
  | Generated json _ =>
      at_path ["meta"; "tool_target"] json = Some (vstr "image")
      /\ at_path ["meta"; "source_text"] json = Some (VStr (lit " a red fox"))
  | _ => False
  end.
Proof.
  destruct (generate _ _ _ _ _ _ _ _) as [| |json errors] eqn:E.
  - vm_compute in E. discriminate.
  - vm_compute in E. discriminate.
  - destruct (generate_stamps _ _ _ _ _ _ _ _ _ E) as (Ht & _ & Hc).
    split; [exact Ht|]. apply Hc.
    + apply manual_overrides_meta.
    + intros e [= <-]. apply lookup_empty.
Defined.

Lemma form_decides_witness :
  match generate GenerationExamples.no_validator GenerationExamples.created
          GenerationExamples.generated "veo3_video"
          (lit "a 30 second clip") (VDict ∅)
          (manual_overrides "veo3_video" GenerationExamples.untouched) false
  with
  | Generated json _ => json !! "duration" = Some (VInt 8)
  | _ => False
  end.
Proof.
  destruct (generate _ _ _ _ _ _ _ _) as [| |json errors] eqn:E.
  - vm_compute in E. discriminate.
  - vm_compute in E. discriminate.
  - exact (proj1 (proj1 (form_decides _ _ _ _ _ _ _ _ _ _ E) eq_refl)).
Defined.

(** X19: a text of at most [max_words] words is summarised to its words
    with one space between them and no ellipsis: a single spaced text comes
    back as it is, and a blank text gives the empty summary. *)
Theorem summary_of_short_text (text : pystr) (max_words : Z) :
  (Z.of_nat (length (Str.split text)) <= max_words)%Z ->
  summarize_text_local text max_words = Str.join (lit " ") (Str.split text)
  /\ (single_spaced text -> summarize_text_local text max_words = text)
  /\ (Str.blank text = true -> summarize_text_local text max_words = []).
Proof.
  intros Hle. rewrite summarize_fits by exact Hle.
  refine (conj eq_refl (conj _ _)).
  - intros (ws & Hws & ->). now rewrite TextwrapFacts.split_join.
  - intros Hb. now rewrite split_blank.
Qed.

(** X20: a text of more than [max_words] words, for [max_words] from 1 on,
    is summarised to its first [max_words] words with one space between
    them and the ellipsis right after the last of them.  The summary then
    has exactly [max_words] words, of which all but the last are words of
    the text. *)
Theorem summary_of_long_text (text : pystr) (max_words : nat) :
  1 <= max_words -> max_words < length (Str.split text) ->
  let summary := summarize_text_local text (Z.of_nat max_words) in
  summary
  = Str.join (lit " ") (take max_words (Str.split text)) ++ lit "..."
  /\ length (Str.split summary) = max_words
  /\ take (max_words - 1) (Str.split summary)
     = take (max_words - 1) (Str.split text).
Proof.
  intros Hn Hlt summary. subst summary.
  destruct max_words as [|n]; [lia|].
  refine (conj (summarize_cuts _ _ Hlt) (conj _ _)).
  - rewrite summarize_cuts_words by lia. destruct (decide _); [|lia].
    rewrite length_app, length_take. simpl. lia.
  - rewrite summarize_cuts_words by lia. destruct (decide _); [|lia].
    replace (S n - 1) with n by lia.
    rewrite take_app_le by (rewrite length_take; lia).
    now rewrite take_take, Nat.min_id.
Qed.

(** X21: summarising a summary changes nothing, for [max_words] from 1
    on. *)
Theorem summary_idempotent (text : pystr) (max_words : Z) :
  (1 <= max_words)%Z ->
  summarize_text_local (summarize_text_local text max_words) max_words
  = summarize_text_local text max_words.
Proof.
  intros Hn. replace max_words with (Z.of_nat (S (Z.to_nat (max_words - 1))))
    by lia.
  apply summarize_again.
Qed.

(** X22: the summary without the language model.  When the use of OpenAI
    is not asked for, or there is no key, or the call fails, the summary is
    the local one with the limit of 300 words, and it has at most 300
    words. *)
Theorem generate_summary_local (chat : pystr -> pystr -> option pystr)
    (text : pystr) (use_openai : bool) (api_key : option pystr) :
  use_openai = false \/ api_key = None \/ api_key = Some []
  \/ (exists key, api_key = Some key /\ chat key text = None) ->
  generate_summary chat text use_openai api_key
  = summarize_text_local text 300
  /\ length (Str.split (generate_summary chat text use_openai api_key)) <= 300.
Proof.
  intros Hcase.
  assert (E : generate_summary chat text use_openai api_key
              = summarize_text_local text 300).
  { unfold generate_summary.
    destruct Hcase as [->|[->|[->|(key & -> & Hc)]]]; try reflexivity.
    - now destruct use_openai.
    - now destruct use_openai.
    - destruct use_openai; [|reflexivity].
      destruct key; [reflexivity|]. now rewrite Hc. }
  split; [exact E|]. rewrite E. exact (summarize_words text 299).
Qed.

Lemma summary_of_short_text_witness :
  summarize_text_local (lit " to   be or not ") 300 = lit "to be or not".
Proof.
  refine (proj1 (summary_of_short_text (lit " to   be or not ") 300 _)).
  vm_compute. discriminate.
Defined.

Lemma summary_of_long_text_witness :
  summarize_text_local (lit "to be  or not to be") 2 = lit "to be...".
Proof.
  refine (proj1 (summary_of_long_text (lit "to be  or not to be") 2 _ _)).
  - lia.
  - vm_compute. lia.
Defined.

Lemma summary_idempotent_witness :
  summarize_text_local (summarize_text_local (lit "to be or not to be") 2) 2
  = summarize_text_local (lit "to be or not to be") 2.
Proof. refine (summary_idempotent (lit "to be or not to be") 2 _). lia. Defined.

Lemma generate_summary_local_witness :
  generate_summary (fun _ _ => Some (lit "never asked")) (lit "to be  or not")
    true (Some [])
  = lit "to be or not".
Proof.
  refine (proj1 (generate_summary_local _ (lit "to be  or not") true
                   (Some []) _)).
  right. right. left. reflexivity.
Defined.

(** X23: the merged mapping is a shallow copy.  On a store without
    dangling references, with the recursion depth above the nesting of the
    overrides, the merge returns a new object whose entries are these: at a
    key without an override that counts, the very entry of the current
    mapping, so that a nested mapping kept from it is the same object in
    both; at a key where both sides hold a mapping, a reference to an
    object that did not exist before the call; and at any other key the
    override itself, which for a mapping is the object of the overrides and
    no copy of it. *)
Theorem merge_shares (depth : nat) (h : Store.heap) (base manual : Store.loc)
    (ob om : Store.obj) :
  Store.closed h ->
  h !! base = Some ob ->
  h !! manual = Some om ->
  Store.bounded depth h manual ->
  exists merged h' o,
    Store.merge_manual_fields depth base manual h = Some (merged, h')
    /\ merged <> base /\ merged <> manual
    /\ h' !! merged = Some o
    /\ forall k, shares h ob o k (om !! k).
Proof.
  intros Hc Hb Hm Hd.
  destruct (StoreFacts.merge_runs depth base manual h Hc
              (ex_intro _ ob Hb) Hd) as (merged & h' & E & _).
  destruct (StoreFacts.merge_frame _ _ _ _ _ _ E) as (_ & Hnew & _).
  destruct (StoreSharing.merge_result _ _ _ _ _ _ _ _ E Hb Hm)
    as (o & Ho & Hsh).
  exists merged, h', o. repeat split; try assumption; congruence.
Qed.

Lemma merge_shares_witness :
  exists merged h' o,
    Store.merge_manual_fields 2 1%positive 3%positive SharingExamples.heap1
    = Some (merged, h')
    /\ h' !! merged = Some o
    /\ o !! "meta" = Some (Store.HRef 5%positive)
    /\ o !! "extra" = Some (Store.HRef 6%positive).
Proof.
  destruct (merge_shares 2 SharingExamples.heap1 1%positive 3%positive
              (<["meta" := Store.HRef 5%positive]>
                 {["audio" := Store.HRef 2%positive]})
              (<["extra" := Store.HRef 6%positive]>
                 {["audio" := Store.HRef 4%positive]}))
    as (merged & h' & o & E & _ & _ & Ho & Hsh).
  - apply StoreFacts.closedb_sound. vm_compute. reflexivity.
  - reflexivity.
  - reflexivity.
  - apply StoreFacts.boundedb_sound. vm_compute. reflexivity.
  - exists merged, h', o. refine (conj E (conj Ho (conj _ _))).
    + exact (Hsh "meta"%string).
    + exact (Hsh "extra"%string).
Defined.

(** X24: a JSON object inside prose is found.  When the answer of the
    model does not parse as it is, the text from its first opening brace to
    its last closing brace is parsed instead, and its value is the result;
    an answer without an opening brace that does not parse gives the error
    that no JSON was found, with the answer as [raw]. *)
Theorem enrich_finds_object (create : chat_completion)
    (loads : pystr -> pystr + value) (prompt_text : pystr) (tool : string)
    (openai_key model : pystr) (text e : pystr) :
  openai_key <> [] ->
  create openai_key model enrich_system (enrich_user tool prompt_text)
  = inr text ->
  loads text = inl e ->
  (forall pre body post j,
     text = pre ++ lit "{" ++ body ++ lit "}" ++ post ->
     without "{" pre -> without "}" post ->
     loads (lit "{" ++ body ++ lit "}") = inr j ->
     openai_enrich (Some create) loads prompt_text tool openai_key model
     = {["ok" := j]})
  /\ (without "{" text ->
      openai_enrich (Some create) loads prompt_text tool openai_key model
      = <["raw" := VStr text]>
          {["error" := vstr "No JSON found in model response."]}).
Proof.
  intros Hk Hc Hl. unfold openai_enrich.
  destruct openai_key as [|c key]; [contradiction|].
  rewrite Hc, Hl. split.
  - intros pre body post j -> Hpre Hpost Hj.
    rewrite BraceFacts.brace_search by assumption.
    assert (Hg : forall x : pystr, Re.group {[0 := x]} 0 = x).
    { intros x. unfold Re.group. now rewrite lookup_singleton_eq. }
    now rewrite Hg, Hj.
  - intros Hno. now rewrite BraceFacts.brace_search_none.
Qed.

Section HandlerProperties.
Context `{Chunker}.

(** X25: a failed enrichment is ignored.  When the language model is not
    asked, or [openai_enrich] returns an error (no SDK, no key, a call that
    raises, an answer without JSON), the handler does what it does without
    enrichment.  For a text that is not blank and overrides without [meta]
    it then ends with a JSON exactly when the inference returns, and
    raises exactly when the inference raises, which only the video tool
    does, on a duration of more than 4300 digits. *)
Theorem failed_enrichment_is_ignored (lib : jsonschema_import)
    (openai : option chat_completion) (loads : pystr -> pystr + value)
    (created generated : pystr) (tool : string) (user_text : pystr)
    (use_llm : bool) (openai_key openai_model : pystr) (manual : dict)
    (include_meta : bool) :
  use_llm = false
  \/ is_Some (openai_enrich openai loads user_text tool openai_key
                openai_model !! "error") ->
  let result :=
    generate_json_prompt lib openai loads created generated tool user_text
      use_llm openai_key openai_model manual include_meta in
  result
  = generate lib created generated tool user_text (VDict ∅) manual
      include_meta
  /\ (Str.blank user_text = false -> manual !! "meta" = None ->
      ((exists json errors, result = Generated json errors)
       <-> is_Some (natural_to_template_call created tool user_text))
      /\ (result = Raised
          <-> natural_to_template_call created tool user_text = None)
      /\ (tool <> "veo3_video"%string ->
          exists json errors, result = Generated json errors)).
Proof.
  intros Hcase result. subst result. unfold generate_json_prompt.
  rewrite enrichment_error by exact Hcase.
  split; [reflexivity|]. intros Hb Hm.
  destruct (generate_plain lib created generated tool user_text manual
              include_meta Hb Hm) as [Hgen Hraise].
  refine (conj Hgen (conj Hraise _)).
  intros Hv. apply Hgen. rewrite call_other_tool by exact Hv. eauto.
Qed.

(** X26: an answer that is JSON but no object stops the generation.  When
    the language model is asked and its answer parses to a value that is
    not a mapping (a list, a number, a string, null), that value becomes the
    enrichment and the handler raises in the first merge. *)
Theorem non_object_answer_raises (lib : jsonschema_import)
    (create : chat_completion) (loads : pystr -> pystr + value)
    (created generated : pystr) (tool : string) (user_text : pystr)
    (openai_key openai_model : pystr) (manual : dict) (include_meta : bool)
    (text : pystr) (j : value) :
  Str.blank user_text = false ->
  openai_key <> [] ->
  create openai_key openai_model enrich_system (enrich_user tool user_text)
  = inr text ->
  loads text = inr j ->
  is_dict j = false ->
  generate_json_prompt lib (Some create) loads created generated tool
    user_text true openai_key openai_model manual include_meta
  = Raised.
Proof.
  intros Hb Hk Hc Hl Hj. unfold generate_json_prompt, enrichment.
  destruct openai_key as [|c key]; [contradiction|].
  cbv zeta. unfold openai_enrich. rewrite Hc, Hl.
  rewrite lookup_singleton_ne by discriminate.
  rewrite lookup_singleton_eq.
  change (default (VDict ∅) (Some j)) with j.
  unfold generate. rewrite Hb.
  destruct (natural_to_template_call _ _ _); [|reflexivity].
  now destruct j.
Qed.

End HandlerProperties.

Lemma enrich_finds_object_witness :
  openai_enrich (Some EnrichmentExamples.chatty) EnrichmentExamples.loads
    (lit "a red fox") "image" (lit "sk-1") (lit "gpt-4")
  = {["ok" := VDict ∅]}.
Proof.
  refine (proj1 (enrich_finds_object EnrichmentExamples.chatty
                   EnrichmentExamples.loads (lit "a red fox") "image"
                   (lit "sk-1") (lit "gpt-4") (lit "Here you go: {} Enjoy!")
                   (lit "Expecting value: line 1 column 1 (char 0)") _ _ _)
            (lit "Here you go: ") [] (lit " Enjoy!") (VDict ∅) _ _ _ _).
  - discriminate.
  - reflexivity.
  - reflexivity.
  - reflexivity.
  - repeat constructor; discriminate.
  - repeat constructor; discriminate.
  - reflexivity.
Defined.

Lemma failed_enrichment_is_ignored_witness :
  generate_json_prompt GenerationExamples.no_validator None
    EnrichmentExamples.loads GenerationExamples.created
    GenerationExamples.generated "image" (lit "a red fox") true
    (lit "sk-1") (lit "gpt-4")
    (manual_overrides "image" GenerationExamples.untouched) true
  = generate GenerationExamples.no_validator GenerationExamples.created
      GenerationExamples.generated "image" (lit "a red fox") (VDict ∅)
      (manual_overrides "image" GenerationExamples.untouched) true.
Proof.
  refine (proj1 (failed_enrichment_is_ignored _ None _ _ _ _ _ true _ _ _ _
                   _)).
  right. eexists. reflexivity.
Defined.

Lemma non_object_answer_raises_witness :
  generate_json_prompt GenerationExamples.no_validator
    (Some EnrichmentExamples.lister) EnrichmentExamples.loads
    GenerationExamples.created GenerationExamples.generated "image"
    (lit "a red fox") true (lit "sk-1") (lit "gpt-4")
    (manual_overrides "image" GenerationExamples.untouched) true
  = Raised.
Proof.
  refine (non_object_answer_raises _ EnrichmentExamples.lister
            EnrichmentExamples.loads _ _ "image" (lit "a red fox")
            (lit "sk-1") (lit "gpt-4") _ true (lit "[]") (VList [])
            _ _ _ _ _).
  - reflexivity.
  - discriminate.
  - reflexivity.
  - reflexivity.
  - reflexivity.
Defined.

(** X27: the video id of a YouTube address.  For an address with
    [watch?v=], the id is what follows the last [watch?v=] up to the next
    ampersand or the end; for an address without it that has [youtu.be/],
    the id is what follows the last [youtu.be/] up to the next question
    mark or the end; an address with neither has no id (the source raises
    [ValueError]). *)
Theorem video_id_of_url (url : pystr) :
  (forall pre id rest,
     url = pre ++ lit "watch?v=" ++ id ++ rest ->
     ~ occurs (lit "watch?v=") (id ++ rest) ->
     without "&" id -> rest = [] \/ (exists r, rest = "&"%char :: r) ->
     video_id url = Some id)
  /\ (forall pre id rest,
        ~ occurs (lit "watch?v=") url ->
        url = pre ++ lit "youtu.be/" ++ id ++ rest ->
        ~ occurs (lit "youtu.be/") (id ++ rest) ->
        without "?" id -> rest = [] \/ (exists r, rest = "?"%char :: r) ->
        video_id url = Some id)
  /\ (~ occurs (lit "watch?v=") url -> ~ occurs (lit "youtu.be/") url ->
      video_id url = None).
Proof.
  refine (conj _ (conj _ _)).
  - intros pre id rest -> Hno Hid Hrest. unfold video_id.
    rewrite (proj2 (contains_spec _ _)) by now exists pre, (id ++ rest).
    change (lit "watch?v=") with ("w"%char :: lit "atch?v=") in *.
    rewrite last_piece; [| repeat constructor; discriminate | exact Hno].
    change (lit "&") with ["&"%char]. now rewrite first_piece.
  - intros pre id rest Hw -> Hno Hid Hrest. unfold video_id.
    rewrite (proj2 (contains_false _ _)) by exact Hw.
    rewrite (proj2 (contains_spec _ _)) by now exists pre, (id ++ rest).
    change (lit "youtu.be/") with ("y"%char :: lit "outu.be/") in *.
    rewrite last_piece; [| repeat constructor; discriminate | exact Hno].
    change (lit "?") with ["?"%char]. now rewrite first_piece.
  - intros Hw Hy. unfold video_id.
    rewrite (proj2 (contains_false _ _)) by exact Hw.
    now rewrite (proj2 (contains_false _ _)) by exact Hy.
Qed.

Lemma video_id_of_url_witness :
  video_id (lit "https://www.youtube.com/watch?v=dQw4w9WgXcQ&t=42s")
  = Some (lit "dQw4w9WgXcQ").
Proof.
  refine (proj1 (video_id_of_url _) (lit "https://www.youtube.com/")
            (lit "dQw4w9WgXcQ") (lit "&t=42s") _ _ _ _).
  - reflexivity.
  - apply contains_false. reflexivity.
  - repeat constructor; discriminate.
  - right. now exists (lit "t=42s").
Defined.
